(** * wayback_recon: a shallow embedding of [wayback_recon.c]

    The development follows the C source function by function: the C
    strings and the few libc routines the program calls, the URL set
    ([add_url]), the method heuristic ([infer_method]), the query-string
    tokenizer ([safe_strncpy], [safe_strtok] and the loop of
    [process_domain] that uses them), the page loop and the report writer. *)

From Stdlib Require Import ZArith Lia Ascii String DecimalString.
From stdpp Require Import base list strings sorting.

Set Default Proof Using "Type".
#[local] Set Warnings "-clear-no-such-hyp".

(** ** C strings

    A C string is modelled by its contents: the bytes before the
    terminating NUL.  [cstr s] says that [s] is the contents of a string,
    that is, holds no NUL itself.  Character arrays that the program
    writes into (the [query] buffer) are modelled separately, as lists
    indexed by position, terminators included. *)

Abbreviation cstring := (list ascii).

Definition NUL : ascii := Ascii.zero.

Definition lit (s : string) : cstring := list_ascii_of_string s.

Definition cstr (s : cstring) : Prop := NUL ∉ s.

(** The value of a [char] converted to [unsigned char], as [strcmp]
    compares it. *)
Definition uchar (c : ascii) : Z := Z.of_N (N_of_ascii c).

(** [url[0]]-style reads of a string: the terminator is read at and after
    the end. *)
Definition char_at (s : cstring) (i : nat) : ascii := default NUL (s !! i).

(** ** libc: [strcmp], [strstr], [strchr], [strspn], [strcspn] *)

(** [strcmp] returns the difference of the first pair of bytes that
    differ (the terminator counts as 0); callers only use its sign. *)
Fixpoint strcmp (a b : cstring) : Z :=
  match a, b with
  | [], [] => 0
  | [], y :: _ => 0 - uchar y
  | x :: _, [] => uchar x - 0
  | x :: a', y :: b' =>
      if decide (x = y) then (if decide (x = NUL) then 0 else strcmp a' b')
      else uchar x - uchar y
  end%Z.

Fixpoint is_prefix (p s : cstring) : bool :=
  match p, s with
  | [], _ => true
  | _ :: _, [] => false
  | x :: p', y :: s' => bool_decide (x = y) && is_prefix p' s'
  end.

(** [strstr haystack needle]: offset of the first occurrence, [None] for
    the null pointer. *)
Fixpoint strstr (haystack needle : cstring) : option nat :=
  if is_prefix needle haystack then Some 0
  else match haystack with
       | [] => None
       | _ :: h' => S <$> strstr h' needle
       end.

(** [strchr s c] for a character [c] other than the terminator. *)
Fixpoint strchr (s : cstring) (c : ascii) : option nat :=
  match s with
  | [] => None
  | x :: s' => if decide (x = c) then Some 0 else S <$> strchr s' c
  end.

Fixpoint strspn (s accept : cstring) : nat :=
  match s with
  | [] => 0
  | x :: s' => if bool_decide (x ∈ accept) then S (strspn s' accept) else 0
  end.

Fixpoint strcspn (s reject : cstring) : nat :=
  match s with
  | [] => 0
  | x :: s' => if bool_decide (x ∈ reject) then 0 else S (strcspn s' reject)
  end.

(** A pointer used as a condition: true when it is not null. *)
Definition non_null {A} (p : option A) : bool :=
  match p with Some _ => true | None => false end.

(** ** Constants of the program *)

Definition MAX_URL_LEN : Z := 2048.
Definition MAX_PARAM_LEN : Z := 512.
Definition INITIAL_CAPACITY : Z := 1024.
Definition MAX_DOMAIN_LEN : Z := 253.
Definition INT_MAX : Z := 2147483647.

Definition max (a b : Z) : Z := if (a >? b)%Z then a else b.

(** ** [infer_method] *)

Definition infer_method (url mimetype : option cstring) : cstring :=
  match url with
  | None => lit "GET"
  | Some url =>
      let m := match mimetype with Some m => m | None => lit "" end in
      let has_post :=
        non_null (strstr url (lit "login")) || non_null (strstr url (lit "submit")) ||
        non_null (strstr url (lit "upload")) || non_null (strstr url (lit "create")) ||
        non_null (strstr url (lit "update")) || non_null (strstr url (lit "delete")) ||
        non_null (strstr url (lit "api")) || non_null (strstr url (lit "json")) ||
        non_null (strstr url (lit "graphql")) ||
        non_null (strstr m (lit "json")) || non_null (strstr m (lit "xml")) ||
        non_null (strstr m (lit "form")) in
      if has_post then
        if non_null (strstr url (lit "update")) || non_null (strstr url (lit "patch"))
        then lit "PUT"
        else if non_null (strstr url (lit "delete")) || non_null (strstr url (lit "remove"))
        then lit "DELETE"
        else lit "POST"
      else lit "GET"
  end.

(** *** The heuristic as the specification words it *)

(** Substring containment, independent of [strstr]. *)
Definition contains (s kw : cstring) : Prop := ∃ pre post, s = pre ++ kw ++ post.

Definition url_signals : list string :=
  ["login"; "submit"; "upload"; "create"; "update"; "delete"; "api"; "json"; "graphql"].

Definition mime_signals : list string := ["json"; "xml"; "form"].

Definition signal (url m : cstring) : Prop :=
  (∃ k, k ∈ url_signals ∧ contains url (lit k)) ∨
  (∃ k, k ∈ mime_signals ∧ contains m (lit k)).

Definition put_signal (url : cstring) : Prop :=
  contains url (lit "update") ∨ contains url (lit "patch").

Definition delete_signal (url : cstring) : Prop :=
  contains url (lit "delete") ∨ contains url (lit "remove").

(** ** jansson values

    [json_t *] is a value or the null pointer; the accessors below are
    the ones the program calls, with jansson's answers for a null pointer
    and for a value of another type. *)

#[local] Set Warnings "-register-all".

Inductive json_t : Type :=
| JNull
| JTrue
| JFalse
| JInteger (v : Z)
| JReal (lexeme : cstring)
| JString (s : cstring)
| JArray (items : list json_t)
| JObject (members : list (cstring * json_t)).

Definition json_is_array (j : option json_t) : bool :=
  match j with Some (JArray _) => true | _ => false end.

Definition json_array_size (j : option json_t) : nat :=
  match j with Some (JArray items) => length items | _ => 0 end.

Definition json_array_get (j : option json_t) (i : nat) : option json_t :=
  match j with Some (JArray items) => items !! i | _ => None end.

Definition json_string_value (j : option json_t) : option cstring :=
  match j with Some (JString s) => Some s | _ => None end.

(** *** Building values: [json_string], [json_object_set_new],
    [json_array_append_new]

    [json_string] checks that its argument is UTF-8 and returns null
    when it is not; the two functions that add a value do nothing when
    the value is null.  The check is the library's [utf8_check_string]:
    the length of a sequence from its first byte, then its continuation
    bytes and the range of the code point. *)

Definition utf8_check_first (byte : ascii) : nat :=
  let u := uchar byte in
  if decide (u < 128)%Z then 1
  else if decide (u ≤ 191)%Z then 0
  else if decide (u = 192 ∨ u = 193)%Z then 0
  else if decide (u ≤ 223)%Z then 2
  else if decide (u ≤ 239)%Z then 3
  else if decide (u ≤ 244)%Z then 4
  else 0.

(** [utf8_check_full(buffer, size, NULL)], for a buffer of at least
    [size] bytes. *)
Definition utf8_check_full (buffer : list ascii) (size : nat) : bool :=
  let u := uchar (default NUL (buffer !! 0)) in
  let continuation := take (size - 1) (drop 1 buffer) in
  let value :=
    foldl (λ value c, Z.shiftl value 6 + Z.land (uchar c) 63)%Z
      (match size with
       | 2 => Z.land u 31
       | 3 => Z.land u 15
       | _ => Z.land u 7
       end)
      continuation in
  bool_decide (2 ≤ size ≤ 4) &&
  forallb (λ c, bool_decide (128 ≤ uchar c ≤ 191)%Z) continuation &&
  negb (bool_decide (value > 1114111)%Z) &&
  negb (bool_decide (55296 ≤ value ≤ 57343)%Z) &&
  negb (bool_decide (size = 2 ∧ (value < 128)%Z ∨ size = 3 ∧ (value < 2048)%Z ∨
                     size = 4 ∧ (value < 65536)%Z)).

(** The loop of [utf8_check_string]; [skip] bytes of a sequence already
    checked are still to be passed over. *)
Fixpoint utf8_check_from (skip : nat) (string : cstring) : bool :=
  match string with
  | [] => true
  | byte :: rest =>
      match skip with
      | S skip' => utf8_check_from skip' rest
      | 0 =>
          let count := utf8_check_first byte in
          if decide (count = 0) then false
          else if decide (1 < count) then
            if decide (length string < count) then false
            else if negb (utf8_check_full string count) then false
            else utf8_check_from (count - 1) rest
          else utf8_check_from 0 rest
      end
  end.

Definition utf8_check_string (string : cstring) : bool := utf8_check_from 0 string.

Definition json_string (value : cstring) : option json_t :=
  if utf8_check_string value then Some (JString value) else None.

(** An object keeps its members in the order in which their keys were
    first set; setting a key again replaces its value in place. *)
Fixpoint set_member (members : list (cstring * json_t)) (key : cstring) (v : json_t)
  : list (cstring * json_t) :=
  match members with
  | [] => [(key, v)]
  | (k, old) :: rest =>
      if decide (k = key) then (k, v) :: rest else (k, old) :: set_member rest key v
  end.

Definition json_object_set_new (object : json_t) (key : cstring) (value : option json_t)
  : json_t :=
  match object, value with
  | JObject members, Some v =>
      if utf8_check_string key then JObject (set_member members key v) else object
  | _, _ => object
  end.

Definition json_array_append_new (array : json_t) (value : option json_t) : json_t :=
  match array, value with
  | JArray items, Some v => JArray (items ++ [v])
  | _, _ => array
  end.

Definition JSON_INDENT (n : Z) : Z := Z.land n 31.
Definition JSON_ENSURE_ASCII : Z := 64.

(** ** Character arrays and the copy and tokenizer helpers

    An array is the list of its bytes; a pointer into it is an offset. *)

Definition LF : ascii := ascii_of_nat 10.

(** [*p] *)
Definition deref (buf : list ascii) (p : nat) : ascii := default NUL (buf !! p).

Fixpoint read_string (bytes : list ascii) : cstring :=
  match bytes with
  | [] => []
  | c :: rest => if decide (c = NUL) then [] else c :: read_string rest
  end.

(** The C string that starts at offset [p]. *)
Definition string_at (buf : list ascii) (p : nat) : cstring :=
  read_string (drop p buf).

(** [a[n] = x] for an array whose first [n] slots are in use. *)
Definition array_store {A} (a : list A) (n : Z) (x : A) : list A :=
  take (Z.to_nat n) a ++ [x].

(** The loop shared by [safe_strcpy] and [safe_strncpy]; [src] is what is
    left of the source at index [i], the empty list standing for its
    terminator. *)
Fixpoint copy_loop (dest : list ascii) (src : cstring) (i bound : nat)
  : list ascii * nat :=
  match src with
  | c :: src' =>
      if bool_decide (i < bound) && bool_decide (c ≠ NUL)
      then copy_loop (<[i := c]> dest) src' (S i) bound
      else (<[i := NUL]> dest, i)
  | [] => (<[i := NUL]> dest, i)
  end.

(** [dest_size - 1] in [size_t] (64 bits). *)
Definition size_pred (dest_size : Z) : nat :=
  Z.to_nat ((dest_size - 1) `mod` 2 ^ 64).

Definition safe_strcpy (dest : list ascii) (src : cstring) (dest_size : Z)
  : list ascii :=
  fst (copy_loop dest src 0 (size_pred dest_size)).

Definition safe_strncpy (dest : list ascii) (src : cstring) (dest_size : Z)
  : list ascii * nat :=
  copy_loop dest src 0 (size_pred dest_size).

(** [safe_strtok buf str delim saveptr] returns the token, the array
    after the call and the new [*saveptr]. *)
Definition safe_strtok (buf : list ascii) (str : option nat) (delim : cstring)
    (saveptr : option nat) : option nat * list ascii * option nat :=
  let str := match str with None => saveptr | Some _ => str end in
  match str with
  | None => (None, buf, saveptr)
  | Some s =>
      if decide (deref buf s = NUL) then (None, buf, saveptr)
      else
        let s := s + strspn (string_at buf s) delim in
        if decide (deref buf s = NUL) then (None, buf, saveptr)
        else
          let e := s + strcspn (string_at buf s) delim in
          if decide (deref buf e ≠ NUL)
          then (Some s, <[e := NUL]> buf, Some (S e))
          else (Some s, buf, Some e)
  end.

(** *** Parameter extraction as the specification words it *)

(** Split at every separator; two separators in a row give an empty token. *)
Fixpoint split_on (sep : ascii) (s : cstring) : list cstring :=
  match s with
  | [] => [[]]
  | c :: s' =>
      if decide (c = sep) then [] :: split_on sep s'
      else match split_on sep s' with
           | tok :: toks => (c :: tok) :: toks
           | [] => [[c]]
           end
  end.

(** The text before the first [c], the whole text when there is none. *)
Fixpoint before_first (c : ascii) (s : cstring) : cstring :=
  match s with
  | [] => []
  | x :: s' => if decide (x = c) then [] else x :: before_first c s'
  end.

(** The text after the first [c], if there is one. *)
Fixpoint after_first (c : ascii) (s : cstring) : option cstring :=
  match s with
  | [] => None
  | x :: s' => if decide (x = c) then Some s' else after_first c s'
  end.

Definition nonempty (s : cstring) : bool :=
  match s with [] => false | _ => true end.

Definition names_of_query (q : cstring) : list cstring :=
  filter (λ n, nonempty n = true)
    (before_first "="%char <$> filter (λ t, nonempty t = true) (split_on "&"%char q)).

Definition parameters_spec (url : cstring) : list cstring :=
  match after_first "?"%char url with
  | None => []
  | Some q => names_of_query (take (Z.to_nat MAX_PARAM_LEN - 1) q)
  end.

(** ** The URL set and the endpoint records *)

Record URLSet : Type := mkURLSet {
  urls : list cstring;
  count : Z;
  capacity : Z
}.

Record Endpoint : Type := mkEndpoint {
  url : cstring;
  method : cstring;
  params : list cstring;
  param_count : Z
}.

Definition compare_endpoints_asc (a b : Endpoint) : Z := strcmp (url a) (url b).

Definition compare_endpoints_desc (a b : Endpoint) : Z := strcmp (url b) (url a).

(** The array [urls] holds [count] strings. *)
Definition URLSet_wf (set : URLSet) : Prop :=
  count set = Z.of_nat (length (urls set)).

(** ** The process: heap, streams, exit

    A run threads the number of allocation requests made so far and the
    events it has produced.  It ends by returning, by [exit], in
    undefined behaviour (signed overflow of an [int]), or out of the fuel
    that bounds the loops of the model. *)

Inductive event : Type :=
| Query (request : cstring)
| Stdout (text : cstring)
| Stderr (text : cstring)
| Perror (what : cstring)
| Written (path : cstring) (text : cstring).

Record proc : Type := mkProc {
  heap_calls : nat;
  events : list event
}.

Inductive outcome (A : Type) : Type :=
| Ret (a : A) (p : proc)
| Exit (status : Z) (p : proc)
| Undefined
| OutOfFuel.

Arguments Ret {A} a p.
Arguments Exit {A} status p.
Arguments Undefined {A}.
Arguments OutOfFuel {A}.

Definition M (A : Type) : Type := proc → outcome A.

Definition ret {A} (a : A) : M A := λ p, Ret a p.

Definition bind {A B} (m : M A) (f : A → M B) : M B :=
  λ p, match m p with
       | Ret a p' => f a p'
       | Exit status p' => Exit status p'
       | Undefined => Undefined
       | OutOfFuel => OutOfFuel
       end.

Notation "x <- m ; k" := (bind m (λ x : _, k))
  (at level 20, m at level 100, k at level 200, only parsing).

Definition emit (e : event) : M unit :=
  λ p, Ret tt (mkProc (heap_calls p) (events p ++ [e])).

Definition exit {A} (status : Z) : M A := λ p, Exit status p.

Definition undefined {A} : M A := λ _, Undefined.

Definition out_of_fuel {A} : M A := λ _, OutOfFuel.

(** An [int] result: overflow is undefined. *)
Definition int_result (z : Z) : M Z :=
  if decide (- INT_MAX - 1 ≤ z ≤ INT_MAX)%Z then ret z else undefined.

Definition line (s : cstring) : cstring := s ++ [LF].

(** The responses of the archive, as [curl_easy_perform] and [json_loads]
    deliver them to [process_domain]. *)
Inductive response : Type :=
| TransportError (msg : cstring)
| EmptyBody
| Unparsable (msg : cstring)
| Document (root : json_t).

Record locals : Type := mkLocals {
  seen : URLSet;
  endpoints : list Endpoint;
  endpoint_count : Z;
  endpoint_capacity : Z
}.

(** The order a comparison function must induce for [qsort] to sort. *)
Definition consistent {A} (cmp : A → A → Z) : Prop :=
  (∀ a b, (cmp a b < 0 ↔ 0 < cmp b a)%Z) ∧
  (∀ a b, cmp a b = 0%Z ↔ cmp b a = 0%Z) ∧
  (∀ a b c, (cmp a b ≤ 0 → cmp b c ≤ 0 → cmp a c ≤ 0)%Z).

Definition sorts {A} (sort : (A → A → Z) → list A → list A) : Prop :=
  ∀ cmp l, consistent cmp →
    sort cmp l ≡ₚ l ∧ Sorted (λ a b, (cmp a b ≤ 0)%Z) (sort cmp l).

(** Insertion sort, one function that meets [sorts]. *)
Fixpoint insert_sorted {A} (cmp : A → A → Z) (x : A) (l : list A) : list A :=
  match l with
  | [] => [x]
  | y :: l' => if decide (cmp x y ≤ 0)%Z then x :: l else y :: insert_sorted cmp x l'
  end.

Fixpoint insertion_sort {A} (cmp : A → A → Z) (l : list A) : list A :=
  match l with
  | [] => []
  | x :: l' => insert_sorted cmp x (insertion_sort cmp l')
  end.

(** A decidable closed fact, by evaluation. *)
Ltac by_evaluation := apply (bool_decide_unpack _); vm_compute; exact I.

(** ** Well-formedness of the written array, at its opening

    After the opening bracket and white space, a JSON array continues
    with a value or with the closing bracket, never with a comma. *)

Definition json_space (c : ascii) : bool :=
  bool_decide (c ∈ [" "%char; LF; ascii_of_nat 13; ascii_of_nat 9]).

Fixpoint skip_space (s : cstring) : cstring :=
  match s with
  | c :: s' => if json_space c then skip_space s' else s
  | [] => []
  end.

Definition opens_with_comma (text : cstring) : bool :=
  match skip_space text with
  | c :: rest =>
      bool_decide (c = "["%char) &&
      match skip_space rest with
      | c' :: _ => bool_decide (c' = ","%char)
      | [] => false
      end
  | [] => false
  end.

(** ** A concrete environment, for the examples *)

Definition all_succeed : nat → bool := λ _, true.

Definition zeroed : cstring → list ascii := λ _, [].

Definition braces : json_t → Z → option cstring := λ _ _, Some (lit "{}").

(** [json_dumps] failing on the record of one URL. *)
Definition fails_on (u : cstring) : json_t → Z → option cstring :=
  λ j _,
    match j with
    | JObject ((_, JString u') :: _) => if decide (u' = u) then None else Some (lit "{}")
    | _ => None
    end.

(** [json_dumps] as a plain printer: the members of an object, each as
    its key and its strings. *)
Definition member_text (v : json_t) : cstring :=
  match v with
  | JString s => s
  | JArray items =>
      concat ((λ item, match item with JString s => s ++ lit " " | _ => [] end) <$> items)
  | _ => []
  end.

Definition plain : json_t → Z → option cstring :=
  λ j _,
    match j with
    | JObject members =>
        Some (concat ((λ member, member.1 ++ lit "=" ++ member_text member.2 ++ lit ";")
                        <$> members))
    | _ => None
    end.

Definition header_row : json_t :=
  JArray [JString (lit "original"); JString (lit "timestamp");
          JString (lit "statuscode"); JString (lit "mimetype")].

Definition data_row (original mimetype : string) : json_t :=
  JArray [JString (lit original); JString (lit "20200101000000");
          JString (lit "200"); JString (lit mimetype)].

(** A page as the archive sends it when more follow: the rows, an empty
    row, the row of the token. *)
Definition first_page : json_t :=
  JArray [header_row;
          data_row "https://x.com/a" "text/html";
          data_row "https://x.com/api/b?id=1" "application/json";
          JArray [];
          JArray [JString (lit "key1")]].

(** A page whose last row has no cell. *)
Definition last_page : json_t :=
  JArray [header_row;
          data_row "https://x.com/api/b?id=1" "application/json";
          data_row "https://x.com/c" "text/html";
          JArray []].

(** A URL in UTF-8 whose only parameter name ends with a character of two
    bytes, the first of which is the last byte that fits the array of
    512. *)
Definition cut_url : cstring :=
  lit "https://x.com/p?" ++ replicate 510 "a"%char ++ ["195"%char; "169"%char] ++ lit "=1".

Definition cut_archive : nat → cstring → response :=
  λ page _,
    match page with
    | 0 => Document (JArray [header_row;
                             JArray [JString cut_url; JString (lit "20200101000000");
                                     JString (lit "200"); JString (lit "text/html")]])
    | _ => EmptyBody
    end.

Definition archive : nat → cstring → response :=
  λ page _,
    match page with
    | 0 => Document first_page
    | 1 => Document last_page
    | _ => EmptyBody
    end.

Section WaybackRecon.

(** The environment of a run: whether the [n]-th allocation request
    succeeds, what the stack array [query] holds on entry to its block,
    the archive's answer to the [n]-th query, jansson's [json_dumps],
    libc's [qsort], and whether [curl_easy_init] and [fopen] succeed.

    The transport is taken whole: [cdx] stands for [curl_easy_perform]
    with [WriteMemoryCallback] followed by [json_loads], so the time-out
    and the other options of the handle do not appear.  The objects
    handed to [json_dumps] are built without failure. *)
Variable heap : nat → bool.
Variable query_uninit : cstring → list ascii.
Variable cdx : nat → cstring → response.
Variable json_dumps : json_t → Z → option cstring.
Variable qsort : (Endpoint → Endpoint → Z) → list Endpoint → list Endpoint.
Variable curl_init_ok : bool.
Variable fopen_ok : bool.

(** The bytes found in storage that the program has not written yet,
    other than [query]: the array [domain_buf] of [main] on entry to its
    block, the tail of a block that [realloc] has grown.  The argument
    stands for the point of the run. *)
Variable indeterminate : list ascii → list ascii.

(** [malloc], [realloc], [strdup]: one request to the heap. *)
Definition heap_request : M bool :=
  λ p, Ret (heap (heap_calls p)) (mkProc (S (heap_calls p)) (events p)).

(** [if (!ptr) { perror(what); exit(EXIT_FAILURE); }] *)
Definition checked_alloc (what : cstring) : M unit :=
  ok <- heap_request ;
  if ok then ret tt else (_ <- emit (Perror what) ; exit 1).

(** *** [add_url] *)

Definition add_url (set : URLSet) (url : option cstring) : M (Z * URLSet) :=
  match url with
  | None => ret (0%Z, set)
  | Some url =>
      if decide (char_at url 0 = NUL) then ret (0%Z, set)
      else if existsb (λ u, bool_decide (strcmp u url = 0%Z))
                (take (Z.to_nat (count set)) (urls set))
      then ret (0%Z, set)
      else
        set <- (if decide (count set = capacity set)
                then
                  doubled <- int_result (capacity set * 2) ;
                  _ <- checked_alloc (lit "realloc") ;
                  ret (mkURLSet (urls set) (count set) (max doubled INITIAL_CAPACITY))
                else ret set) ;
        _ <- checked_alloc (lit "strdup") ;
        count' <- int_result (count set + 1) ;
        ret (1%Z, mkURLSet (array_store (urls set) (count set) url) count' (capacity set))
  end.

(** *** The parameter loop of [process_domain] (lines 294-314)

    Each turn of the loop moves [saveptr] forward in the 512-byte array,
    which bounds the turns, and so [param_count]. *)

Fixpoint params_loop (fuel : nat) (query : list ascii) (saveptr token : option nat)
    (params : list cstring) (param_count : Z) : M (list cstring * Z) :=
  match token with
  | None => ret (params, param_count)
  | Some tok =>
      match fuel with
      | 0 => out_of_fuel
      | S fuel' =>
          let query :=
            match strchr (string_at query tok) "="%char with
            | Some k => <[tok + k := NUL]> query
            | None => query
            end in
          r <- (if decide (deref query tok ≠ NUL)
                then
                  _ <- checked_alloc (lit "realloc") ;
                  _ <- checked_alloc (lit "strdup") ;
                  ret (array_store params param_count (string_at query tok),
                       (param_count + 1)%Z)
                else ret (params, param_count)) ;
          let '(token', query', saveptr') :=
            safe_strtok query None (lit "&") saveptr in
          params_loop fuel' query' saveptr' token' r.1 r.2
      end
  end.

Definition extract_params (query : list ascii) (original : cstring)
  : M (list cstring * Z) :=
  match strchr original "?"%char with
  | None => ret ([], 0%Z)
  | Some qmark =>
      let query := (safe_strncpy query (drop (S qmark) original) MAX_PARAM_LEN).1 in
      let '(token, query, saveptr) := safe_strtok query (Some 0) (lit "&") None in
      params_loop (Z.to_nat MAX_PARAM_LEN) query saveptr token [] 0
  end.

(** The progress line printed for a new endpoint. *)
Fixpoint joined_params (params : list cstring) : cstring :=
  match params with
  | [] => []
  | [p] => line p
  | p :: rest => p ++ lit ", " ++ joined_params rest
  end.

Definition progress_line (original method : cstring) (params : list cstring)
    (param_count : Z) : cstring :=
  original ++ lit " | " ++ method ++ lit " | " ++
  (if decide (param_count = 0%Z) then line (lit "none")
   else joined_params (take (Z.to_nat param_count) params)).

(** *** One row of a page (the body of the loop at lines 283-339) *)

(** Lines 291-338: the URL of a row is offered to the set and, when it
    is new, its endpoint is printed and appended. *)
Definition observe_url (st : locals) (original : cstring) (mimetype : option cstring)
  : M locals :=
  r <- add_url (seen st) (Some original) ;
  let st := mkLocals r.2 (endpoints st) (endpoint_count st) (endpoint_capacity st) in
  if decide (r.1 ≠ 0%Z) then
    let method := infer_method (Some original) mimetype in
    ps <- extract_params
            (take (Z.to_nat MAX_PARAM_LEN)
               (query_uninit original ++ replicate (Z.to_nat MAX_PARAM_LEN) NUL))
            original ;
    _ <- emit (Stdout (progress_line original method ps.1 ps.2)) ;
    capacity' <- (if decide (endpoint_count st = endpoint_capacity st)
                  then
                    doubled <- int_result (endpoint_capacity st * 2) ;
                    _ <- checked_alloc (lit "realloc") ;
                    ret (max doubled INITIAL_CAPACITY)
                  else ret (endpoint_capacity st)) ;
    _ <- checked_alloc (lit "strdup") ;
    _ <- checked_alloc (lit "strdup") ;
    count' <- int_result (endpoint_count st + 1) ;
    ret (mkLocals (seen st)
           (array_store (endpoints st) (endpoint_count st)
              (mkEndpoint original method ps.1 ps.2))
           count' capacity')
  else ret st.

Definition process_row (st : locals) (row : json_t) : M locals :=
  if negb (json_is_array (Some row)) || bool_decide (json_array_size (Some row) < 4)
  then ret st
  else
    let original := json_string_value (json_array_get (Some row) 0) in
    let mimetype := json_string_value (json_array_get (Some row) 3) in
    match original with
    | None => ret st
    | Some original => observe_url st original mimetype
    end.

Fixpoint row_loop (st : locals) (rows : list json_t) : M locals :=
  match rows with
  | [] => ret st
  | row :: rows' => st' <- process_row st row ; row_loop st' rows'
  end.

(** *** The continuation token of a page (lines 341-349) *)

Definition next_resume_key (root : json_t) : M (option cstring) :=
  let last_row := json_array_get (Some root) (json_array_size (Some root) - 1) in
  if json_is_array last_row && bool_decide (0 < json_array_size last_row) then
    let last_cell := json_array_get last_row (json_array_size last_row - 1) in
    match json_string_value last_cell with
    | Some key =>
        if bool_decide (char_at key 0 ≠ NUL) &&
           bool_decide (strcmp key (lit "null") ≠ 0%Z)
        then _ <- checked_alloc (lit "strdup") ; ret (Some key)
        else ret None
    | None => ret None
    end
  else ret None.

(** *** The page loop (lines 231-353) *)

Definition decimal (z : Z) : cstring := lit (NilZero.string_of_int (Z.to_int z)).

Definition query_url (full_domain : cstring) (limit : Z) (resume_key : option cstring)
  : cstring :=
  take (Z.to_nat MAX_URL_LEN - 1)
    (lit "http://web.archive.org/cdx/search/cdx?url=" ++ full_domain ++
     lit "&matchType=domain&fl=original,timestamp,statuscode,mimetype&collapse=urlkey&output=json&limit=" ++
     decimal limit ++
     match resume_key with
     | Some key => lit "&resumeKey=" ++ key
     | None => lit "&showResumeKey=true"
     end).

Fixpoint fetch_loop (fuel : nat) (domain full_domain : cstring) (limit verbose : Z)
    (page : nat) (resume_key : option cstring) (st : locals) : M locals :=
  match fuel with
  | 0 => out_of_fuel
  | S fuel' =>
      let request := query_url full_domain limit resume_key in
      _ <- (if decide (verbose ≠ 0%Z)
            then emit (Stdout (line (lit "Querying: " ++ request)))
            else ret tt) ;
      _ <- emit (Query request) ;
      match cdx page request with
      | TransportError msg =>
          _ <- emit (Stderr (line (lit "curl error for " ++ domain ++ lit ": " ++ msg))) ;
          ret st
      | EmptyBody => ret st
      | Unparsable msg =>
          _ <- emit (Stderr (line (lit "JSON parse error for " ++ domain ++ lit ": " ++ msg))) ;
          ret st
      | Document root =>
          if negb (json_is_array (Some root)) ||
             bool_decide (json_array_size (Some root) < 2)
          then ret st
          else
            st' <- row_loop st
                     (match root with JArray items => drop 1 items | _ => [] end) ;
            key <- next_resume_key root ;
            match key with
            | Some k => fetch_loop fuel' domain full_domain limit verbose (S page) (Some k) st'
            | None => ret st'
            end
      end
  end.

(** *** Sorting and writing the report (lines 359-388) *)

Definition sort_endpoints (sort_desc : Z) (endpoints : list Endpoint)
    (endpoint_count : Z) : list Endpoint :=
  if decide (endpoint_count > 0)%Z
  then qsort (if decide (sort_desc ≠ 0%Z) then compare_endpoints_desc
              else compare_endpoints_asc)
         (take (Z.to_nat endpoint_count) endpoints)
  else endpoints.

(** Lines 370-377: the object of one record.  None of the calls is
    checked, so a string that [json_string] refuses leaves no member or
    no item behind. *)
Definition endpoint_json (e : Endpoint) : json_t :=
  let obj := JObject [] in
  let obj := json_object_set_new obj (lit "url") (json_string (url e)) in
  let obj := json_object_set_new obj (lit "method") (json_string (method e)) in
  let params_array :=
    foldl (λ params_array name, json_array_append_new params_array (json_string name))
      (JArray []) (take (Z.to_nat (param_count e)) (params e)) in
  json_object_set_new obj (lit "parameters") (Some params_array).

(** The text the loop at lines 368-386 writes from index [i] on. *)
Fixpoint write_records (i : Z) (endpoints : list Endpoint) : cstring :=
  match endpoints with
  | [] => []
  | e :: rest =>
      match json_dumps (endpoint_json e) (Z.lor (JSON_INDENT 2) JSON_ENSURE_ASCII) with
      | Some json_str =>
          (if decide (i > 0)%Z then line (lit ",") else []) ++ json_str
      | None => []
      end ++ write_records (i + 1) rest
  end.

Definition report_text (endpoints : list Endpoint) (endpoint_count : Z) : cstring :=
  line (lit "[") ++ write_records 0 (take (Z.to_nat endpoint_count) endpoints) ++
  [LF] ++ line (lit "]").

(** *** [process_domain] *)

Definition full_domain_of (domain : cstring) : cstring :=
  if non_null (strstr domain (lit "://"))
  then string_at
         (safe_strcpy (replicate (Z.to_nat (MAX_DOMAIN_LEN + 8)) NUL) domain
            (MAX_DOMAIN_LEN + 8)) 0
  else take (Z.to_nat (MAX_DOMAIN_LEN + 8) - 1) (lit "http://" ++ domain).

(** Lines 217-362: the endpoints of the domain, sorted, and their number. *)
Definition collect_report (fuel : nat) (domain : cstring) (limit verbose sort_desc : Z)
  : M (list Endpoint * Z) :=
  st <- fetch_loop fuel domain (full_domain_of domain) limit verbose 0 None
          (mkLocals (mkURLSet [] 0 0) [] 0 0) ;
  ret (sort_endpoints sort_desc (endpoints st) (endpoint_count st), endpoint_count st).

Definition process_domain (fuel : nat) (domain : option cstring) (output_file : cstring)
    (limit timeout verbose sort_desc : Z) : M Z :=
  match domain with
  | Some domain =>
      if bool_decide (char_at domain 0 = NUL) ||
         bool_decide (Z.of_nat (length domain) > MAX_DOMAIN_LEN)%Z
      then _ <- emit (Stderr (line (lit "Invalid domain: empty or too long"))) ; ret 1%Z
      else if negb curl_init_ok
      then _ <- emit (Stderr (line (lit "curl_easy_init() failed"))) ; ret 1%Z
      else
        report <- collect_report fuel domain limit verbose sort_desc ;
        if negb fopen_ok then _ <- emit (Perror (lit "fopen")) ; exit 1
        else
          _ <- emit (Written output_file (report_text report.1 report.2)) ;
          _ <- (if decide (verbose = 0%Z)
                then emit (Stdout ([LF] ++ lit "Recon complete for " ++ domain ++
                                   lit ". JSON output saved to " ++ line output_file))
                else ret tt) ;
          ret 0%Z
  | None => _ <- emit (Stderr (line (lit "Invalid domain: empty or too long"))) ; ret 1%Z
  end.

(** *** A sequence of calls to [add_url] *)

Fixpoint observe_all (set : URLSet) (l : list (option cstring)) : M (list Z * URLSet) :=
  match l with
  | [] => ret ([], set)
  | u :: l' =>
      r <- add_url set u ;
      rs <- observe_all r.2 l' ;
      ret (r.1 :: rs.1, rs.2)
  end.

(** *** Statements about runs *)

(** Every allocation request succeeds. *)
Definition no_oom : Prop := ∀ n, heap n = true.

(** [m] returns [a] from [p], having added the events [evs]. *)
Definition returns {A} (m : M A) (p : proc) (a : A) (evs : list event) : Prop :=
  ∃ k, m p = Ret a (mkProc (heap_calls p + k) (events p ++ evs)).

(** [m] returns [a] from [p] with the events [evs], unless an allocation
    fails, and then the process exits with status 1. *)
Definition runs {A} (m : M A) (p : proc) (a : A) (evs : list event) : Prop :=
  returns m p a evs ∨ ∃ n p', heap n = false ∧ m p = Exit 1%Z p'.

(** What holds when [m] returns ([Q]) and when it exits ([E]). *)
Definition wp {A} (m : M A) (p : proc) (Q : A → proc → Prop) (E : proc → Prop) : Prop :=
  match m p with
  | Ret a p' => Q a p'
  | Exit _ p' => E p'
  | Undefined | OutOfFuel => True
  end.

(** The requests sent to the archive, in order. *)
Definition queries (evs : list event) : list cstring :=
  omap (λ e, match e with Query request => Some request | _ => None end) evs.

(** *** Reading the tokenizer

    [at_string buf p s]: the string [s] sits at offset [p] of the array,
    followed by its terminator.  [next_token] is what one call of
    [safe_strtok] does to the text it is given: the token it cuts off and
    the text left for the next call. *)

Definition at_string (buf : list ascii) (p : nat) (s : cstring) : Prop :=
  cstr s ∧ ∃ pre post, buf = pre ++ s ++ NUL :: post ∧ length pre = p.

Definition next_token (delim rest : cstring) : option (cstring * cstring) :=
  let rest1 := drop (strspn rest delim) rest in
  match rest1 with
  | [] => None
  | _ :: _ =>
      Some (take (strcspn rest1 delim) rest1,
            drop 1 (drop (strcspn rest1 delim) rest1))
  end.

Definition name_of_token (tok : cstring) : list cstring :=
  if nonempty (before_first "="%char tok) then [before_first "="%char tok] else [].

(** *** Pages as the specification describes them *)

(** The URL and mimetype of a well-formed row: an array of at least four
    cells whose first cell is a string. *)
Definition row_fields (row : json_t) : option (cstring * option cstring) :=
  match row with
  | JArray (JString original :: _ :: _ :: cell3 :: _) =>
      Some (original, match cell3 with JString m => Some m | _ => None end)
  | _ => None
  end.

Definition malformed_row (row : json_t) : Prop :=
  match row with
  | JArray cells => length cells < 4 ∨ ∀ s, cells !! 0 ≠ Some (JString s)
  | _ => True
  end.

(** The rows a page yields, its header skipped. *)
Definition page_rows (root : json_t) : list (cstring * option cstring) :=
  match root with
  | JArray (_ :: rows) => omap row_fields rows
  | _ => []
  end.

(** The last cell of the last row of a page. *)
Definition trailing_cell (root : json_t) : option json_t :=
  match root with
  | JArray rows =>
      match last rows with
      | Some (JArray cells) => last cells
      | _ => None
      end
  | _ => None
  end.

(** The trailing cell is absent, not a string, empty, or ["null"]. *)
Definition no_continuation (root : json_t) : Prop :=
  match trailing_cell root with
  | Some (JString s) => s = [] ∨ s = lit "null"
  | _ => True
  end.

(** A response that carries no row: an error, an empty body, or a
    document that is not an array of at least two elements. *)
Definition barren (r : response) : Prop :=
  match r with
  | Document root =>
      negb (json_is_array (Some root)) || bool_decide (json_array_size (Some root) < 2)
      = true
  | _ => True
  end.

(** The trailing cell is the token [key]. *)
Definition continuation (root : json_t) (key : cstring) : Prop :=
  trailing_cell root = Some (JString key) ∧ key ≠ [] ∧ key ≠ lit "null".

(** The endpoint record of a URL seen with a mimetype. *)
Definition endpoint_of (original : cstring) (mimetype : option cstring) : Endpoint :=
  mkEndpoint original (infer_method (Some original) mimetype)
    (parameters_spec original) (Z.of_nat (length (parameters_spec original))).

(** The progress line of a new endpoint. *)
Definition progress_of (original : cstring) (mimetype : option cstring) : event :=
  Stdout (progress_line original (infer_method (Some original) mimetype)
            (parameters_spec original) (Z.of_nat (length (parameters_spec original)))).

(** The set after a new string was appended, and the locals after a new
    endpoint was. *)
Definition added (set : URLSet) (u : cstring) : URLSet :=
  mkURLSet (urls set ++ [u]) (count set + 1)
    (if decide (count set = capacity set)
     then max (capacity set * 2) INITIAL_CAPACITY else capacity set).

Definition recorded (st : locals) (original : cstring) (mimetype : option cstring)
  : locals :=
  mkLocals (added (seen st) original)
    (endpoints st ++ [endpoint_of original mimetype])
    (endpoint_count st + 1)
    (if decide (endpoint_count st = endpoint_capacity st)
     then max (endpoint_capacity st * 2) INITIAL_CAPACITY else endpoint_capacity st).

(** What the loops of [process_domain] maintain. *)
Definition locals_inv (st : locals) : Prop :=
  URLSet_wf (seen st) ∧
  endpoint_count st = Z.of_nat (length (endpoints st)) ∧
  url <$> endpoints st = urls (seen st) ∧
  NoDup (urls (seen st)).


(** [m] sends no request to the archive, whether it returns or exits. *)
Definition quiet {A} (m : M A) : Prop :=
  ∀ p, wp m p (λ _ p', queries (events p') = queries (events p))
              (λ p', queries (events p') = queries (events p)).

(** The rows of a page, offered one after the other. *)
Fixpoint observe_rows (st : locals) (rows : list (cstring * option cstring)) : M locals :=
  match rows with
  | [] => ret st
  | (original, mimetype) :: rows' =>
      st' <- observe_url st original mimetype ; observe_rows st' rows'
  end.

(** [m] does not run out of fuel. *)
Definition terminates {A} (m : M A) : Prop := ∀ p, m p ≠ OutOfFuel.

(** Proofs about the pure part start by setting the environment aside. *)
Ltac unused :=
  try clear fopen_ok; try clear curl_init_ok; try clear qsort; try clear json_dumps;
  try clear cdx; try clear query_uninit; try clear heap; try clear indeterminate.

(** ** The rest of the program

    What follows models the functions around the page loop: the callback
    that gathers a response body, the option loop and the pipe mode of
    [main], and the help text.  Then come the notions in which the
    statements about whole runs are written. *)

(** *** [WriteMemoryCallback] *)

Record MemoryChunk : Type := mkMemoryChunk {
  data : option (list ascii);
  size : Z
}.

(** Arithmetic in [size_t] (64 bits). *)
Definition size_t (z : Z) : Z := z `mod` 2 ^ 64.

(** [realloc(block, n)] once the request has succeeded: [n] bytes, the
    first of them as [block] had them. *)
Definition realloc (block : option (list ascii)) (n : Z) : list ascii :=
  let old := default [] block in
  take (Z.to_nat n) (old ++ indeterminate old ++ replicate (Z.to_nat n) NUL).

(** [memcpy(dest + at, src, n)] *)
Fixpoint memcpy (dest : list ascii) (at_ : nat) (src : list ascii) (n : nat)
  : list ascii :=
  match n, src with
  | S n', c :: src' => memcpy (<[at_ := c]> dest) (S at_) src' n'
  | _, _ => dest
  end.

(** The callback returns the number of bytes it took and leaves the chunk
    in its second component. *)
Definition WriteMemoryCallback (contents : list ascii) (size nmemb : Z)
    (mem : MemoryChunk) : M (Z * MemoryChunk) :=
  let '(mkMemoryChunk mem_data mem_size) := mem in
  let realsize := size_t (size * nmemb) in
  ok <- heap_request ;
  if negb ok then
    _ <- emit (Stderr (line (lit "realloc() failed"))) ;
    ret (0%Z, mem)
  else
    let ptr := realloc mem_data (size_t (mem_size + realsize + 1)) in
    let ptr := memcpy ptr (Z.to_nat mem_size) contents (Z.to_nat realsize) in
    let mem_size := size_t (mem_size + realsize) in
    let ptr := <[Z.to_nat mem_size := NUL]> ptr in
    ret (realsize, mkMemoryChunk (Some ptr) mem_size).

(** The calls [curl_easy_perform] makes for one body, piece by piece,
    each with [size] 1. *)
Fixpoint deliver (mem : MemoryChunk) (pieces : list (list ascii))
  : M (list Z * MemoryChunk) :=
  match pieces with
  | [] => ret ([], mem)
  | piece :: pieces' =>
      r <- WriteMemoryCallback piece 1 (Z.of_nat (length piece)) mem ;
      rs <- deliver r.2 pieces' ;
      ret (r.1 :: rs.1, rs.2)
  end.

(** The chunk holds the body [body], terminated. *)
Definition holds (mem : MemoryChunk) (body : list ascii) : Prop :=
  size mem = Z.of_nat (length body) ∧
  (data mem = Some (body ++ [NUL]) ∨ (data mem = None ∧ body = [])).

(** *** [print_help] *)

Definition DQUOTE : ascii := ascii_of_nat 34.
Definition CR : ascii := ascii_of_nat 13.

Definition quoted (s : string) : cstring := [DQUOTE] ++ lit s ++ [DQUOTE].

Definition help_text (prog_name : cstring) : cstring :=
  line (lit "Usage: " ++ prog_name ++ lit " [OPTIONS] [domain]") ++
  line (lit "       cat domains.txt | " ++ prog_name ++ lit " [OPTIONS]") ++
  [LF] ++
  line (lit "Recon tool that queries the Internet Archive CDX Server and outputs") ++
  line (lit "endpoints in **JSON format** (machine-readable).") ++
  [LF] ++
  line (lit "Input:") ++
  line (lit "  domain                Target domain (e.g., example.com)") ++
  line (lit "  -                     Read domains from stdin (pipe)") ++
  [LF] ++
  line (lit "Options:") ++
  line (lit "  -h, --help            Show this help message and exit") ++
  line (lit "  -o, --output FILE     Output JSON file (default: endpoints.json)") ++
  line (lit "  -l, --limit N         Max results per query (1150000, default: 100000)") ++
  line (lit "  -t, --timeout SEC     Curl timeout in seconds (default: 60)") ++
  line (lit "  -v, --verbose         Show query URLs") ++
  line (lit "  -s, --sort ORDER      Sort order: asc (default), desc") ++
  [LF] ++
  line (lit "Examples:") ++
  line (lit "  " ++ prog_name ++ lit " example.com") ++
  line (lit "  echo " ++ quoted "google.com" ++ lit " | " ++ prog_name) ++
  line (lit "  cat domains.txt | " ++ prog_name ++ lit " -o all.json") ++
  line (lit "  " ++ prog_name ++ lit " -s desc target.com") ++
  [LF] ++
  line (lit "Output (endpoints.json):") ++
  line (lit "  [") ++
  line (lit "    {" ++ quoted "url" ++ lit ": " ++ quoted "https://example.com/login" ++
        lit ", " ++ quoted "method" ++ lit ": " ++ quoted "POST" ++
        lit ", " ++ quoted "parameters" ++ lit ": [" ++ quoted "username" ++
        lit ", " ++ quoted "password" ++ lit "]},") ++
  line (lit "    ...") ++
  line (lit "  ]") ++
  [LF] ++
  line (lit "Source: https://archive.org/developers/wayback-cdx-server.html") ++
  line (lit "Version: 1.9.12 (C23)").

Definition print_help (prog_name : cstring) : M unit :=
  emit (Stdout (help_text prog_name)).

(** *** libc: [atol], [fgets] *)

Definition LONG_MAX : Z := 9223372036854775807.

Definition isspace (c : ascii) : bool :=
  bool_decide (c ∈ [" "%char; ascii_of_nat 9; LF; ascii_of_nat 11; ascii_of_nat 12; CR]).

Definition isdigit (c : ascii) : bool :=
  bool_decide (uchar "0"%char ≤ uchar c ≤ uchar "9"%char)%Z.

Fixpoint skip_spaces (s : cstring) : cstring :=
  match s with
  | c :: s' => if isspace c then skip_spaces s' else s
  | [] => []
  end.

Fixpoint atol_digits (acc : Z) (s : cstring) : Z :=
  match s with
  | c :: s' =>
      if isdigit c then atol_digits (10 * acc + (uchar c - uchar "0"%char)) s' else acc
  | [] => acc
  end.

(** [atol]: white space, an optional sign, the digits; a value that a
    [long] (64 bits) cannot hold is undefined. *)
Definition atol (s : cstring) : M Z :=
  let s := skip_spaces s in
  let v :=
    match s with
    | c :: s' =>
        if decide (c = "-"%char) then (- atol_digits 0 s')%Z
        else if decide (c = "+"%char) then atol_digits 0 s'
        else atol_digits 0 s
    | [] => 0%Z
    end in
  if decide (- LONG_MAX - 1 ≤ v ≤ LONG_MAX)%Z then ret v else undefined.

(** [fgets(line, size, stdin)]: the bytes read, at most [size - 1] and
    none after a newline, and the input left; null at the end of the
    input. *)
Fixpoint fgets_bytes (n : nat) (input : list ascii) : list ascii * list ascii :=
  match n, input with
  | S n', c :: rest =>
      if decide (c = LF) then ([c], rest)
      else let '(bytes, rest') := fgets_bytes n' rest in (c :: bytes, rest')
  | _, _ => ([], input)
  end.

Definition fgets (size : Z) (input : list ascii) : option (list ascii * list ascii) :=
  match input with
  | [] => None
  | _ :: _ => Some (fgets_bytes (Z.to_nat size - 1) input)
  end.

(** *** [main] *)

Definition MAX_LINE_LEN : Z := 4096.

(** The locals of [main] that the options set. *)
Record options : Type := mkOptions {
  output_file : cstring;
  limit : Z;
  timeout : Z;
  verbose : Z;
  sort_desc : Z;
  domain : option cstring
}.

Definition initial_options : options :=
  mkOptions (lit "endpoints.json") 100000 60 0 0 None.

(** [strcmp(arg, short) == 0 || strcmp(arg, long) == 0] *)
Definition is_option (arg : cstring) (short long : string) : bool :=
  bool_decide (strcmp arg (lit short) = 0%Z) || bool_decide (strcmp arg (lit long) = 0%Z).

(** The loop at lines 407-446 over [argv[1]], [argv[2]], ...: the options
    when the loop runs to its end, the status when [main] returns from
    inside it. *)
Fixpoint parse_args (prog_name : cstring) (args : list cstring) (o : options)
  : M (options + Z) :=
  match args with
  | [] => ret (inl o)
  | arg :: rest =>
      if is_option arg "-h" "--help" then
        _ <- print_help prog_name ; ret (inr 0%Z)
      else if is_option arg "-o" "--output" then
        match rest with
        | [] =>
            _ <- emit (Stderr (line (lit "Error: --output requires a filename"))) ;
            ret (inr 1%Z)
        | value :: rest' =>
            parse_args prog_name rest'
              (mkOptions value (limit o) (timeout o) (verbose o) (sort_desc o) (domain o))
        end
      else if is_option arg "-l" "--limit" then
        match rest with
        | [] =>
            _ <- emit (Stderr (line (lit "Error: --limit is required"))) ;
            ret (inr 1%Z)
        | value :: rest' =>
            limit' <- atol value ;
            if bool_decide (limit' ≤ 0)%Z || bool_decide (limit' > 150000)%Z then
              _ <- emit (Stderr (line (lit "Error: limit must be 1150000"))) ;
              ret (inr 1%Z)
            else
              parse_args prog_name rest'
                (mkOptions (output_file o) limit' (timeout o) (verbose o) (sort_desc o)
                   (domain o))
        end
      else if is_option arg "-t" "--timeout" then
        match rest with
        | [] =>
            _ <- emit (Stderr (line (lit "Error: --timeout requires seconds"))) ;
            ret (inr 1%Z)
        | value :: rest' =>
            timeout' <- atol value ;
            if bool_decide (timeout' ≤ 0)%Z then
              _ <- emit (Stderr (line (lit "Error: timeout must be > 0"))) ;
              ret (inr 1%Z)
            else
              parse_args prog_name rest'
                (mkOptions (output_file o) (limit o) timeout' (verbose o) (sort_desc o)
                   (domain o))
        end
      else if is_option arg "-v" "--verbose" then
        parse_args prog_name rest
          (mkOptions (output_file o) (limit o) (timeout o) 1 (sort_desc o) (domain o))
      else if is_option arg "-s" "--sort" then
        match rest with
        | [] =>
            _ <- emit (Stderr (line (lit "Error: --sort requires asc/desc"))) ;
            ret (inr 1%Z)
        | value :: rest' =>
            if bool_decide (strcmp value (lit "desc") = 0%Z) then
              parse_args prog_name rest'
                (mkOptions (output_file o) (limit o) (timeout o) (verbose o) 1 (domain o))
            else if bool_decide (strcmp value (lit "asc") = 0%Z) then
              parse_args prog_name rest'
                (mkOptions (output_file o) (limit o) (timeout o) (verbose o) 0 (domain o))
            else
              _ <- emit (Stderr (line (lit "Error: --sort must be asc or desc"))) ;
              ret (inr 1%Z)
        end
      else if decide (char_at arg 0 = "-"%char) then
        _ <- emit (Stderr (line (lit "Unknown option: " ++ arg))) ;
        _ <- print_help prog_name ;
        ret (inr 1%Z)
      else
        match domain o with
        | Some _ =>
            _ <- emit (Stderr (line (lit "Error: Only one domain allowed"))) ;
            ret (inr 1%Z)
        | None =>
            parse_args prog_name rest
              (mkOptions (output_file o) (limit o) (timeout o) (verbose o) (sort_desc o)
                 (Some arg))
        end
  end.

(** The loop at lines 450-465.  Each turn reads at least one byte, so
    [turns] can be the length of the input. *)
Fixpoint read_domains (turns fuel : nat) (o : options) (stdin : list ascii) : M Z :=
  match fgets MAX_LINE_LEN stdin with
  | None => ret 0%Z
  | Some (bytes, stdin') =>
      match turns with
      | 0 => out_of_fuel
      | S turns' =>
          let line_ := read_string bytes in
          let len := strcspn line_ [CR; LF] in
          if decide (len = 0) then read_domains turns' fuel o stdin'
          else
            let domain_buf :=
              string_at
                (safe_strncpy
                   (take (Z.to_nat MAX_LINE_LEN)
                      (indeterminate bytes ++ replicate (Z.to_nat MAX_LINE_LEN) NUL))
                   line_ (Z.of_nat len + 1)).1 0 in
            if bool_decide (length domain_buf = 0) ||
               bool_decide (Z.of_nat (length domain_buf) > MAX_DOMAIN_LEN)%Z
            then
              _ <- emit (Stderr (line (lit "Invalid domain: empty or too long"))) ;
              read_domains turns' fuel o stdin'
            else
              _ <- emit (Stdout ([LF] ++ lit "=== Processing: " ++ domain_buf ++
                                 line (lit " ==="))) ;
              status <- process_domain fuel (Some domain_buf) (output_file o) (limit o)
                          (timeout o) (verbose o) (sort_desc o) ;
              _ <- (if decide (status ≠ 0%Z)
                    then emit (Stderr (line (lit "Failed to process " ++ domain_buf)))
                    else ret tt) ;
              read_domains turns' fuel o stdin'
      end
  end.

(** [main], with [argv[0]] and the other arguments apart: [argc] is
    [S (length args)]. *)
Definition main (fuel : nat) (prog_name : cstring) (args : list cstring)
    (stdin : list ascii) : M Z :=
  r <- parse_args prog_name args initial_options ;
  match r with
  | inr status => ret status
  | inl o =>
      if match args with
         | [] => true
         | arg1 :: _ => bool_decide (strcmp arg1 (lit "-") = 0%Z)
         end
      then read_domains (length stdin) fuel o stdin
      else
        match domain o with
        | None =>
            _ <- emit (Stderr (line (lit "Error: Domain is required (or use pipe input)"))) ;
            _ <- print_help prog_name ;
            ret 1%Z
        | Some d =>
            if bool_decide (length d = 0) ||
               bool_decide (Z.of_nat (length d) > MAX_DOMAIN_LEN)%Z
            then
              _ <- emit (Stderr (line (lit "Invalid domain: empty or too long"))) ;
              ret 1%Z
            else
              process_domain fuel (Some d) (output_file o) (limit o) (timeout o)
                (verbose o) (sort_desc o)
        end
  end.

(** The settings that [main] lets through to [process_domain]. *)
Definition validated (o : options) : Prop :=
  (1 ≤ limit o ≤ 150000)%Z ∧ (1 ≤ timeout o ≤ LONG_MAX)%Z ∧
  (verbose o = 0%Z ∨ verbose o = 1%Z) ∧ (sort_desc o = 0%Z ∨ sort_desc o = 1%Z) ∧
  (∀ d, domain o = Some d → char_at d 0 ≠ "-"%char).

(** *** Statements about whole runs *)

(** Every event that [m] adds satisfies [P], whether [m] returns or
    exits. *)
Definition emits {A} (P : event → Prop) (m : M A) : Prop :=
  ∀ p, wp m p (λ _ p', ∃ evs, events p' = events p ++ evs ∧ Forall P evs)
              (λ p', ∃ evs, events p' = events p ++ evs ∧ Forall P evs).

(** What is neither a request nor a file. *)
Definition console (e : event) : Prop :=
  match e with Stdout _ | Stderr _ | Perror _ => True | _ => False end.


Definition is_write (e : event) : Prop :=
  match e with Written _ _ => True | _ => False end.

Definition is_query (e : event) : Prop :=
  match e with Query _ => True | _ => False end.

(** The files written, in order. *)
Definition writes (evs : list event) : list (cstring * cstring) :=
  omap (λ e, match e with Written path text => Some (path, text) | _ => None end) evs.

(** No string of the document holds a NUL: [json_loads] was not asked to
    allow them. *)
Fixpoint json_cstr (j : json_t) : Prop :=
  match j with
  | JString s => cstr s
  | JArray items =>
      (fix all (l : list json_t) : Prop :=
         match l with [] => True | x :: l' => json_cstr x ∧ all l' end) items
  | JObject members =>
      (fix all (l : list (cstring * json_t)) : Prop :=
         match l with [] => True | (k, v) :: l' => cstr k ∧ json_cstr v ∧ all l' end)
        members
  | _ => True
  end.

Definition documents_cstr : Prop :=
  ∀ page request root, cdx page request = Document root → json_cstr root.

(** The token a page carries, as the program reads it: the last cell of
    the last row, when it is a string other than the empty one and
    ["null"]. *)
Definition token_of (root : json_t) : option cstring :=
  match trailing_cell root with
  | Some (JString key) =>
      if decide (key ≠ [] ∧ key ≠ lit "null") then Some key else None
  | _ => None
  end.

(** The rows of the pages a run visits, in order: a page counts when it
    is an array of a header and at least one more row, and the next page
    is asked for with the token of the page before. *)
Fixpoint visited_rows (fuel : nat) (full_domain : cstring) (limit : Z) (page : nat)
    (resume_key : option cstring) : list (cstring * option cstring) :=
  match fuel with
  | 0 => []
  | S fuel' =>
      match cdx page (query_url full_domain limit resume_key) with
      | Document (JArray (header :: row :: rows) as root) =>
          omap row_fields (row :: rows) ++
          match token_of root with
          | Some key => visited_rows fuel' full_domain limit (S page) (Some key)
          | None => []
          end
      | _ => []
      end
  end.

(** The requests of that walk: the first one asks for a token, each later
    one carries the token of the page before. *)
Fixpoint visited_requests (fuel : nat) (full_domain : cstring) (limit : Z) (page : nat)
    (resume_key : option cstring) : list cstring :=
  match fuel with
  | 0 => []
  | S fuel' =>
      query_url full_domain limit resume_key ::
      match cdx page (query_url full_domain limit resume_key) with
      | Document (JArray (header :: row :: rows) as root) =>
          match token_of root with
          | Some key => visited_requests fuel' full_domain limit (S page) (Some key)
          | None => []
          end
      | _ => []
      end
  end.

(** The walk over the pages ends within [fuel] requests. *)
Fixpoint walk_ends (fuel : nat) (full_domain : cstring) (limit : Z) (page : nat)
    (resume_key : option cstring) : bool :=
  match fuel with
  | 0 => false
  | S fuel' =>
      match cdx page (query_url full_domain limit resume_key) with
      | Document (JArray (header :: row :: rows) as root) =>
          match token_of root with
          | Some key => walk_ends fuel' full_domain limit (S page) (Some key)
          | None => true
          end
      | _ => true
      end
  end.

(** The rows that bring a new URL: the empty URL never does, and a URL
    does once. *)
Fixpoint fresh_rows (seen : list cstring) (rows : list (cstring * option cstring))
  : list (cstring * option cstring) :=
  match rows with
  | [] => []
  | (original, mimetype) :: rows' =>
      if decide (original = [] ∨ original ∈ seen) then fresh_rows seen rows'
      else (original, mimetype) :: fresh_rows (seen ++ [original]) rows'
  end.

(** The counters stay within the capacities of their arrays. *)
Definition within_capacity (st : locals) : Prop :=
  (0 ≤ count (seen st) ≤ capacity (seen st))%Z ∧
  (0 ≤ endpoint_count st ≤ endpoint_capacity st)%Z.

(** The records joined as the writer joins them when none is skipped. *)
Fixpoint joined (texts : list cstring) : cstring :=
  match texts with
  | [] => []
  | [t] => t
  | t :: rest => t ++ line (lit ",") ++ joined rest
  end.

(** What [json_dumps] gives for the records it can format. *)
Definition dumped (endpoints : list Endpoint) : list cstring :=
  omap (λ e, json_dumps (endpoint_json e) (Z.lor (JSON_INDENT 2) JSON_ENSURE_ASCII))
    endpoints.

(** The records of a report as the file holds them.  When the first
    record is formatted the texts are joined; when it is not, every text
    that follows comes after a comma and a newline. *)
Definition records_text (endpoints : list Endpoint) : cstring :=
  match endpoints with
  | [] => []
  | e :: rest =>
      match json_dumps (endpoint_json e) (Z.lor (JSON_INDENT 2) JSON_ENSURE_ASCII) with
      | Some json_str => joined (json_str :: dumped rest)
      | None => concat ((λ t, line (lit ",") ++ t) <$> dumped rest)
      end
  end.

(** The object that stands for a record in the file: the URL when it is
    UTF-8, the method, and those of the names that are UTF-8, in the
    order of the record. *)
Definition record_object (e : Endpoint) : json_t :=
  JObject ((if utf8_check_string (url e) then [(lit "url", JString (url e))] else []) ++
           [(lit "method", JString (method e));
            (lit "parameters",
             JArray (JString <$> filter (λ name, utf8_check_string name = true)
                                   (take (Z.to_nat (param_count e)) (params e))))]).

(** One token cut from a text: the delimiters before it, the token, and
    what follows the delimiter that ends it. *)
Definition token_split (delim text lead tok rest : cstring) : Prop :=
  Forall (λ c, c ∈ delim) lead ∧ tok ≠ [] ∧ Forall (λ c, c ∉ delim) tok ∧
  (text = lead ++ tok ∧ rest = [] ∨
   ∃ d, d ∈ delim ∧ text = lead ++ tok ++ d :: rest).

(** What a run in pipe mode can add to the events: output on the
    console, a request made with the default limit, the default file. *)
Definition pipe_event (e : event) : Prop :=
  match e with
  | Written path _ => path = lit "endpoints.json"
  | Query request => ∃ d key, request = query_url (full_domain_of d) 100000 key
  | _ => True
  end.

(** Two responses that differ at most in the first row of an array. *)
Definition same_but_header (r r' : response) : Prop :=
  match r, r' with
  | Document (JArray (_ :: rows)), Document (JArray (_ :: rows')) => rows = rows'
  | _, _ => r = r'
  end.

(** The decimal texts of the [k] numbers from [z] on have at most [width]
    bytes: a check by evaluation. *)
Fixpoint decimal_within (k : nat) (z : Z) (width : nat) : bool :=
  match k with
  | 0 => true
  | S k' => bool_decide (length (decimal z) ≤ width) && decimal_within k' (z + 1) width
  end.
(** ** Facts about the libc model *)

Lemma is_prefix_spec p s : is_prefix p s = true ↔ ∃ post, s = p ++ post.
Proof.
  revert s. induction p as [|x p IH]; intros s; simpl.
  - split; eauto.
  - destruct s as [|y s].
    + split; [done | intros [post ?]; done].
    + rewrite andb_true_iff, bool_decide_eq_true, IH. split.
      * intros [-> [post ->]]. eauto.
      * intros [post [= -> ->]]. eauto.
Qed.

Lemma strstr_contains h n : non_null (strstr h n) = true ↔ contains h n.
Proof.
  induction h as [|c h IH]; simpl.
  - destruct (is_prefix n []) eqn:E; simpl.
    + apply is_prefix_spec in E as [post E]. split; [|done].
      intros _. exists [], post. done.
    + split; [done|]. intros (pre & post & E').
      destruct pre; simpl in E'; [|done].
      assert (is_prefix n [] = true) by (apply is_prefix_spec; eauto). congruence.
  - destruct (is_prefix n (c :: h)) eqn:E.
    + apply is_prefix_spec in E as [post E]. split; [|done].
      intros _. exists [], post. done.
    + destruct (strstr h n) as [k|] eqn:Ek; simpl in *.
      * split; [|done]. intros _.
        destruct (proj1 IH eq_refl) as (pre & post & ->). by exists (c :: pre), post.
      * split; [done|]. intros (pre & post & E').
        destruct pre as [|c' pre]; simpl in E'.
        -- assert (is_prefix n (c :: h) = true) by (apply is_prefix_spec; eauto).
           congruence.
        -- injection E' as -> ->.
           assert (contains (pre ++ n ++ post) n) as Hc by (by exists pre, post).
           apply IH in Hc. done.
Qed.

Lemma strstr_absent h n : non_null (strstr h n) = false ↔ ¬ contains h n.
Proof. unused. rewrite <-strstr_contains. destruct (non_null _); naive_solver. Qed.

Lemma signal_has_post url m :
  signal url m ↔
  non_null (strstr url (lit "login")) || non_null (strstr url (lit "submit")) ||
  non_null (strstr url (lit "upload")) || non_null (strstr url (lit "create")) ||
  non_null (strstr url (lit "update")) || non_null (strstr url (lit "delete")) ||
  non_null (strstr url (lit "api")) || non_null (strstr url (lit "json")) ||
  non_null (strstr url (lit "graphql")) ||
  non_null (strstr m (lit "json")) || non_null (strstr m (lit "xml")) ||
  non_null (strstr m (lit "form")) = true.
Proof. unused.
  rewrite !orb_true_iff, !strstr_contains. unfold signal, url_signals, mime_signals.
  split.
  - intros [(k & Hk & Hc) | (k & Hk & Hc)];
      rewrite !elem_of_cons, elem_of_nil in Hk;
      repeat (destruct Hk as [-> | Hk]; [tauto|]); done.
  - intros H.
    repeat match type of H with _ ∨ _ => destruct H as [H | H] end;
      first [ left; eexists; split; [|exact H]; rewrite !elem_of_cons; tauto
            | right; eexists; split; [|exact H]; rewrite !elem_of_cons; tauto ].
Qed.

Lemma put_signal_test url :
  put_signal url ↔
  non_null (strstr url (lit "update")) || non_null (strstr url (lit "patch")) = true.
Proof. by rewrite orb_true_iff, !strstr_contains. Qed.

Lemma delete_signal_test url :
  delete_signal url ↔
  non_null (strstr url (lit "delete")) || non_null (strstr url (lit "remove")) = true.
Proof. by rewrite orb_true_iff, !strstr_contains. Qed.

(** C1.  Method inference is a function of the URL and the optional
    mimetype only.  With no signal keyword in the URL ([login], [submit],
    [upload], [create], [update], [delete], [api], [json], [graphql]) and
    none in the mimetype ([json], [xml], [form]) the result is GET;
    otherwise it is PUT when the URL contains [update] or [patch], else
    DELETE when it contains [delete] or [remove], else POST.  Containment
    is case-sensitive, and PUT wins over DELETE. *)
Theorem infer_method_spec (url : cstring) (mimetype : option cstring) :
  let m := default [] mimetype in
  (¬ signal url m → infer_method (Some url) mimetype = lit "GET") ∧
  (signal url m → put_signal url → infer_method (Some url) mimetype = lit "PUT") ∧
  (signal url m → ¬ put_signal url → delete_signal url →
     infer_method (Some url) mimetype = lit "DELETE") ∧
  (signal url m → ¬ put_signal url → ¬ delete_signal url →
     infer_method (Some url) mimetype = lit "POST") ∧
  infer_method (Some (lit "https://x.com/update/delete")) mimetype = lit "PUT" ∧
  infer_method (Some (lit "https://x.com/LOGIN/Update")) (Some (lit "text/HTML; JSON"))
    = lit "GET".
Proof.
  intros m.
  assert (m = match mimetype with Some m => m | None => lit "" end) as Hm
    by (by destruct mimetype).
  pose proof (signal_has_post url m) as Hs.
  pose proof (put_signal_test url) as Hp.
  pose proof (delete_signal_test url) as Hd.
  unfold infer_method. rewrite <-Hm.
  repeat split.
  - intros Hn. destruct (_ || _ || _ || _ || _ || _ || _ || _ || _ || _ || _ || _);
      [destruct Hn; by apply Hs | done].
  - intros H1 H2. apply Hs in H1. apply Hp in H2. by rewrite H1, H2.
  - intros H1 H2 H3. apply Hs in H1. apply Hd in H3. rewrite H1, H3.
    destruct (non_null (strstr url (lit "update")) || _) eqn:E; [|done].
    destruct H2. by apply Hp.
  - intros H1 H2 H3. apply Hs in H1. rewrite H1.
    destruct (non_null (strstr url (lit "update")) || _) eqn:E;
      [destruct H2; by apply Hp|].
    destruct (non_null (strstr url (lit "delete")) || _) eqn:E';
      [destruct H3; by apply Hd | done].
Qed.

(** C9.  [infer_method] is total and returns one of the four method
    names; a null URL gives GET and a null mimetype is read as the empty
    string. *)
Theorem infer_method_total (url mimetype : option cstring) :
  infer_method url mimetype ∈ [lit "GET"; lit "POST"; lit "PUT"; lit "DELETE"] ∧
  infer_method None mimetype = lit "GET" ∧
  infer_method url None = infer_method url (Some (lit "")).
Proof. unused.
  split; [|done].
  rewrite !elem_of_cons.
  unfold infer_method. destruct url as [url|]; [|tauto].
  repeat match goal with |- context [if ?b then _ else _] => destruct b end;
    tauto.
Qed.

(** ** [strcmp] as an order *)

Lemma uchar_nonneg c : (0 ≤ uchar c)%Z.
Proof. unfold uchar. lia. Qed.

Ltac uchar_facts :=
  repeat match goal with
         | c : ascii |- _ =>
             lazymatch goal with
             | _ : (0 ≤ uchar c)%Z |- _ => fail
             | _ => pose proof (uchar_nonneg c)
             end
         end.

Lemma uchar_inj x y : uchar x = uchar y → x = y.
Proof.
  unfold uchar. intros H. apply N2Z.inj in H.
  rewrite <-(ascii_N_embedding x), <-(ascii_N_embedding y). by rewrite H.
Qed.

Lemma uchar_NUL c : uchar c = 0%Z → c = NUL.
Proof. intros E. apply uchar_inj. exact E. Qed.

Lemma cstr_nil : cstr [].
Proof. unfold cstr. apply not_elem_of_nil. Qed.

Lemma cstr_cons x s : cstr (x :: s) ↔ x ≠ NUL ∧ cstr s.
Proof. unfold cstr. rewrite not_elem_of_cons. split; intros [? ?]; split; congruence. Qed.

Lemma cstr_app s t : cstr (s ++ t) ↔ cstr s ∧ cstr t.
Proof. unused. unfold cstr. rewrite elem_of_app. tauto. Qed.

Lemma strcmp_refl a : strcmp a a = 0%Z.
Proof. induction a as [|x a IH]; simpl; [done|]. by repeat case_decide. Qed.

Lemma strcmp_eq a b : cstr a → cstr b → strcmp a b = 0%Z → a = b.
Proof.
  revert b. induction a as [|x a IH]; intros [|y b] Ha Hb; simpl; try done.
  - apply cstr_cons in Hb as [Hy _]. intros H. destruct Hy. apply uchar_NUL. lia.
  - apply cstr_cons in Ha as [Hx _]. intros H. destruct Hx. apply uchar_NUL. lia.
  - apply cstr_cons in Ha as [Hx Ha]. apply cstr_cons in Hb as [Hy Hb].
    repeat case_decide; subst; try done.
    + intros E. f_equal. by apply IH.
    + intros E. assert (x = y) by (apply uchar_inj; lia). done.
Qed.

Lemma strcmp_antisym a b : strcmp b a = (- strcmp a b)%Z.
Proof.
  revert b. induction a as [|x a IH]; intros [|y b]; simpl; try lia.
  repeat case_decide; subst; try done; lia.
Qed.

Lemma strcmp_le_trans a b c :
  (strcmp a b ≤ 0 → strcmp b c ≤ 0 → strcmp a c ≤ 0)%Z.
Proof.
  revert b c. induction a as [|x a IH]; intros [|y b] [|z c]; simpl;
    uchar_facts; try lia.
  - intros H1 _. assert (x = NUL) as -> by (apply uchar_NUL; lia).
    repeat case_decide; subst; try done; lia.
  - repeat case_decide; subst; try done; try lia.
  - repeat case_decide; subst; try done; try lia; try apply IH.
    intros ? ?. exfalso.
    match goal with H : ?u ≠ ?v |- _ => apply H, uchar_inj; lia end.
Qed.

(** Lexicographic order on byte strings, a proper prefix coming first. *)
Inductive lex_le : cstring → cstring → Prop :=
| lex_le_nil b : lex_le [] b
| lex_le_lt x y a b : (uchar x < uchar y)%Z → lex_le (x :: a) (y :: b)
| lex_le_eq x a b : lex_le a b → lex_le (x :: a) (x :: b).

Lemma strcmp_lex a b : cstr a → cstr b → (strcmp a b ≤ 0)%Z ↔ lex_le a b.
Proof.
  revert b. induction a as [|x a IH]; intros [|y b] Ha Hb; simpl.
  - split; [constructor | done].
  - uchar_facts. split; [constructor | lia].
  - apply cstr_cons in Ha as [Hx _]. split.
    + intros E. destruct Hx. apply uchar_NUL. uchar_facts. lia.
    + inversion 1.
  - apply cstr_cons in Ha as [Hx Ha]. apply cstr_cons in Hb as [Hy Hb].
    repeat case_decide; subst; try done.
    + rewrite IH by done. split; [by constructor|].
      inversion 1; subst; [lia | done].
    + split.
      * intros E. apply lex_le_lt.
        assert (uchar x ≠ uchar y) by (intros ?%uchar_inj; done). lia.
      * inversion 1; subst; [lia | done].
Qed.

(** ** Reasoning about runs *)

Lemma proc_eta p : mkProc (heap_calls p + 0) (events p ++ []) = p.
Proof. destruct p; simpl. by rewrite Nat.add_0_r, app_nil_r. Qed.

Lemma runs_ret {A} (a : A) p : runs (ret a) p a [].
Proof. left. exists 0. unfold ret. by rewrite proc_eta. Qed.

Lemma runs_bind {A B} (m : M A) (f : A → M B) p a b e1 e2 :
  runs m p a e1 → (∀ p', runs (f a) p' b e2) → runs (x <- m ; f x) p b (e1 ++ e2).
Proof.
  intros [[k1 H1] | (n & p' & Hn & H1)] H2.
  - destruct (H2 (mkProc (heap_calls p + k1) (events p ++ e1)))
      as [[k2 H2'] | (n & p' & Hn & H2')].
    + left. exists (k1 + k2). unfold bind. rewrite H1, H2'. simpl.
      by rewrite Nat.add_assoc, <-app_assoc.
    + right. exists n, p'. split; [done|]. unfold bind. by rewrite H1.
  - right. exists n, p'. split; [done|]. unfold bind. by rewrite H1.
Qed.

Lemma runs_bind_nil {A B} (m : M A) (f : A → M B) p a b e2 :
  runs m p a [] → (∀ p', runs (f a) p' b e2) → runs (x <- m ; f x) p b e2.
Proof. intros. by apply (runs_bind m f p a b [] e2). Qed.

Lemma runs_emit e p : runs (emit e) p tt [e].
Proof. left. exists 0. unfold emit. by rewrite Nat.add_0_r. Qed.

Lemma runs_checked_alloc what p : runs (checked_alloc what) p tt [].
Proof.
  unfold runs, returns, checked_alloc, bind, heap_request.
  destruct (heap (heap_calls p)) eqn:Hh.
  - left. exists 1. unfold ret. simpl. by rewrite Nat.add_1_r, app_nil_r.
  - right. eauto.
Qed.

Lemma runs_int_result z p :
  (- INT_MAX - 1 ≤ z ≤ INT_MAX)%Z → runs (int_result z) p z [].
Proof. intros Hz. unfold int_result. rewrite decide_True by done. apply runs_ret. Qed.

Lemma runs_returns {A} (m : M A) p a evs : no_oom → runs m p a evs → returns m p a evs.
Proof. intros Hh [H | (n & p' & Hn & _)]; [done|]. rewrite Hh in Hn. done. Qed.

Lemma returns_det {A} (m : M A) p a a' e e' :
  returns m p a e → returns m p a' e' → a = a' ∧ e = e'.
Proof.
  intros [k H] [k' H']. rewrite H in H'. injection H' as -> _ He.
  split; [done|]. by apply app_inv_head in He.
Qed.

Lemma wp_ret {A} (a : A) p (Q : A → proc → Prop) E : Q a p → wp (ret a) p Q E.
Proof. done. Qed.

Lemma wp_bind {A B} (m : M A) (f : A → M B) p Q E :
  wp m p (λ a p', wp (f a) p' Q E) E → wp (x <- m ; f x) p Q E.
Proof. unfold wp, bind. by destruct (m p). Qed.

Lemma wp_mono {A} (m : M A) p (Q Q' : A → proc → Prop) (E E' : proc → Prop) :
  wp m p Q E → (∀ a p', Q a p' → Q' a p') → (∀ p', E p' → E' p') → wp m p Q' E'.
Proof. unfold wp. destruct (m p); auto. Qed.

Lemma wp_emit e p (Q : unit → proc → Prop) E :
  Q tt (mkProc (heap_calls p) (events p ++ [e])) → wp (emit e) p Q E.
Proof. done. Qed.

Lemma wp_checked_alloc what p (Q : unit → proc → Prop) (E : proc → Prop) :
  Q tt (mkProc (S (heap_calls p)) (events p)) →
  E (mkProc (S (heap_calls p)) (events p ++ [Perror what])) →
  wp (checked_alloc what) p Q E.
Proof.
  intros HQ HE. unfold wp, checked_alloc, bind, heap_request.
  by destruct (heap (heap_calls p)).
Qed.

Lemma wp_int_result z p (Q : Z → proc → Prop) E : Q z p → wp (int_result z) p Q E.
Proof. intros HQ. unfold wp, int_result. by case_decide. Qed.

(** ** [add_url] *)

Lemma add_url_null set p : add_url set None p = Ret (0%Z, set) p.
Proof. done. Qed.

Lemma add_url_empty set p : add_url set (Some []) p = Ret (0%Z, set) p.
Proof. done. Qed.

Lemma scan_seen (l : list cstring) u :
  u ∈ l → existsb (λ v, bool_decide (strcmp v u = 0%Z)) l = true.
Proof.
  intros Hu. apply existsb_exists. exists u. split; [by apply list_elem_of_In|].
  apply bool_decide_eq_true, strcmp_refl.
Qed.

Lemma scan_fresh (l : list cstring) u :
  cstr u → Forall cstr l → u ∉ l →
  existsb (λ v, bool_decide (strcmp v u = 0%Z)) l = false.
Proof.
  intros Hu Hl Hn. apply not_true_is_false. intros H.
  apply existsb_exists in H as (v & Hv & E). apply list_elem_of_In in Hv.
  apply bool_decide_eq_true in E. rewrite Forall_forall in Hl.
  apply strcmp_eq in E; [|by apply Hl|done]. by subst.
Qed.

Lemma scan_found (l : list cstring) u :
  existsb (λ v, bool_decide (strcmp v u = 0%Z)) l = false → u ∉ l.
Proof.
  intros H Hu. by rewrite scan_seen in H.
Qed.

Lemma take_wf set : URLSet_wf set → take (Z.to_nat (count set)) (urls set) = urls set.
Proof. intros H. apply take_ge. rewrite H. lia. Qed.

Lemma add_url_seen set u p :
  URLSet_wf set → u ∈ urls set → add_url set (Some u) p = Ret (0%Z, set) p.
Proof.
  intros Hwf Hu. unfold add_url. case_decide; [done|].
  by rewrite take_wf, scan_seen.
Qed.

Lemma max_spec a b : max a b = Z.max a b.
Proof. unfold max. destruct (Z.gtb_spec a b); lia. Qed.

Lemma added_wf set u : URLSet_wf set → URLSet_wf (added set u).
Proof. unfold URLSet_wf. simpl. rewrite length_app. simpl. lia. Qed.

Lemma add_url_fresh set u p :
  URLSet_wf set → (2 * count set ≤ INT_MAX)%Z →
  cstr u → Forall cstr (urls set) → u ≠ [] → u ∉ urls set →
  runs (add_url set (Some u)) p (1%Z, added set u) [].
Proof.
  intros Hwf Hc Hu Hl Hne Hfresh. unfold add_url, added.
  assert (char_at u 0 ≠ NUL) as H0.
  { destruct u as [|c u]; [done|]. apply cstr_cons in Hu as [? _]. done. }
  rewrite decide_False by done. rewrite take_wf, scan_fresh by done.
  assert (0 ≤ count set)%Z by (rewrite Hwf; lia).
  assert (array_store (urls set) (count set) u = urls set ++ [u]) as Hst.
  { unfold array_store. by rewrite take_wf. }
  case_decide as Hcap.
  - eapply runs_bind_nil.
    { eapply runs_bind_nil; [apply runs_int_result; simpl; unfold INT_MAX in *; lia|].
      intros p1. eapply runs_bind_nil; [apply runs_checked_alloc|].
      intros p2. apply runs_ret. }
    intros p1. eapply runs_bind_nil; [apply runs_checked_alloc|].
    intros p2. eapply runs_bind_nil; [apply runs_int_result; simpl; unfold INT_MAX in *; lia|].
    intros p3. simpl. rewrite Hst. apply runs_ret.
  - eapply runs_bind_nil; [apply runs_ret|].
    intros p1. eapply runs_bind_nil; [apply runs_checked_alloc|].
    intros p2. eapply runs_bind_nil; [apply runs_int_result; simpl; unfold INT_MAX in *; lia|].
    intros p3. rewrite Hst. apply runs_ret.
Qed.

(** Whatever the heap does, a call that returns has either left the set
    alone and answered 0, or appended a string that was not there and
    answered 1; it prints nothing. *)
Lemma add_url_returns set url p r p' :
  URLSet_wf set → add_url set url p = Ret r p' →
  events p' = events p ∧
  ((r.1 = 0%Z ∧ r.2 = set) ∨
   (r.1 = 1%Z ∧ ∃ u, url = Some u ∧ (u ∉ urls set) ∧ urls r.2 = urls set ++ [u] ∧
                      URLSet_wf r.2)).
Proof.
  intros Hwf. unfold add_url. destruct url as [u|]; [|intros [= <- <-]; auto].
  case_decide; [intros [= <- <-]; auto|].
  rewrite take_wf by done.
  destruct (existsb _ _) eqn:Hscan; [intros [= <- <-]; auto|].
  apply scan_found in Hscan.
  unfold bind, checked_alloc, bind, heap_request, int_result, ret, emit, exit, undefined.
  repeat (case_decide || case_match || simplify_eq/=); try done.
  all: intros; simplify_eq/=; split; [done|right; split; [done|]];
    exists u; unfold array_store; rewrite take_wf by done;
    (split; [done|split; [done|split; [done|]]]);
    unfold URLSet_wf in *; simpl; rewrite length_app; simpl; lia.
Qed.

Lemma add_url_exits set url p status p' :
  add_url set url p = Exit status p' → queries (events p') = queries (events p).
Proof.
  unfold add_url. destruct url as [u|]; [|done].
  unfold bind, checked_alloc, bind, heap_request, int_result, ret, emit, exit, undefined.
  repeat (case_decide || case_match || simplify_eq/=); try done.
  all: intros; simplify_eq/=; unfold queries; rewrite ?omap_app; simpl;
    by rewrite ?app_nil_r.
Qed.

(** ** Character arrays *)

Lemma read_string_app s post : cstr s → read_string (s ++ NUL :: post) = s.
Proof.
  induction s as [|c s IH]; simpl; intros Hs.
  - done.
  - apply cstr_cons in Hs as [Hc Hs]. rewrite decide_False by done. by rewrite IH.
Qed.

Lemma string_at_spec buf p s : at_string buf p s → string_at buf p = s.
Proof.
  intros [Hs (pre & post & -> & <-)]. unfold string_at.
  rewrite drop_app_length. by apply read_string_app.
Qed.

Lemma deref_end buf p s : at_string buf p s → deref buf (p + length s) = NUL.
Proof.
  intros [Hs (pre & post & -> & <-)]. unfold deref.
  rewrite lookup_app_r by lia. rewrite lookup_app_r by lia.
  by replace (length pre + length s - length pre - length s) with 0 by lia.
Qed.

Lemma deref_inside buf p s i c :
  at_string buf p s → s !! i = Some c → deref buf (p + i) = c ∧ c ≠ NUL.
Proof.
  intros [Hs (pre & post & -> & <-)] Hi. unfold deref.
  pose proof (lookup_lt_Some _ _ _ Hi).
  rewrite lookup_app_r by lia. rewrite lookup_app_l by lia.
  replace (length pre + i - length pre) with i by lia. rewrite Hi. split; [done|].
  intros ->. apply Hs. by eapply list_elem_of_lookup_2.
Qed.

Lemma deref_start buf p s : at_string buf p s → deref buf p = NUL ↔ s = [].
Proof.
  intros H. destruct s as [|c s].
  - pose proof (deref_end _ _ _ H) as E. simpl in E. rewrite Nat.add_0_r in E. done.
  - destruct (deref_inside buf p (c :: s) 0 c H eq_refl) as [E Hc].
    rewrite Nat.add_0_r in E. rewrite E. done.
Qed.

Lemma at_string_length buf p s : at_string buf p s → p + length s < length buf.
Proof.
  intros [Hs (pre & post & -> & <-)]. rewrite !length_app. simpl. lia.
Qed.

Lemma at_string_drop buf p s k :
  at_string buf p s → k ≤ length s → at_string buf (p + k) (drop k s).
Proof.
  intros [Hs (pre & post & -> & <-)] Hk. split.
  - rewrite <-(take_drop k s) in Hs. by apply cstr_app in Hs as [_ ?].
  - exists (pre ++ take k s), post. split.
    + rewrite <-(take_drop k s) at 1. by rewrite <-!app_assoc.
    + rewrite length_app, length_take. lia.
Qed.

Lemma at_string_insert_before buf p s i x :
  at_string buf p s → i < p → at_string (<[i := x]> buf) p s.
Proof.
  intros [Hs (pre & post & -> & <-)] Hi. split; [done|].
  exists (<[i := x]> pre), post. split.
  - by rewrite insert_app_l.
  - by rewrite length_insert.
Qed.

Lemma at_string_cut buf p s k :
  at_string buf p s → k < length s →
  at_string (<[p + k := NUL]> buf) p (take k s) ∧
  at_string (<[p + k := NUL]> buf) (S (p + k)) (drop (S k) s).
Proof.
  intros [Hs (pre & post & -> & <-)] Hk.
  assert (cstr (take k s) ∧ cstr (drop (S k) s)) as [H1 H2].
  { rewrite <-(take_drop k s) in Hs. apply cstr_app in Hs as [? Hd]. split; [done|].
    rewrite <-(take_drop 1 (drop k s)) in Hd. apply cstr_app in Hd as [_ Hd].
    by rewrite drop_drop, Nat.add_1_r in Hd. }
  assert (<[length pre + k := NUL]> (pre ++ s ++ NUL :: post)
          = pre ++ take k s ++ NUL :: drop (S k) s ++ NUL :: post) as E.
  { rewrite insert_app_r. f_equal. rewrite insert_app_l by done.
    rewrite insert_take_drop by done. by rewrite <-app_assoc. }
  rewrite E. split; (split; [done|]).
  - by exists pre, (drop (S k) s ++ NUL :: post).
  - exists (pre ++ take k s ++ [NUL]), post. split.
    + by rewrite <-!app_assoc.
    + rewrite !length_app, length_take. simpl. lia.
Qed.

Lemma take_S_insert {A} (l : list A) i x :
  i < length l → take (S i) (<[i := x]> l) = take i l ++ [x].
Proof.
  intros Hi. rewrite insert_take_drop by done.
  rewrite cons_middle, (assoc_L (++)). apply take_app_length'.
  rewrite length_app, length_take. simpl. lia.
Qed.

Lemma copy_loop_spec dest src i bound :
  cstr src → i ≤ bound → bound < length dest →
  copy_loop dest src i bound =
    (take i dest ++ take (bound - i) src ++
       NUL :: drop (S (i + length (take (bound - i) src))) dest,
     i + length (take (bound - i) src)).
Proof.
  revert dest i. induction src as [|c src IH]; intros dest i Hs Hi Hb; simpl.
  - rewrite take_nil. simpl. rewrite Nat.add_0_r. by rewrite insert_take_drop by lia.
  - apply cstr_cons in Hs as [Hc Hs].
    destruct (decide (i < bound)) as [Hlt|Hge].
    + rewrite bool_decide_eq_true_2 by done. rewrite bool_decide_eq_true_2 by done.
      simpl. rewrite IH; [|done|lia|by rewrite length_insert].
      replace (bound - i) with (S (bound - S i)) by lia. simpl.
      rewrite Nat.add_succ_r. f_equal.
      rewrite take_S_insert by lia. rewrite drop_insert_lt by lia.
      by rewrite <-app_assoc.
    + rewrite bool_decide_eq_false_2 by done. simpl.
      replace (bound - i) with 0 by lia. simpl. rewrite Nat.add_0_r.
      by rewrite insert_take_drop by lia.
Qed.

Lemma safe_strncpy_spec dest src :
  cstr src → length dest = Z.to_nat MAX_PARAM_LEN →
  at_string (safe_strncpy dest src MAX_PARAM_LEN).1 0
    (take (Z.to_nat MAX_PARAM_LEN - 1) src) ∧
  length (safe_strncpy dest src MAX_PARAM_LEN).1 = Z.to_nat MAX_PARAM_LEN.
Proof.
  intros Hs Hd. unfold safe_strncpy.
  assert (size_pred MAX_PARAM_LEN = Z.to_nat MAX_PARAM_LEN - 1) as -> by done.
  assert (Z.to_nat MAX_PARAM_LEN = 512) as E by done. rewrite E in *.
  rewrite copy_loop_spec; [|done|lia|lia]. simpl fst.
  assert (cstr (take (512 - 1) src)) as Ht.
  { rewrite <-(take_drop (512 - 1) src) in Hs. by apply cstr_app in Hs as [? _]. }
  change (512 - 1) with 511 in *. split.
  - split; [done|]. by eexists [], _.
  - rewrite length_app. simpl. rewrite length_drop.
    pose proof (length_take_le src 511). rewrite length_take. lia.
Qed.

(** ** [strspn], [strcspn], [strchr] *)

Lemma strspn_le s d : strspn s d ≤ length s.
Proof. induction s as [|c s IH]; simpl; [done|]. case_bool_decide; simpl; lia. Qed.

Lemma strcspn_le s d : strcspn s d ≤ length s.
Proof. induction s as [|c s IH]; simpl; [done|]. case_bool_decide; simpl; lia. Qed.

Lemma strspn_head s d c r : drop (strspn s d) s = c :: r → c ∉ d.
Proof.
  induction s as [|x s IH]; simpl; [done|].
  case_bool_decide; simpl; [done|]. by intros [= -> ->].
Qed.

Lemma strcspn_drop s d c r : drop (strcspn s d) s = c :: r → c ∈ d.
Proof.
  induction s as [|x s IH]; simpl; [done|].
  case_bool_decide; simpl; [|done]. by intros [= -> ->].
Qed.

Lemma strcspn_pos s d c r : s = c :: r → c ∉ d → 0 < strcspn s d.
Proof. intros -> Hc. simpl. rewrite bool_decide_eq_false_2 by done. lia. Qed.

Lemma strchr_Some s c k :
  strchr s c = Some k → k < length s ∧ take k s = before_first c s.
Proof.
  revert k. induction s as [|x s IH]; intros k; simpl; [done|].
  case_decide.
  - intros [= <-]. split; [lia|done].
  - destruct (strchr s c) as [k'|] eqn:E; simpl; [|done].
    intros [= <-]. destruct (IH k' eq_refl) as [? E']. simpl.
    split; [lia | by rewrite E'].
Qed.

Lemma strchr_None s c : strchr s c = None → before_first c s = s.
Proof.
  induction s as [|x s IH]; simpl; [done|].
  case_decide; [done|]. destruct (strchr s c); simpl; [done|].
  intros _. by rewrite IH.
Qed.

Lemma strchr_after s c :
  match strchr s c with
  | Some k => after_first c s = Some (drop (S k) s)
  | None => after_first c s = None
  end.
Proof.
  induction s as [|x s IH]; simpl; [done|].
  case_decide; [done|]. by destruct (strchr s c).
Qed.

(** ** One call of [safe_strtok] *)

Lemma safe_strtok_spec buf str delim saveptr sp rest :
  match str with None => saveptr | Some _ => str end = Some sp →
  at_string buf sp rest →
  match next_token delim rest with
  | None => safe_strtok buf str delim saveptr = (None, buf, saveptr)
  | Some (tok, rest') =>
      ∃ buf' sp',
        safe_strtok buf str delim saveptr
          = (Some (sp + strspn rest delim), buf', Some sp') ∧
        at_string buf' (sp + strspn rest delim) tok ∧
        at_string buf' sp' rest' ∧
        sp + strspn rest delim + length tok ≤ sp' ∧
        tok ≠ [] ∧ length rest' < length rest ∧ length buf' = length buf
  end.
Proof.
  intros Hstr Hat. unfold safe_strtok, next_token. rewrite Hstr.
  pose proof (strspn_le rest delim) as Hspn.
  pose proof (at_string_drop _ _ _ _ Hat Hspn) as Hat1.
  rewrite (string_at_spec _ _ _ Hat).
  destruct (decide (deref buf sp = NUL)) as [E|E].
  { apply (deref_start _ _ _ Hat) in E. subst rest. done. }
  rewrite (string_at_spec _ _ _ Hat1).
  set (s := sp + strspn rest delim) in *.
  set (rest1 := drop (strspn rest delim) rest) in *.
  destruct (decide (deref buf s = NUL)) as [E1|E1].
  { apply (deref_start _ _ _ Hat1) in E1. by rewrite E1. }
  destruct rest1 as [|c r] eqn:Hr1.
  { destruct E1. by apply (deref_start _ _ _ Hat1). }
  rewrite <-Hr1 in *.
  assert (c ∉ delim) as Hc by (by eapply strspn_head).
  pose proof (strcspn_pos rest1 delim c r Hr1 Hc) as Hpos.
  pose proof (strcspn_le rest1 delim) as Hcspn.
  pose proof (at_string_drop _ _ _ _ Hat1 Hcspn) as Hat2.
  set (k := strcspn rest1 delim) in *.
  assert (length rest1 ≤ length rest) as Hlen1.
  { unfold rest1. rewrite length_drop. lia. }
  assert (take k rest1 ≠ []) as Htok.
  { rewrite Hr1. destruct k; [lia|done]. }
  destruct (decide (deref buf (s + k) ≠ NUL)) as [E2|E2].
  - assert (k < length rest1) as Hk.
    { destruct (decide (k < length rest1)); [done|].
      destruct E2. apply (deref_start _ _ _ Hat2). apply drop_ge. lia. }
    destruct (at_string_cut _ _ _ _ Hat1 Hk) as [Ha Hb].
    exists (<[s + k := NUL]> buf), (S (s + k)). split; [done|].
    split; [done|]. split.
    { by rewrite drop_drop, Nat.add_1_r. }
    rewrite length_take, length_drop, length_drop, length_insert.
    repeat split; try done; lia.
  - apply dec_stable in E2. apply (deref_start _ _ _ Hat2) in E2.
    exists buf, (s + k). split; [done|].
    assert (take k rest1 = rest1) as Ht.
    { apply take_ge. apply (f_equal length) in E2. rewrite length_drop in E2.
      simpl in E2. lia. }
    rewrite Ht, E2. simpl.
    split; [done|]. split; [by rewrite <-E2|].
    assert (0 < length rest1) by (rewrite Hr1; simpl; lia).
    assert (k = length rest1).
    { apply (f_equal length) in Ht. rewrite length_take in Ht. lia. }
    repeat split; try done; try lia. by rewrite <-Ht.
Qed.

(** ** The specification's splitting, one token at a time *)

Lemma split_on_cspn sep r :
  split_on sep r =
    take (strcspn r [sep]) r ::
    match drop (strcspn r [sep]) r with
    | [] => []
    | _ :: r' => split_on sep r'
    end.
Proof.
  induction r as [|x r IH]; simpl; [done|].
  destruct (decide (x = sep)) as [->|Hx].
  - rewrite bool_decide_eq_true_2 by (by apply list_elem_of_singleton). done.
  - rewrite bool_decide_eq_false_2 by (by rewrite list_elem_of_singleton).
    rewrite IH. done.
Qed.

Lemma tokens_next sep rest :
  filter (λ t, nonempty t = true) (split_on sep rest) =
    match next_token [sep] rest with
    | None => []
    | Some (tok, rest') => tok :: filter (λ t, nonempty t = true) (split_on sep rest')
    end.
Proof.
  induction rest as [|c r IH]; [done|].
  unfold next_token. simpl.
  destruct (decide (c = sep)) as [->|Hc].
  - rewrite bool_decide_eq_true_2 by (by apply list_elem_of_singleton). simpl.
    rewrite filter_cons_False by done. exact IH.
  - rewrite bool_decide_eq_false_2 by (by rewrite list_elem_of_singleton). simpl.
    rewrite bool_decide_eq_false_2 by (by rewrite list_elem_of_singleton). simpl.
    rewrite (split_on_cspn sep r). rewrite filter_cons_True by done. f_equal.
    destruct (drop (strcspn r [sep]) r) as [|x r']; [done|].
    simpl. by rewrite drop_0.
Qed.

Lemma names_of_query_next rest :
  names_of_query rest =
    match next_token (lit "&") rest with
    | None => []
    | Some (tok, rest') => name_of_token tok ++ names_of_query rest'
    end.
Proof.
  unfold names_of_query. change (lit "&") with ["&"%char].
  rewrite tokens_next. destruct (next_token _ rest) as [[tok rest']|]; [|done].
  rewrite fmap_cons. unfold name_of_token.
  destruct (nonempty (before_first "=" tok)) eqn:E.
  - by rewrite filter_cons_True.
  - rewrite filter_cons_False; [done|]. by rewrite E.
Qed.

(** ** The parameter loop computes the specification's list *)

Lemma params_loop_spec fuel buf s sp tok rest ps p :
  at_string buf s tok → at_string buf sp rest → s + length tok ≤ sp →
  tok ≠ [] → length rest < fuel →
  runs (params_loop fuel buf (Some sp) (Some s) ps (Z.of_nat (length ps))) p
    (ps ++ name_of_token tok ++ names_of_query rest,
     Z.of_nat (length (ps ++ name_of_token tok ++ names_of_query rest))) [].
Proof.
  revert buf s sp tok rest ps p.
  induction fuel as [|fuel IH]; intros buf s sp tok rest ps p Htok Hrest Hle Hne Hfuel;
    [lia|].
  simpl. rewrite (string_at_spec _ _ _ Htok).
  set (buf1 := match strchr tok "=" with
               | Some k => <[s + k := NUL]> buf
               | None => buf
               end).
  assert (at_string buf1 s (before_first "=" tok) ∧ at_string buf1 sp rest)
    as [Hname Hrest1].
  { unfold buf1. destruct (strchr tok "=") as [k|] eqn:Hk.
    - apply strchr_Some in Hk as [Hk <-]. split.
      + by apply at_string_cut.
      + apply at_string_insert_before; [done|lia].
    - apply strchr_None in Hk. by rewrite Hk. }
  clearbody buf1.
  rewrite (string_at_spec _ _ _ Hname).
  set (nm := before_first "=" tok) in *.
  set (step := if decide (deref buf1 s ≠ NUL) then _ else _).
  assert (∀ p', runs step p' (ps ++ name_of_token tok,
                               Z.of_nat (length (ps ++ name_of_token tok))) [])
    as Hstep.
  { intros p'. unfold step, name_of_token. fold nm.
    destruct (decide (deref buf1 s ≠ NUL)) as [E|E].
    - assert (nm ≠ []) as Hnm by (intros Hnm; apply E; by apply (deref_start _ _ _ Hname)).
      destruct nm as [|c nm'] eqn:Enm; [done|]. simpl nonempty. cbv iota.
      eapply runs_bind_nil; [apply runs_checked_alloc|]. intros p1.
      eapply runs_bind_nil; [apply runs_checked_alloc|]. intros p2.
      unfold array_store. rewrite Nat2Z.id, firstn_all.
      rewrite length_app. simpl. rewrite Nat.add_1_r, Nat2Z.inj_succ.
      replace (Z.succ (Z.of_nat (length ps))) with (Z.of_nat (length ps) + 1)%Z by lia.
      apply runs_ret.
    - apply dec_stable in E. apply (deref_start _ _ _ Hname) in E. rewrite E.
      simpl. rewrite app_nil_r. apply runs_ret. }
  clearbody step.
  eapply runs_bind_nil; [apply Hstep|]. intros p1. cbv beta. simpl fst. simpl snd.
  pose proof (safe_strtok_spec buf1 None (lit "&") (Some sp) sp rest eq_refl Hrest1) as Hnext.
  rewrite (names_of_query_next rest).
  change (lit "&") with ["&"%char] in *.
  destruct (next_token ["&"%char] rest) as [[tok' rest']|].
  - destruct Hnext as (buf' & sp' & -> & Ht' & Hr' & Hle' & Hne' & Hlen' & _).
    pose proof (IH buf' _ sp' tok' rest' (ps ++ name_of_token tok) p1
                  Ht' Hr' Hle' Hne' ltac:(lia)) as Hrec.
    rewrite <-!app_assoc in Hrec. exact Hrec.
  - rewrite Hnext. rewrite app_nil_r. destruct fuel; apply runs_ret.
Qed.

Lemma extract_params_spec query original p :
  cstr original → length query = Z.to_nat MAX_PARAM_LEN →
  runs (extract_params query original) p
    (parameters_spec original, Z.of_nat (length (parameters_spec original))) [].
Proof.
  intros Hs Hq. unfold extract_params, parameters_spec.
  pose proof (strchr_after original "?") as Ha.
  destruct (strchr original "?") as [qmark|]; rewrite Ha; [|apply runs_ret].
  assert (cstr (drop (S qmark) original)) as Hsrc.
  { rewrite <-(take_drop (S qmark) original) in Hs. by apply cstr_app in Hs as [_ ?]. }
  destruct (safe_strncpy_spec query _ Hsrc Hq) as [Hat Hlen].
  set (buf := (safe_strncpy query (drop (S qmark) original) MAX_PARAM_LEN).1) in *.
  set (rest := take (Z.to_nat MAX_PARAM_LEN - 1) (drop (S qmark) original)) in *.
  pose proof (safe_strtok_spec buf (Some 0) (lit "&") None 0 rest eq_refl Hat) as Hnext.
  rewrite (names_of_query_next rest).
  destruct (next_token (lit "&") rest) as [[tok rest']|].
  - destruct Hnext as (buf' & sp' & -> & Ht' & Hr' & Hle' & Hne' & Hlen' & _).
    apply (params_loop_spec _ buf' _ sp' tok rest' [] p); try done.
    assert (length rest ≤ 511) by (unfold rest; rewrite length_take; change (Z.to_nat MAX_PARAM_LEN - 1) with 511; lia).
    change (Z.to_nat MAX_PARAM_LEN) with 512. lia.
  - rewrite Hnext. apply runs_ret.
Qed.

(** ** Parameter extraction: the claims *)

Lemma after_first_None c s : c ∉ s → after_first c s = None.
Proof.
  induction s as [|x s IH]; simpl; [done|].
  rewrite not_elem_of_cons. intros [Hx Hs]. rewrite decide_False by done. auto.
Qed.

Lemma after_first_app c pre q : c ∉ pre → after_first c (pre ++ c :: q) = Some q.
Proof.
  induction pre as [|x pre IH]; simpl.
  - intros _. by rewrite decide_True.
  - rewrite not_elem_of_cons. intros [Hx Hs]. rewrite decide_False by done. auto.
Qed.

(** C4.  Parameter extraction returns no name when the URL has no [?];
    otherwise it takes the text after the first [?], cut to the working
    buffer, splits it on [&], and for each non-empty token keeps the text
    before the first [=] (the whole token when there is none), dropping
    empty names, in order and with repetitions.  The example URL gives
    [user], [pass], [user].  The result does not depend on what the buffer
    held before nor on the state of the process, so extracting again gives
    the same list. *)
Theorem extract_params_correct (query : list ascii) (original : cstring) (p : proc) :
  no_oom → cstr original → length query = Z.to_nat MAX_PARAM_LEN →
  returns (extract_params query original) p
    (parameters_spec original, Z.of_nat (length (parameters_spec original))) [] ∧
  ("?"%char ∉ original → parameters_spec original = []) ∧
  returns (extract_params query (lit "https://x.com/login?user=a&pass=b&user=c")) p
    ([lit "user"; lit "pass"; lit "user"], 3%Z) [] ∧
  (∀ query' p' r evs,
     length query' = Z.to_nat MAX_PARAM_LEN →
     returns (extract_params query' original) p' r evs →
     r.1 = parameters_spec original).
Proof.
  intros Hh Hs Hq. repeat split.
  - by apply runs_returns, extract_params_spec.
  - intros Hn. unfold parameters_spec. by rewrite after_first_None.
  - apply runs_returns; [done|].
    apply (extract_params_spec query (lit "https://x.com/login?user=a&pass=b&user=c"));
      [by_evaluation | done].
  - intros query' p' r evs Hq' Hr.
    pose proof (runs_returns _ _ _ _ Hh (extract_params_spec query' original p' Hs Hq')) as Hr'.
    by destruct (returns_det _ _ _ _ _ _ Hr Hr') as [-> _].
Qed.

(** C10.  The working buffer has 512 bytes, so the names come from the
    first 511 bytes after the first [?] only: what follows them is dropped
    without any message, and a name that straddles the limit is cut
    there. *)
Theorem query_cut_at_511 (query : list ascii) (pre head tail : cstring) (p : proc) :
  no_oom → cstr pre → cstr head → cstr tail → "?"%char ∉ pre →
  length head = 511 → length query = Z.to_nat MAX_PARAM_LEN →
  MAX_PARAM_LEN = 512%Z ∧
  returns (extract_params query (pre ++ "?"%char :: head ++ tail)) p
    (names_of_query head, Z.of_nat (length (names_of_query head))) [] ∧
  returns (extract_params query
             (lit "http://h/?" ++ replicate 509 "a"%char ++ lit "&bcdef=1")) p
    ([replicate 509 "a"%char; lit "b"], 2%Z) [].
Proof.
  intros Hh Hpre Hhead Htail Hq Hlen Hbuf. split; [done|]. split.
  - assert (cstr (pre ++ "?"%char :: head ++ tail)) as Hs.
    { apply cstr_app. split; [done|]. apply cstr_cons. split; [done|].
      by apply cstr_app. }
    pose proof (runs_returns _ _ _ _ Hh (extract_params_spec query _ p Hs Hbuf)) as H.
    unfold parameters_spec in H. rewrite after_first_app in H by done.
    change (Z.to_nat MAX_PARAM_LEN - 1) with 511 in H.
    rewrite take_app_length' in H by done. exact H.
  - apply runs_returns; [done|].
    pose proof (extract_params_spec query
                  (lit "http://h/?" ++ replicate 509 "a"%char ++ lit "&bcdef=1") p) as H.
    assert (parameters_spec (lit "http://h/?" ++ replicate 509 "a"%char ++ lit "&bcdef=1")
            = [replicate 509 "a"%char; lit "b"]) as E by (vm_compute; reflexivity).
    rewrite E in H. apply H; [by_evaluation | done].
Qed.

(** ** Rows *)

Lemma process_row_spec st row :
  process_row st row =
    match row_fields row with
    | Some (original, mimetype) => observe_url st original mimetype
    | None => ret st
    end.
Proof.
  unfold process_row, row_fields.
  destruct row as [| | | | | |cells|]; try done.
  destruct cells as [|c0 [|c1 [|c2 [|c3 cells]]]]; try done;
    try (by destruct c0).
Qed.

Lemma malformed_row_fields row : malformed_row row → row_fields row = None.
Proof.
  unfold malformed_row, row_fields.
  destruct row as [| | | | | |cells|]; try done.
  destruct cells as [|c0 [|c1 [|c2 [|c3 cells]]]]; try done;
    try (by destruct c0).
  intros [H|H]; [simpl in H; lia|].
  destruct c0; try done. by destruct (H s).
Qed.

Lemma row_loop_app st rows1 rows2 p :
  row_loop st (rows1 ++ rows2) p = (st' <- row_loop st rows1 ; row_loop st' rows2) p.
Proof.
  revert st p. induction rows1 as [|row rows1 IH]; intros st p; [done|].
  simpl. unfold bind in *. by destruct (process_row st row p).
Qed.

Lemma row_loop_observe st rows p :
  row_loop st rows p = observe_rows st (omap row_fields rows) p.
Proof.
  revert st p. induction rows as [|row rows IH]; intros st p; [done|].
  simpl. rewrite process_row_spec. destruct (row_fields row) as [[original mimetype]|].
  - simpl. unfold bind. by destruct (observe_url _ _ _ p).
  - unfold bind, ret. apply IH.
Qed.

(** C8.  A row that is not an array, has fewer than four cells, or whose
    first cell is not a string is skipped: the state and the streams are
    left as they were, and the rows after it are processed as if it had
    not been there.  The rows around it are still observed: the loop
    offers the URL and the mimetype of every well-formed row, those
    after the skipped row included, to [observe_url], in the order of the
    page; the well-formed row that follows the skipped one is observed
    from the state the skipped row was met in. *)
Theorem malformed_row_skipped (st : locals) (before after : list json_t)
    (row : json_t) (p : proc) :
  malformed_row row →
  process_row st row p = Ret st p ∧
  row_loop st (before ++ row :: after) p = row_loop st (before ++ after) p ∧
  row_loop st (before ++ row :: after) p
  = observe_rows st (omap row_fields before ++ omap row_fields after) p ∧
  (∀ next rest original mimetype,
     after = next :: rest → row_fields next = Some (original, mimetype) →
     row_loop st (row :: after) p
     = (st' <- observe_url st original mimetype ; row_loop st' rest) p).
Proof.
  intros Hbad. apply malformed_row_fields in Hbad.
  assert (∀ st p, process_row st row p = Ret st p) as Hskip.
  { intros st' p'. by rewrite process_row_spec, Hbad. }
  split; [done|].
  split.
  { rewrite !row_loop_app. unfold bind.
    destruct (row_loop st before p) as [st' p'| | |]; try done.
    simpl. unfold bind. by rewrite Hskip. }
  split.
  { rewrite row_loop_observe, omap_app. cbn [omap list_omap]. by rewrite Hbad. }
  intros next rest original mimetype -> Hnext.
  cbn [row_loop]. unfold bind at 1. rewrite Hskip.
  unfold bind. by rewrite process_row_spec, Hnext.
Qed.

(** ** Requests are sent by the page loop only *)

Lemma quiet_ret {A} (a : A) : quiet (ret a).
Proof. by intros p. Qed.

Lemma quiet_bind {A B} (m : M A) (f : A → M B) :
  quiet m → (∀ a, quiet (f a)) → quiet (x <- m ; f x).
Proof.
  intros Hm Hf p. specialize (Hm p). unfold wp, bind in *.
  destruct (m p) as [a p1| | |]; try done.
  specialize (Hf a p1). unfold wp in Hf.
  destruct (f a p1); try done; congruence.
Qed.

Lemma quiet_emit e : (∀ request, e ≠ Query request) → quiet (emit e).
Proof.
  intros He p. unfold wp, emit, queries. simpl. rewrite omap_app. simpl.
  destruct e; try (by rewrite app_nil_r). by destruct (He request).
Qed.

Lemma quiet_exit {A} status : quiet (@exit A status).
Proof. by intros p. Qed.

Lemma quiet_undefined {A} : quiet (@undefined A).
Proof. by intros p. Qed.

Lemma quiet_out_of_fuel {A} : quiet (@out_of_fuel A).
Proof. by intros p. Qed.

Lemma quiet_checked_alloc what : quiet (checked_alloc what).
Proof.
  intros p. unfold wp, checked_alloc, bind, heap_request.
  destruct (heap (heap_calls p)); simpl; [done|].
  unfold queries. rewrite omap_app. simpl. by rewrite app_nil_r.
Qed.

Lemma quiet_int_result z : quiet (int_result z).
Proof. unfold int_result. case_decide; [apply quiet_ret | apply quiet_undefined]. Qed.

Ltac quiet_step :=
  first
    [ apply quiet_ret | apply quiet_exit | apply quiet_undefined
    | apply quiet_out_of_fuel | apply quiet_checked_alloc | apply quiet_int_result
    | apply quiet_emit; done
    | apply quiet_bind; [|intros ?]
    | case_decide
    | case_match ].

Lemma quiet_add_url set url : quiet (add_url set url).
Proof. unfold add_url. repeat quiet_step. Qed.

Lemma quiet_params_loop fuel query saveptr token params param_count :
  quiet (params_loop fuel query saveptr token params param_count).
Proof.
  revert query saveptr token params param_count.
  induction fuel as [|fuel IH]; intros query saveptr token params param_count;
    destruct token as [tok|]; simpl; try apply quiet_ret; try apply quiet_out_of_fuel.
  apply quiet_bind; [repeat quiet_step|]. intros r.
  destruct (safe_strtok _ _ _ _) as [[token' query'] saveptr']. apply IH.
Qed.

Lemma quiet_extract_params query original : quiet (extract_params query original).
Proof.
  unfold extract_params. destruct (strchr original "?"); [|apply quiet_ret].
  destruct (safe_strtok _ _ _ _) as [[token' query'] saveptr'].
  apply quiet_params_loop.
Qed.

Lemma quiet_observe_url st original mimetype : quiet (observe_url st original mimetype).
Proof.
  unfold observe_url. apply quiet_bind; [apply quiet_add_url|]. intros r.
  case_decide; [|apply quiet_ret].
  apply quiet_bind; [apply quiet_extract_params|]. intros ps.
  repeat quiet_step.
Qed.

Lemma quiet_process_row st row : quiet (process_row st row).
Proof.
  rewrite process_row_spec. destruct (row_fields row) as [[original mimetype]|];
    [apply quiet_observe_url | apply quiet_ret].
Qed.

Lemma quiet_row_loop st rows : quiet (row_loop st rows).
Proof.
  revert st. induction rows as [|row rows IH]; intros st; simpl; [apply quiet_ret|].
  apply quiet_bind; [apply quiet_process_row | apply IH].
Qed.

Lemma quiet_next_resume_key root : quiet (next_resume_key root).
Proof. unfold next_resume_key. repeat quiet_step. Qed.

(** ** The loops inside a page end *)

Lemma terminates_ret {A} (a : A) : terminates (ret a).
Proof. by intros p. Qed.

Lemma terminates_bind {A B} (m : M A) (f : A → M B) :
  terminates m → (∀ a, terminates (f a)) → terminates (x <- m ; f x).
Proof.
  intros Hm Hf p. specialize (Hm p). unfold bind.
  destruct (m p) as [a p1| | |]; try done. apply Hf.
Qed.

Lemma terminates_emit e : terminates (emit e).
Proof. by intros p. Qed.

Lemma terminates_checked_alloc what : terminates (checked_alloc what).
Proof.
  intros p. unfold checked_alloc, bind, heap_request.
  by destruct (heap (heap_calls p)).
Qed.

Lemma terminates_int_result z : terminates (int_result z).
Proof. intros p. unfold int_result. by case_decide. Qed.

Ltac terminates_step :=
  first
    [ apply terminates_ret | apply terminates_emit | apply terminates_checked_alloc
    | apply terminates_int_result
    | apply terminates_bind; [|intros ?]
    | case_decide
    | case_match ].

Lemma terminates_add_url set url : terminates (add_url set url).
Proof. unfold add_url. repeat terminates_step. Qed.

Lemma read_string_length l : length (read_string l) ≤ length l.
Proof. induction l as [|c l IH]; simpl; [done|]. case_decide; simpl; lia. Qed.

Lemma read_string_drop l k :
  k ≤ length (read_string l) → read_string (drop k l) = drop k (read_string l).
Proof.
  revert l. induction k as [|k IH]; intros l Hk; [by rewrite !drop_0|].
  destruct l as [|c l]; simpl in *; [lia|].
  case_decide; simpl in *; [lia|]. apply IH. lia.
Qed.

Lemma read_string_head l c r : read_string l = c :: r → default NUL (l !! 0) = c ∧ c ≠ NUL.
Proof. destruct l as [|x l]; simpl; [done|]. case_decide; [done|]. by intros [= -> _]. Qed.

Lemma deref_string_at buf p :
  deref buf p ≠ NUL → ∃ r, string_at buf p = deref buf p :: r.
Proof.
  unfold deref, string_at.
  assert (buf !! p = drop p buf !! 0) as -> by (rewrite lookup_drop; f_equal; lia).
  destruct (drop p buf) as [|c l]; simpl; [done|].
  intros Hc. rewrite decide_False by done. eauto.
Qed.

Lemma string_at_bound buf p : p ≤ length buf → p + length (string_at buf p) ≤ length buf.
Proof.
  intros Hp. unfold string_at. pose proof (read_string_length (drop p buf)) as H.
  rewrite length_drop in H. lia.
Qed.

(** A call that returns a token moves [saveptr] forward, inside the array. *)
Lemma safe_strtok_progress buf str delim saveptr s0 tok buf' saveptr' :
  match str with None => saveptr | Some _ => str end = Some s0 →
  s0 ≤ length buf →
  safe_strtok buf str delim saveptr = (Some tok, buf', saveptr') →
  ∃ e, saveptr' = Some e ∧ s0 < e ∧ e ≤ length buf' ∧ length buf' = length buf.
Proof.
  intros Hstr Hs0. unfold safe_strtok. rewrite Hstr.
  case_decide as E0; [done|].
  pose proof (strspn_le (string_at buf s0) delim) as Hspn.
  pose proof (string_at_bound buf s0 Hs0) as Hb0.
  set (s := s0 + strspn (string_at buf s0) delim) in *.
  case_decide as E1; [done|].
  destruct (deref_string_at buf s E1) as [r Hr].
  assert (string_at buf s = drop (strspn (string_at buf s0) delim) (string_at buf s0)) as Hd.
  { unfold string_at, s. rewrite <-drop_drop. by apply read_string_drop. }
  assert (deref buf s ∉ delim) as Hc.
  { eapply strspn_head. rewrite <-Hd. exact Hr. }
  pose proof (strcspn_pos _ delim _ _ Hr Hc) as Hpos.
  pose proof (strcspn_le (string_at buf s) delim) as Hcspn.
  assert (s ≤ length buf) as Hs by (unfold s; lia).
  pose proof (string_at_bound buf s Hs) as Hb.
  case_decide as E2; intros [= <- <- <-].
  - eexists. split; [done|]. rewrite length_insert. repeat split; try lia.
    destruct (decide (s + strcspn (string_at buf s) delim < length buf)); [lia|].
    destruct E2. unfold deref. rewrite lookup_ge_None_2; [done|lia].
  - eexists. split; [done|]. repeat split; lia.
Qed.

Lemma safe_strtok_none buf str delim saveptr buf' saveptr' :
  safe_strtok buf str delim saveptr = (None, buf', saveptr') →
  buf' = buf ∧ saveptr' = saveptr.
Proof.
  unfold safe_strtok. repeat (case_match || case_decide); by intros [= <- <-].
Qed.

Lemma terminates_params_loop fuel query sp tok params param_count :
  sp ≤ length query → length query - sp < fuel →
  terminates (params_loop fuel query (Some sp) tok params param_count).
Proof.
  revert query sp tok params param_count.
  induction fuel as [|fuel IH]; intros query sp tok params param_count Hsp Hfuel; [lia|].
  destruct tok as [tok|]; simpl; [|apply terminates_ret].
  change ["&"%char] with (lit "&").
  set (query1 := match strchr (string_at query tok) "=" with
                 | Some k => <[tok + k := NUL]> query
                 | None => query
                 end).
  assert (length query1 = length query) as Hlen.
  { unfold query1. case_match; [by rewrite length_insert | done]. }
  clearbody query1.
  apply terminates_bind; [repeat terminates_step|]. intros r.
  destruct (safe_strtok query1 None (lit "&") (Some sp)) as [[token' query'] saveptr'] eqn:Ht.
  destruct token' as [tok'|].
  - destruct (safe_strtok_progress query1 None (lit "&") (Some sp) sp tok' query'
                saveptr' eq_refl ltac:(lia) Ht) as (e & -> & He1 & He2 & He3).
    apply IH; lia.
  - destruct fuel; simpl; apply terminates_ret.
Qed.

Lemma copy_loop_length dest src i bound : length (copy_loop dest src i bound).1 = length dest.
Proof.
  revert dest i. induction src as [|c src IH]; intros dest i; simpl.
  - by rewrite length_insert.
  - case_match; simpl; [by rewrite IH, length_insert | by rewrite length_insert].
Qed.

Lemma terminates_extract_params query original :
  length query = Z.to_nat MAX_PARAM_LEN → terminates (extract_params query original).
Proof.
  intros Hq. unfold extract_params. case_match; [|apply terminates_ret].
  set (buf := (safe_strncpy _ _ _).1).
  assert (length buf = 512) as Hbuf.
  { unfold buf, safe_strncpy. by rewrite copy_loop_length. }
  clearbody buf.
  destruct (safe_strtok buf (Some 0) (lit "&") None) as [[token query'] saveptr] eqn:Ht.
  destruct token as [tok|].
  - destruct (safe_strtok_progress buf (Some 0) (lit "&") None 0 tok query'
                saveptr eq_refl ltac:(lia) Ht) as (e & -> & He1 & He2 & He3).
    apply terminates_params_loop; [done|]. change (Z.to_nat MAX_PARAM_LEN) with 512. lia.
  - apply safe_strtok_none in Ht as [-> ->]. simpl. apply terminates_ret.
Qed.

Lemma terminates_observe_url st original mimetype :
  terminates (observe_url st original mimetype).
Proof.
  unfold observe_url. apply terminates_bind; [apply terminates_add_url|]. intros r.
  case_decide; [|apply terminates_ret].
  apply terminates_bind.
  { apply terminates_extract_params. rewrite length_take, length_app, length_replicate. lia. }
  intros ps. repeat terminates_step.
Qed.

Lemma terminates_row_loop st rows : terminates (row_loop st rows).
Proof.
  revert st. induction rows as [|row rows IH]; intros st; simpl; [apply terminates_ret|].
  apply terminates_bind; [|apply IH].
  rewrite process_row_spec. destruct (row_fields row) as [[original mimetype]|];
    [apply terminates_observe_url | apply terminates_ret].
Qed.

(** ** The continuation token *)

Lemma next_resume_key_spec root :
  next_resume_key root =
    match trailing_cell root with
    | Some (JString key) =>
        if bool_decide (char_at key 0 ≠ NUL) &&
           bool_decide (strcmp key (lit "null") ≠ 0%Z)
        then _ <- checked_alloc (lit "strdup") ; ret (Some key)
        else ret None
    | _ => ret None
    end.
Proof.
  unfold next_resume_key, trailing_cell.
  destruct root as [| | | | | |rows|]; try done.
  simpl. rewrite Nat.sub_1_r, <-last_lookup.
  destruct (last rows) as [[| | | | | |cells|]|]; try done.
  simpl. rewrite Nat.sub_1_r, <-last_lookup.
  destruct cells as [|c cells]; [done|].
  rewrite bool_decide_eq_true_2 by (simpl; lia). simpl.
  by destruct (last (c :: cells)) as [[]|].
Qed.

Lemma next_resume_key_none root p :
  no_continuation root → next_resume_key root p = Ret None p.
Proof.
  unfold no_continuation. rewrite next_resume_key_spec.
  destruct (trailing_cell root) as [[| | | | |s| |]|]; try done.
  by intros [-> | ->].
Qed.

Lemma next_resume_key_some root key p :
  continuation root key → cstr key → runs (next_resume_key root) p (Some key) [].
Proof.
  intros (Ht & Hne & Hnull) Hk. rewrite next_resume_key_spec, Ht.
  assert (char_at key 0 ≠ NUL) as H0.
  { destruct key as [|c key]; [done|]. by apply cstr_cons in Hk as [? _]. }
  assert (strcmp key (lit "null") ≠ 0%Z) as H1.
  { intros E. apply Hnull. apply strcmp_eq; [done | by_evaluation | done]. }
  rewrite !bool_decide_eq_true_2 by done. simpl.
  eapply runs_bind_nil; [apply runs_checked_alloc|]. intros p1. apply runs_ret.
Qed.

(** C5.  When the last cell of the last row of a page is absent, not a
    string, empty or ["null"], the token is cleared and the page loop ends
    with that page: however many iterations it could still make, it makes
    none, and the request that fetched the page is the last one sent. *)
Theorem pagination_stops (root : json_t) (fuel : nat) (domain full_domain : cstring)
    (limit verbose : Z) (page : nat) (resume_key : option cstring) (st : locals)
    (p : proc) :
  no_continuation root →
  cdx page (query_url full_domain limit resume_key) = Document root →
  next_resume_key root p = Ret None p ∧
  fetch_loop (S fuel) domain full_domain limit verbose page resume_key st p
    = fetch_loop 1 domain full_domain limit verbose page resume_key st p ∧
  fetch_loop (S fuel) domain full_domain limit verbose page resume_key st p ≠ OutOfFuel ∧
  wp (fetch_loop (S fuel) domain full_domain limit verbose page resume_key st) p
    (λ _ p', queries (events p') =
             queries (events p) ++ [query_url full_domain limit resume_key])
    (λ p', queries (events p') =
           queries (events p) ++ [query_url full_domain limit resume_key]).
Proof.
  intros Hno Hpage.
  assert (∀ n p1,
    fetch_loop (S n) domain full_domain limit verbose page resume_key st p1 =
    (_ <- (if decide (verbose ≠ 0%Z)
           then emit (Stdout (line (lit "Querying: " ++
                                    query_url full_domain limit resume_key)))
           else ret tt) ;
     _ <- emit (Query (query_url full_domain limit resume_key)) ;
     if negb (json_is_array (Some root)) || bool_decide (json_array_size (Some root) < 2)
     then ret st
     else row_loop st (match root with JArray items => drop 1 items | _ => [] end)) p1)
    as Hunfold.
  { intros n p1. simpl. rewrite Hpage. unfold bind, emit, ret.
    destruct (decide (verbose ≠ 0%Z)); simpl;
      (destruct (negb _ || _); [done|]);
      (destruct (row_loop _ _ _) as [st' p4| | |]; try done);
      by rewrite next_resume_key_none. }
  split; [by apply next_resume_key_none|].
  split; [by rewrite !Hunfold|].
  set (request := query_url full_domain limit resume_key) in *.
  split.
  - rewrite Hunfold. apply terminates_bind.
    { destruct (decide (verbose ≠ 0%Z)); [apply terminates_emit | apply terminates_ret]. }
    intros _. apply terminates_bind; [apply terminates_emit|]. intros _.
    destruct (negb _ || _); [apply terminates_ret | apply terminates_row_loop].
  - unfold wp. rewrite Hunfold.
    set (bad := negb (json_is_array (Some root)) ||
                bool_decide (json_array_size (Some root) < 2)).
    unfold bind, emit, ret.
    set (rows := match root with JArray items => drop 1 items | _ => [] end).
    assert (∀ p1, queries (events p1) = queries (events p) ++ [request] →
              match row_loop st rows p1 with
              | Ret _ p' | Exit _ p' => queries (events p') = queries (events p) ++ [request]
              | _ => True
              end) as Hrows.
    { intros p1 E. pose proof (quiet_row_loop st rows p1) as Hq. unfold wp in Hq.
      destruct (row_loop st rows p1); try done; congruence. }
    destruct (decide (verbose ≠ 0%Z)); simpl; destruct bad; simpl;
      try apply Hrows; simpl; unfold queries; rewrite ?omap_app; simpl;
      by rewrite ?app_nil_r.
Qed.

(** ** Sorting the report *)

Lemma compare_asc_consistent : consistent compare_endpoints_asc.
Proof.
  unfold consistent, compare_endpoints_asc. repeat split.
  - rewrite (strcmp_antisym (url a) (url b)). lia.
  - rewrite (strcmp_antisym (url a) (url b)). lia.
  - rewrite (strcmp_antisym (url a) (url b)). lia.
  - rewrite (strcmp_antisym (url a) (url b)). lia.
  - intros a b c. apply strcmp_le_trans.
Qed.

Lemma compare_desc_consistent : consistent compare_endpoints_desc.
Proof.
  unfold consistent, compare_endpoints_desc. repeat split.
  - rewrite (strcmp_antisym (url b) (url a)). lia.
  - rewrite (strcmp_antisym (url b) (url a)). lia.
  - rewrite (strcmp_antisym (url b) (url a)). lia.
  - rewrite (strcmp_antisym (url b) (url a)). lia.
  - intros a b c H1 H2. by apply (strcmp_le_trans _ (url b)).
Qed.

Lemma Sorted_impl_elem {A} (R S : relation A) l :
  (∀ a b, a ∈ l → b ∈ l → R a b → S a b) → Sorted R l → Sorted S l.
Proof.
  intros HRS Hs. induction Hs as [|x l Hs IH Hhd]; constructor.
  - apply IH. intros a b Ha Hb. apply HRS; by right.
  - destruct Hhd as [|y l Hxy]; constructor. apply HRS; [by left | right; by left | done].
Qed.




Global Instance asc_transitive :
  Transitive (λ a b, (compare_endpoints_asc a b ≤ 0)%Z).
Proof. intros a b c. apply compare_asc_consistent. Qed.

Global Instance desc_transitive :
  Transitive (λ a b, (compare_endpoints_desc a b ≤ 0)%Z).
Proof. intros a b c. apply compare_desc_consistent. Qed.

Lemma sort_endpoints_spec sort_desc endpoints :
  sorts qsort →
  sort_endpoints sort_desc endpoints (Z.of_nat (length endpoints)) ≡ₚ endpoints ∧
  if decide (sort_desc ≠ 0%Z)
  then Sorted (λ a b, (compare_endpoints_desc a b ≤ 0)%Z)
         (sort_endpoints sort_desc endpoints (Z.of_nat (length endpoints)))
  else Sorted (λ a b, (compare_endpoints_asc a b ≤ 0)%Z)
         (sort_endpoints sort_desc endpoints (Z.of_nat (length endpoints))).
Proof.
  intros Hq. unfold sort_endpoints.
  destruct (decide (Z.of_nat (length endpoints) > 0)%Z) as [Hn|Hn].
  - rewrite Nat2Z.id, firstn_all.
    destruct (decide (sort_desc ≠ 0%Z)).
    + by apply Hq, compare_desc_consistent.
    + by apply Hq, compare_asc_consistent.
  - destruct endpoints; [|simpl in Hn; lia].
    split; [done|]. case_decide; constructor.
Qed.

Lemma cstr_urls_perm (l l' : list Endpoint) :
  l ≡ₚ l' → Forall (λ e, cstr (url e)) l' → Forall (λ e, cstr (url e)) l.
Proof. intros Hp. by rewrite Hp. Qed.

(** The written array is a rearrangement of the collected records, in
    lexicographic order of the URLs. *)
Lemma sort_endpoints_lex (endpoints : list Endpoint) (sort_desc : Z) :
  sorts qsort → Forall (λ e, cstr (url e)) endpoints →
  let report := sort_endpoints sort_desc endpoints (Z.of_nat (length endpoints)) in
  report ≡ₚ endpoints ∧
  (sort_desc = 0%Z → Sorted (λ a b, lex_le (url a) (url b)) report) ∧
  (sort_desc ≠ 0%Z → Sorted (λ a b, lex_le (url b) (url a)) report).
Proof.
  intros Hq Hc report.
  destruct (sort_endpoints_spec sort_desc endpoints Hq) as [Hperm Hsorted].
  fold report in Hperm, Hsorted.
  pose proof (cstr_urls_perm _ _ Hperm Hc) as Hcr. rewrite Forall_forall in Hcr.
  split; [done|]. split.
  - intros ->. case_decide; [done|].
    eapply Sorted_impl_elem; [|exact Hsorted]. intros a b Ha Hb.
    unfold compare_endpoints_asc. by rewrite strcmp_lex by auto.
  - intros Hd. rewrite decide_True in Hsorted by done.
    eapply Sorted_impl_elem; [|exact Hsorted]. intros a b Ha Hb.
    unfold compare_endpoints_desc. by rewrite strcmp_lex by auto.
Qed.


(** ** One URL offered to the set *)

Lemma locals_eta st :
  mkLocals (seen st) (endpoints st) (endpoint_count st) (endpoint_capacity st) = st.
Proof. by destruct st. Qed.

Lemma observe_url_seen st original mimetype p :
  locals_inv st → original ∈ urls (seen st) →
  observe_url st original mimetype p = Ret st p.
Proof.
  intros (Hwf & _) Hin. unfold observe_url, bind.
  rewrite add_url_seen by done. simpl. by rewrite locals_eta.
Qed.

Lemma array_store_end {A} (a : list A) x : array_store a (Z.of_nat (length a)) x = a ++ [x].
Proof. unfold array_store. by rewrite Nat2Z.id, firstn_all. Qed.

Lemma locals_inv_snoc st set' original e n cap :
  locals_inv st → URLSet_wf set' → urls set' = urls (seen st) ++ [original] →
  original ∉ urls (seen st) → url e = original →
  n = (endpoint_count st + 1)%Z →
  locals_inv (mkLocals set' (array_store (endpoints st) (endpoint_count st) e) n cap).
Proof.
  intros (Hwf & Hn & Hu & Hnd) Hwf' Hurls Hfresh He ->.
  rewrite Hn, array_store_end. repeat split; simpl.
  - done.
  - rewrite length_app. simpl. lia.
  - by rewrite fmap_app, Hu, Hurls, <-He.
  - rewrite Hurls. apply NoDup_app. repeat split; [done| |apply NoDup_singleton].
    intros x Hx ->%list_elem_of_singleton. done.
Qed.

Lemma recorded_inv st original mimetype :
  locals_inv st → original ∉ urls (seen st) → locals_inv (recorded st original mimetype).
Proof.
  intros (Hwf & Hn & Hu & Hnd) Hfresh. unfold recorded. repeat split; simpl.
  - by apply added_wf.
  - rewrite length_app. simpl. lia.
  - by rewrite fmap_app, Hu.
  - apply NoDup_app. repeat split; [done| |apply NoDup_singleton].
    intros x Hx ->%list_elem_of_singleton. done.
Qed.

Lemma observe_url_fresh st original mimetype p :
  locals_inv st → (2 * endpoint_count st ≤ INT_MAX)%Z →
  cstr original → Forall cstr (urls (seen st)) →
  original ≠ [] → original ∉ urls (seen st) →
  runs (observe_url st original mimetype) p (recorded st original mimetype)
    [progress_of original mimetype].
Proof.
  intros Hinv Hbound Hc Hcs Hne Hfresh.
  pose proof Hinv as (Hwf & Hn & Hu & Hnd).
  assert (count (seen st) = endpoint_count st) as Hcount.
  { rewrite Hwf, Hn, <-Hu. by rewrite length_fmap. }
  pose proof (add_url_fresh (seen st) original p Hwf ltac:(lia) Hc Hcs Hne Hfresh) as Hadd.
  assert (0 ≤ endpoint_count st)%Z by lia.
  unfold observe_url. eapply runs_bind_nil; [exact Hadd|]. intros p1.
  cbv zeta. cbn [fst snd]. rewrite decide_True by done.
  eapply runs_bind_nil.
  { apply extract_params_spec; [done|].
    rewrite length_take, length_app, length_replicate. lia. }
  intros p2. cbn [fst snd endpoint_count endpoint_capacity endpoints seen].
  eapply (runs_bind _ _ _ tt _ [_] []); [apply runs_emit|]. intros p3.
  eapply runs_bind_nil.
  { instantiate (1 := if decide (endpoint_count st = endpoint_capacity st)
                      then max (endpoint_capacity st * 2) INITIAL_CAPACITY
                      else endpoint_capacity st).
    case_decide as Hcap.
    - eapply runs_bind_nil; [apply runs_int_result; unfold INT_MAX in *; lia|].
      intros p4. eapply runs_bind_nil; [apply runs_checked_alloc|].
      intros p5. apply runs_ret.
    - apply runs_ret. }
  intros p4. eapply runs_bind_nil; [apply runs_checked_alloc|].
  intros p5. eapply runs_bind_nil; [apply runs_checked_alloc|].
  intros p6. eapply runs_bind_nil; [apply runs_int_result; unfold INT_MAX in *; lia|].
  intros p7. unfold recorded. rewrite Hn, array_store_end, <-Hn. apply runs_ret.
Qed.

(** Whatever the heap does, a URL that was offered leaves the invariant
    in place when the call returns. *)
Lemma observe_url_inv st original mimetype p :
  locals_inv st → wp (observe_url st original mimetype) p (λ st' _, locals_inv st') (λ _, True).
Proof.
  intros Hinv. pose proof Hinv as (Hwf & Hn & Hu & Hnd).
  unfold observe_url. apply wp_bind. unfold wp at 1.
  destruct (add_url (seen st) (Some original) p) as [r p1| | |] eqn:Hadd; try done.
  destruct (add_url_returns _ _ _ _ _ Hwf Hadd)
    as [_ [[E1 E2] | [E1 (u & [= <-] & Hfresh & Hurls & Hwf')]]].
  - rewrite E1, E2. simpl. by rewrite locals_eta.
  - rewrite E1. simpl. apply wp_bind. unfold wp at 1.
    destruct (extract_params _ _ p1) as [ps p2| | |]; try done.
    apply wp_bind, wp_emit, wp_bind. unfold wp at 1.
    match goal with |- match ?m ?q with _ => _ end => destruct (m q) as [cap p3| | |] end;
      try done.
    apply wp_bind, wp_checked_alloc; [|done].
    apply wp_bind, wp_checked_alloc; [|done].
    apply wp_bind, wp_int_result, wp_ret.
    by apply (locals_inv_snoc st (r.2) original).
Qed.

Lemma row_loop_inv st rows p :
  locals_inv st → wp (row_loop st rows) p (λ st' _, locals_inv st') (λ _, True).
Proof.
  revert st p. induction rows as [|row rows IH]; intros st p Hinv; simpl; [done|].
  apply wp_bind. rewrite process_row_spec.
  destruct (row_fields row) as [[original mimetype]|].
  - eapply wp_mono; [by apply observe_url_inv| |done]. intros st' p' Hinv'. by apply IH.
  - by apply IH.
Qed.

Lemma fetch_loop_inv fuel domain full_domain limit verbose page resume_key st p :
  locals_inv st →
  wp (fetch_loop fuel domain full_domain limit verbose page resume_key st) p
    (λ st' _, locals_inv st') (λ _, True).
Proof.
  revert page resume_key st p.
  induction fuel as [|fuel IH]; intros page resume_key st p Hinv; [done|].
  simpl. apply wp_bind.
  assert (∀ (m : M unit) p1 (Q : unit → proc → Prop),
            (∀ p', Q tt p') → (∃ e, m = emit e) ∨ m = ret tt → wp m p1 Q (λ _, True))
    as Hprint.
  { intros m p1 Q HQ [[e ->] | ->]; apply HQ. }
  apply Hprint; [|case_decide; eauto]. intros p1.
  apply wp_bind, wp_emit.
  destruct (cdx page _) as [msg| |msg|root].
  - by apply wp_bind, wp_emit.
  - done.
  - by apply wp_bind, wp_emit.
  - case_match; [done|]. apply wp_bind.
    eapply wp_mono; [by apply row_loop_inv| |done]. intros st' p' Hinv'.
    apply wp_bind. unfold wp at 1.
    destruct (next_resume_key root p') as [[k|] p2| | |]; try done. by apply IH.
Qed.

Lemma collect_report_nodup fuel domain limit verbose sort_desc p report n p' :
  sorts qsort →
  collect_report fuel domain limit verbose sort_desc p = Ret (report, n) p' →
  n = Z.of_nat (length report) ∧ NoDup (url <$> report).
Proof.
  intros Hq. unfold collect_report, bind.
  pose proof (fetch_loop_inv fuel domain (full_domain_of domain) limit verbose 0 None
                (mkLocals (mkURLSet [] 0 0) [] 0 0) p) as Hinv.
  unfold wp in Hinv.
  destruct (fetch_loop _ _ _ _ _ _ _ _ p) as [st p1| | |]; try done.
  intros [= <- <- <-].
  destruct Hinv as (Hwf & Hn & Hu & Hnd).
  { repeat split; simpl; try done. constructor. }
  rewrite Hn.
  destruct (sort_endpoints_spec sort_desc (endpoints st) Hq) as [Hperm _].
  split.
  - by rewrite Hperm.
  - rewrite Hperm. by rewrite Hu.
Qed.

(** ** A sequence of URLs offered to the set *)

Lemma add_url_step set u :
  URLSet_wf set → NoDup (urls set) → Forall cstr (urls set) → [] ∉ urls set →
  (2 * count set ≤ INT_MAX)%Z → (∀ s, u = Some s → cstr s) →
  ∃ answer set1,
    (∀ p, runs (add_url set u) p (answer, set1) []) ∧
    URLSet_wf set1 ∧ NoDup (urls set1) ∧ Forall cstr (urls set1) ∧ ([] ∉ urls set1) ∧
    (count set1 ≤ count set + 1)%Z ∧
    (∀ s, s ∈ urls set1 ↔ s ∈ urls set ∨ (u = Some s ∧ s ≠ [])) ∧
    (answer = 1%Z ↔ ∃ s, u = Some s ∧ s ≠ [] ∧ (s ∉ urls set)) ∧
    (answer = 0%Z ∨ answer = 1%Z).
Proof. unused.
  intros Hwf Hnd Hcs Hne Hbound Hu.
  assert (∀ p, runs (ret (0%Z, set)) p (0%Z, set) []) as Hret
    by (intros p; apply runs_ret).
  destruct u as [s|].
  - destruct (decide (s = [])) as [->|Hs].
    { exists 0%Z, set. repeat split; try done; try lia; naive_solver. }
    destruct (decide (s ∈ urls set)) as [Hin|Hout].
    { exists 0%Z, set. split.
      { intros p. left. exists 0. by rewrite add_url_seen, proc_eta. }
      repeat split; try done; try lia; naive_solver. }
    exists 1%Z, (added set s). split.
    { intros p. apply add_url_fresh; auto. }
    simpl. split; [by apply added_wf|]. split.
    { apply NoDup_app. repeat split; [done| |apply NoDup_singleton].
      intros x Hx ->%list_elem_of_singleton. done. }
    split. { apply Forall_app. split; [done|]. apply Forall_singleton. by apply Hu. }
    split. { rewrite elem_of_app, list_elem_of_singleton. naive_solver. }
    split; [lia|]. split.
    { intros t. rewrite elem_of_app, list_elem_of_singleton. naive_solver. }
    split; [|by right]. split; [|done]. intros _. by exists s.
  - exists 0%Z, set. repeat split; try done; try lia; naive_solver.
Qed.

Lemma observe_all_spec l set :
  URLSet_wf set → NoDup (urls set) → Forall cstr (urls set) → [] ∉ urls set →
  (2 * (count set + Z.of_nat (length l)) ≤ INT_MAX)%Z →
  Forall (λ u, ∀ s, u = Some s → cstr s) l →
  ∃ answers set',
    (∀ p, runs (observe_all set l) p (answers, set') []) ∧
    length answers = length l ∧
    NoDup (urls set') ∧
    (∀ i s, l !! i = Some (Some s) → s ≠ [] → s ∉ urls set → Some s ∉ take i l →
            answers !! i = Some 1%Z) ∧
    (∀ i s, l !! i = Some (Some s) → s ∈ urls set ∨ Some s ∈ take i l →
            answers !! i = Some 0%Z) ∧
    (∀ i, l !! i = Some None ∨ l !! i = Some (Some []) → answers !! i = Some 0%Z) ∧
    (∀ s, s ∈ urls set' ↔ s ∈ urls set ∨ (Some s ∈ l ∧ s ≠ [])).
Proof. unused.
  revert set. induction l as [|u l IH]; intros set Hwf Hnd Hcs Hne Hbound Hl.
  { exists [], set. split; [intros p; apply runs_ret|].
    split; [done|]. split; [done|]. split; [done|]. split; [done|].
    split; [by intros i [?|?]|].
    intros s. rewrite elem_of_nil. naive_solver. }
  apply Forall_cons in Hl as [Hu Hl]. simpl length in Hbound.
  assert (0 ≤ count set)%Z by (rewrite Hwf; lia).
  destruct (add_url_step set u Hwf Hnd Hcs Hne ltac:(lia) Hu)
    as (answer & set1 & Hrun & Hwf1 & Hnd1 & Hcs1 & Hne1 & Hcount1 & Hin1 & Hans & Hbit).
  destruct (IH set1 Hwf1 Hnd1 Hcs1 Hne1 ltac:(lia) Hl)
    as (answers & set' & Hruns & Hlen & Hnd' & Hone & Hzero & Hnull & Hin').
  exists (answer :: answers), set'. split.
  { intros p. simpl. eapply runs_bind_nil; [apply Hrun|]. intros p1. simpl.
    eapply runs_bind_nil; [apply Hruns|]. intros p2. apply runs_ret. }
  split; [simpl; by rewrite Hlen|]. split; [done|].
  split; [|split; [|split]].
  - intros [|i] s Hi Hs Hout Hbefore; simpl in *.
    + injection Hi as ->. f_equal. apply Hans. eauto.
    + apply not_elem_of_cons in Hbefore as [Hneq Hbefore].
      apply (Hone i s); try done. rewrite Hin1. naive_solver.
  - intros [|i] s Hi Hseen; simpl in *.
    + injection Hi as ->. destruct Hseen as [Hseen | Hseen%elem_of_nil]; [|done].
      f_equal. destruct Hbit as [?|E]; [done|].
      apply Hans in E as (t & [= <-] & _ & Ht). done.
    + destruct (decide (s = [])) as [->|Hsne]; [apply Hnull; by right|].
      apply (Hzero i s); [done|]. rewrite Hin1.
      destruct Hseen as [?|Hseen]; [auto|].
      apply elem_of_cons in Hseen as [E|?]; [|auto]. left. right. by split.
  - intros [|i] Hi; simpl in *; [|by apply Hnull].
    f_equal. destruct Hbit as [?|E]; [done|].
    apply Hans in E as (t & -> & Ht & _). destruct Hi as [[=]|[= ->]]. done.
  - intros s. rewrite Hin', Hin1, elem_of_cons. naive_solver.
Qed.

(** C2.  Fed any sequence of URLs, starting from the empty set, [add_url]
    answers 1 to the first call with a given non-empty string and records
    it, answers 0 to every later call with the same string, and answers 0
    to a null or empty string, which it does not record.  So the set
    never holds a string twice, and the report of a domain never holds two
    records with the same URL. *)
Theorem urls_observed_once (l : list (option cstring)) (p : proc) :
  no_oom → sorts qsort →
  (2 * Z.of_nat (length l) ≤ INT_MAX)%Z →
  Forall (λ u, ∀ s, u = Some s → cstr s) l →
  ∃ answers set',
    returns (observe_all (mkURLSet [] 0 0) l) p (answers, set') [] ∧
    length answers = length l ∧
    (∀ i s, l !! i = Some (Some s) → s ≠ [] → Some s ∉ take i l →
            answers !! i = Some 1%Z ∧ s ∈ urls set') ∧
    (∀ i s, l !! i = Some (Some s) → Some s ∈ take i l → answers !! i = Some 0%Z) ∧
    (∀ i, l !! i = Some None ∨ l !! i = Some (Some []) → answers !! i = Some 0%Z) ∧
    (∀ set q, add_url set None q = Ret (0%Z, set) q ∧
              add_url set (Some []) q = Ret (0%Z, set) q) ∧
    NoDup (urls set') ∧ ([] ∉ urls set') ∧
    (∀ fuel domain limit verbose sort_desc q report n q',
       collect_report fuel domain limit verbose sort_desc q = Ret (report, n) q' →
       NoDup (url <$> report)).
Proof.
  intros Hh Hq Hbound Hl.
  destruct (observe_all_spec l (mkURLSet [] 0 0)) as
    (answers & set' & Hruns & Hlen & Hnd & Hone & Hzero & Hnull & Hin); try done.
  { constructor. }
  { apply not_elem_of_nil. }
  exists answers, set'. split; [by apply runs_returns|]. split; [done|].
  split; [|split; [|split; [|split; [|split; [|split]]]]]; try done.
  - intros i s Hi Hs Hbefore. split.
    + apply (Hone i s); try done. apply not_elem_of_nil.
    + apply Hin. right. split; [|done]. by eapply list_elem_of_lookup_2.
  - intros i s Hi Hbefore. apply (Hzero i s); auto.
  - intros E. apply Hin in E as [E%elem_of_nil | [_ E]]; done.
  - intros fuel domain limit verbose sort_desc q report n q' Hrun.
    by eapply collect_report_nodup.
Qed.

(** ** Writing the report *)

Lemma write_records_skip i e rest :
  json_dumps (endpoint_json e) (Z.lor (JSON_INDENT 2) JSON_ENSURE_ASCII) = None →
  write_records i (e :: rest) = write_records (i + 1) rest.
Proof. intros E. simpl. by rewrite E. Qed.

Lemma write_records_first e rest json_str :
  json_dumps (endpoint_json e) (Z.lor (JSON_INDENT 2) JSON_ENSURE_ASCII) = Some json_str →
  write_records 0 (e :: rest) = json_str ++ write_records 1 rest.
Proof. intros E. simpl. by rewrite E. Qed.

Lemma write_records_next i e rest json_str :
  (i > 0)%Z →
  json_dumps (endpoint_json e) (Z.lor (JSON_INDENT 2) JSON_ENSURE_ASCII) = Some json_str →
  write_records i (e :: rest) = line (lit ",") ++ json_str ++ write_records (i + 1) rest.
Proof. intros Hi E. simpl. rewrite E, decide_True by done. by rewrite <-app_assoc. Qed.

Lemma write_records_rest i endpoints :
  (i > 0)%Z →
  write_records i endpoints = concat ((λ t, line (lit ",") ++ t) <$> dumped endpoints).
Proof.
  revert i. induction endpoints as [|e endpoints IH]; intros i Hi; [done|].
  destruct (json_dumps (endpoint_json e) (Z.lor (JSON_INDENT 2) JSON_ENSURE_ASCII))
    as [json_str|] eqn:E.
  - rewrite (write_records_next _ _ _ json_str) by done. rewrite IH by lia.
    unfold dumped. cbn [omap list_omap]. rewrite E. cbn [fmap list_fmap concat].
    by rewrite <-app_assoc.
  - rewrite write_records_skip by done. rewrite IH by lia.
    unfold dumped. simpl. by rewrite E.
Qed.

Lemma joined_cons t ts : joined (t :: ts) = t ++ concat ((λ t, line (lit ",") ++ t) <$> ts).
Proof.
  unused.
  revert t. induction ts as [|t' ts IH]; intros t; [by rewrite app_nil_r|].
  change (joined (t :: t' :: ts)) with (t ++ line (lit ",") ++ joined (t' :: ts)).
  rewrite IH. cbn [fmap list_fmap concat]. by rewrite <-app_assoc.
Qed.

Lemma write_records_text endpoints : write_records 0 endpoints = records_text endpoints.
Proof.
  destruct endpoints as [|e endpoints]; [done|]. unfold records_text.
  destruct (json_dumps (endpoint_json e) (Z.lor (JSON_INDENT 2) JSON_ENSURE_ASCII))
    as [json_str|] eqn:E.
  - rewrite (write_records_first _ _ json_str) by done.
    rewrite joined_cons. f_equal. by apply write_records_rest.
  - rewrite write_records_skip by done. by apply write_records_rest.
Qed.

Lemma report_text_records endpoints endpoint_count :
  endpoint_count = Z.of_nat (length endpoints) →
  report_text endpoints endpoint_count
  = line (lit "[") ++ records_text endpoints ++ [LF] ++ line (lit "]").
Proof.
  intros ->. unfold report_text. by rewrite Nat2Z.id, firstn_all, write_records_text.
Qed.

(** ** The object of a record *)

Lemma append_valid_names names items :
  foldl (λ params_array name, json_array_append_new params_array (json_string name))
    (JArray items) names
  = JArray (items ++ (JString <$> filter (λ name, utf8_check_string name = true) names)).
Proof.
  unused.
  revert items. induction names as [|name names IH]; intros items.
  { by rewrite app_nil_r. }
  cbn [foldl]. unfold json_string at 2.
  rewrite filter_cons. destruct (utf8_check_string name) eqn:E.
  - rewrite decide_True by done. cbn [json_array_append_new]. rewrite IH.
    by rewrite <-app_assoc.
  - rewrite decide_False by done. cbn [json_array_append_new]. apply IH.
Qed.

Lemma endpoint_json_object e :
  utf8_check_string (method e) = true → endpoint_json e = record_object e.
Proof.
  unused.
  intros Hm. unfold endpoint_json, record_object, json_string. cbv zeta.
  rewrite Hm, append_valid_names. cbn [app].
  assert (utf8_check_string (lit "url") = true) as Hurl by done.
  assert (utf8_check_string (lit "method") = true) as Hmethod by done.
  assert (utf8_check_string (lit "parameters") = true) as Hparameters by done.
  destruct (utf8_check_string (url e));
    cbn [json_object_set_new]; rewrite ?Hurl, ?Hmethod, ?Hparameters;
    cbn [json_object_set_new]; rewrite ?Hurl, ?Hmethod, ?Hparameters; done.
Qed.

Lemma infer_method_utf8 u m : utf8_check_string (infer_method u m) = true.
Proof.
  unused.
  unfold infer_method. destruct u as [u|]; [|done]. cbv zeta.
  repeat match goal with |- context [if ?c then _ else _] => destruct c end; done.
Qed.

Lemma endpoint_of_object original mimetype :
  endpoint_json (endpoint_of original mimetype) = record_object (endpoint_of original mimetype).
Proof. unused. apply endpoint_json_object, infer_method_utf8. Qed.


(** ** Two pages, end to end *)

Lemma runs_when (c : Prop) `{Decision c} e p :
  runs (if decide c then emit e else ret tt) p tt (if decide c then [e] else []).
Proof. case_decide; [apply runs_emit | apply runs_ret]. Qed.

Lemma runs_ext {A} (m m' : M A) p a evs :
  (∀ q, m q = m' q) → runs m' p a evs → runs m p a evs.
Proof. intros E. unfold runs, returns. by rewrite E. Qed.

Lemma page_rows_shape root r rs :
  page_rows root = r :: rs →
  negb (json_is_array (Some root)) || bool_decide (json_array_size (Some root) < 2) = false ∧
  omap row_fields (match root with JArray items => drop 1 items | _ => [] end) = r :: rs.
Proof.
  unfold page_rows. destruct root as [| | | | | |[|hdr rows]|]; try done.
  intros E. split; [|by rewrite <-E].
  by destruct rows.
Qed.

Lemma char_at_cstr s : cstr s → s ≠ [] → char_at s 0 ≠ NUL.
Proof. destruct s as [|c s]; [done|]. intros [? _]%cstr_cons _. done. Qed.

Lemma fetch_loop_S fuel domain full_domain limit verbose page resume_key st :
  fetch_loop (S fuel) domain full_domain limit verbose page resume_key st =
    let request := query_url full_domain limit resume_key in
    (_ <- (if decide (verbose ≠ 0%Z)
           then emit (Stdout (line (lit "Querying: " ++ request)))
           else ret tt) ;
     _ <- emit (Query request) ;
     match cdx page request with
     | TransportError msg =>
         _ <- emit (Stderr (line (lit "curl error for " ++ domain ++ lit ": " ++ msg))) ;
         ret st
     | EmptyBody => ret st
     | Unparsable msg =>
         _ <- emit (Stderr (line (lit "JSON parse error for " ++ domain ++ lit ": " ++ msg))) ;
         ret st
     | Document root =>
         if negb (json_is_array (Some root)) ||
            bool_decide (json_array_size (Some root) < 2)
         then ret st
         else
           st' <- row_loop st
                    (match root with JArray items => drop 1 items | _ => [] end) ;
           key <- next_resume_key root ;
           match key with
           | Some k => fetch_loop fuel domain full_domain limit verbose (S page) (Some k) st'
           | None => ret st'
           end
     end).
Proof. done. Qed.

Ltac fresh_side :=
  first
    [ done
    | apply not_elem_of_nil
    | (unfold INT_MAX; simpl; lia)
    | (simpl; repeat (apply Forall_cons; split; [done|]); by apply Forall_nil)
    | (simpl; rewrite ?not_elem_of_cons; repeat split;
       first [apply not_elem_of_nil | congruence]) ].

Lemma take_app_known {X} n (l k pre : list X) :
  take n l = pre → length pre = n → take n (l ++ k) = pre.
Proof.
  intros <- Hlen. rewrite length_take in Hlen. by rewrite take_app_le by lia.
Qed.

(** One turn of the page loop, by what the page ends with. *)

Lemma fetch_loop_last fuel domain full_domain limit verbose page resume_key st root
    st' evs_rows :
  cdx page (query_url full_domain limit resume_key) = Document root →
  negb (json_is_array (Some root)) || bool_decide (json_array_size (Some root) < 2) = false →
  (∀ q, runs (row_loop st (match root with JArray items => drop 1 items | _ => [] end))
          q st' evs_rows) →
  queries evs_rows = [] →
  no_continuation root →
  ∃ evs,
    (∀ p, runs (fetch_loop (S fuel) domain full_domain limit verbose page resume_key st)
            p st' evs) ∧
    queries evs = [query_url full_domain limit resume_key].
Proof.
  intros Hdoc Hok Hrows Hquiet Hno. eexists. split.
  - intros p. rewrite fetch_loop_S. cbv zeta.
    eapply runs_bind; [apply runs_when|]. intros p1.
    eapply runs_bind; [apply runs_emit|]. intros p2.
    rewrite Hdoc. cbv beta iota. rewrite Hok.
    eapply runs_bind; [apply Hrows|]. intros p3.
    eapply runs_bind.
    { left. exists 0. by rewrite next_resume_key_none, proc_eta. }
    intros p4. apply runs_ret.
  - unfold queries in *. rewrite !omap_app, Hquiet. simpl.
    by destruct (decide (verbose ≠ 0%Z)).
Qed.

Lemma fetch_loop_more fuel domain full_domain limit verbose page resume_key st root
    st' evs_rows key st'' evs_next :
  cdx page (query_url full_domain limit resume_key) = Document root →
  negb (json_is_array (Some root)) || bool_decide (json_array_size (Some root) < 2) = false →
  (∀ q, runs (row_loop st (match root with JArray items => drop 1 items | _ => [] end))
          q st' evs_rows) →
  queries evs_rows = [] →
  continuation root key → cstr key →
  (∀ q, runs (fetch_loop fuel domain full_domain limit verbose (S page) (Some key) st')
          q st'' evs_next) →
  ∃ evs,
    (∀ p, runs (fetch_loop (S fuel) domain full_domain limit verbose page resume_key st)
            p st'' evs) ∧
    queries evs = query_url full_domain limit resume_key :: queries evs_next.
Proof.
  intros Hdoc Hok Hrows Hquiet Hcont Hkey Hnext. eexists. split.
  - intros p. rewrite fetch_loop_S. cbv zeta.
    eapply runs_bind; [apply runs_when|]. intros p1.
    eapply runs_bind; [apply runs_emit|]. intros p2.
    rewrite Hdoc. cbv beta iota. rewrite Hok.
    eapply runs_bind; [apply Hrows|]. intros p3.
    eapply runs_bind; [by apply next_resume_key_some|]. intros p4.
    cbv beta iota. apply Hnext.
  - unfold queries in *. rewrite !omap_app, Hquiet. simpl.
    by destruct (decide (verbose ≠ 0%Z)).
Qed.

Lemma fetch_loop_barren fuel domain full_domain limit verbose page resume_key st :
  barren (cdx page (query_url full_domain limit resume_key)) →
  ∃ evs,
    (∀ p, runs (fetch_loop (S fuel) domain full_domain limit verbose page resume_key st)
            p st evs) ∧
    queries evs = [query_url full_domain limit resume_key].
Proof.
  intros Hbarren.
  destruct (cdx page (query_url full_domain limit resume_key)) as [msg| |msg|root] eqn:Hdoc;
    (eexists; split;
     [ intros p; rewrite fetch_loop_S; cbv zeta;
       (eapply runs_bind; [apply runs_when|]); intros p1;
       (eapply runs_bind; [apply runs_emit|]); intros p2;
       rewrite Hdoc; cbv beta iota
     | ]).
  - eapply runs_bind; [apply runs_emit|]. intros p3. apply runs_ret.
  - unfold queries. rewrite !omap_app. simpl. by destruct (decide (verbose ≠ 0%Z)).
  - apply runs_ret.
  - unfold queries. rewrite !omap_app. simpl. by destruct (decide (verbose ≠ 0%Z)).
  - eapply runs_bind; [apply runs_emit|]. intros p3. apply runs_ret.
  - unfold queries. rewrite !omap_app. simpl. by destruct (decide (verbose ≠ 0%Z)).
  - unfold barren in Hbarren. rewrite Hbarren. apply runs_ret.
  - unfold queries. rewrite !omap_app. simpl. by destruct (decide (verbose ≠ 0%Z)).
Qed.

Lemma two_pages_collected fuel domain limit verbose page1 page2 A B C key mA mB mB' mC :
  cstr A → cstr B → cstr C → cstr key →
  A ≠ [] → B ≠ [] → C ≠ [] → A ≠ B → A ≠ C → B ≠ C →
  cdx 0 (query_url (full_domain_of domain) limit None) = Document page1 →
  page_rows page1 = [(A, mA); (B, mB)] → continuation page1 key →
  cdx 1 (query_url (full_domain_of domain) limit (Some key)) = Document page2 →
  page_rows page2 = [(B, mB'); (C, mC)] →
  no_continuation page2 ∨
    (∃ key2, continuation page2 key2 ∧ cstr key2 ∧
             barren (cdx 2 (query_url (full_domain_of domain) limit (Some key2)))) →
  ∃ evs,
    (∀ p, runs (fetch_loop (S (S (S fuel))) domain (full_domain_of domain) limit verbose
                  0 None (mkLocals (mkURLSet [] 0 0) [] 0 0)) p
            (recorded (recorded (recorded (mkLocals (mkURLSet [] 0 0) [] 0 0) A mA) B mB)
               C mC)
            evs) ∧
    take 2 (queries evs) = [query_url (full_domain_of domain) limit None;
                            query_url (full_domain_of domain) limit (Some key)].
Proof.
  intros HA HB HC Hkey HAne HBne HCne HAB HAC HBC Hcdx1 Hrows1 Hcont1 Hcdx2 Hrows2 Hend.
  set (st0 := mkLocals (mkURLSet [] 0 0) [] 0 0).
  set (st1 := recorded st0 A mA). set (st2 := recorded st1 B mB).
  set (st3 := recorded st2 C mC).
  set (fd := full_domain_of domain) in *.
  assert (locals_inv st0) as Hinv0.
  { repeat split; simpl; try done. constructor. }
  assert (locals_inv st1) as Hinv1 by (apply recorded_inv; [done|apply not_elem_of_nil]).
  assert (locals_inv st2) as Hinv2.
  { apply recorded_inv; [done|]. simpl. by intros ->%list_elem_of_singleton. }
  destruct (page_rows_shape _ _ _ Hrows1) as [Hok1 Hfields1].
  destruct (page_rows_shape _ _ _ Hrows2) as [Hok2 Hfields2].
  (* the rows of the two pages *)
  assert (∀ q, runs (row_loop st0 (match page1 with JArray items => drop 1 items | _ => [] end))
                 q st2 ([progress_of A mA] ++ [progress_of B mB] ++ [])) as Hpage1.
  { intros q. eapply runs_ext; [intros q'; apply row_loop_observe|].
    rewrite Hfields1. simpl observe_rows.
    eapply runs_bind; [apply observe_url_fresh; fresh_side|]. intros p3.
    eapply runs_bind; [apply observe_url_fresh; fresh_side|]. intros p4.
    apply runs_ret. }
  assert (∀ q, runs (row_loop st2 (match page2 with JArray items => drop 1 items | _ => [] end))
                 q st3 ([] ++ [progress_of C mC] ++ [])) as Hpage2.
  { intros q. eapply runs_ext; [intros q'; apply row_loop_observe|].
    rewrite Hfields2. simpl observe_rows.
    eapply runs_bind.
    { left. exists 0. rewrite observe_url_seen; [by rewrite proc_eta|done|].
      simpl. rewrite !elem_of_cons. auto. }
    intros p7. eapply runs_bind; [apply observe_url_fresh; fresh_side|]. intros p8.
    apply runs_ret. }
  (* page 2 and what follows it *)
  assert (∃ evs2,
            (∀ p, runs (fetch_loop (S (S fuel)) domain fd limit verbose 1 (Some key) st2)
                    p st3 evs2) ∧
            take 1 (queries evs2) = [query_url fd limit (Some key)])
    as (evs2 & Hruns2 & Hq2).
  { destruct Hend as [Hno2 | (key2 & Hcont2 & Hkey2 & Hbarren)].
    - destruct (fetch_loop_last (S fuel) domain fd limit verbose 1 (Some key) st2 page2
                  st3 _ Hcdx2 Hok2 Hpage2 eq_refl Hno2) as (evs2 & Hruns2 & Hq2).
      exists evs2. split; [done|]. by rewrite Hq2.
    - destruct (fetch_loop_barren fuel domain fd limit verbose 2 (Some key2) st3 Hbarren)
        as (evs3 & Hruns3 & Hq3).
      destruct (fetch_loop_more (S fuel) domain fd limit verbose 1 (Some key) st2 page2
                  st3 _ key2 st3 evs3 Hcdx2 Hok2 Hpage2 eq_refl Hcont2 Hkey2 Hruns3)
        as (evs2 & Hruns2 & Hq2).
      exists evs2. split; [done|]. by rewrite Hq2. }
  destruct (fetch_loop_more (S (S fuel)) domain fd limit verbose 0 None st0 page1
              st2 _ key st3 evs2 Hcdx1 Hok1 Hpage1 eq_refl Hcont1 Hkey Hruns2)
    as (evs & Hruns & Hq).
  exists evs. split; [done|]. rewrite Hq. simpl. by rewrite Hq2.
Qed.


(** ** The copy and tokenizer helpers on their own *)

Lemma copy_loop_fits dest src i bound :
  cstr src → i + length (take (bound - i) src) < length dest →
  copy_loop dest src i bound =
    (take i dest ++ take (bound - i) src ++
       NUL :: drop (S (i + length (take (bound - i) src))) dest,
     i + length (take (bound - i) src)).
Proof.
  unused.
  revert dest i. induction src as [|c src IH]; intros dest i Hs Hfit; simpl.
  - rewrite take_nil in *. simpl in *. rewrite Nat.add_0_r in *.
    by rewrite insert_take_drop by lia.
  - apply cstr_cons in Hs as [Hc Hs].
    destruct (decide (i < bound)) as [Hlt|Hge].
    + rewrite bool_decide_eq_true_2 by done. rewrite bool_decide_eq_true_2 by done.
      simpl. replace (bound - i) with (S (bound - S i)) in * by lia. simpl in *.
      rewrite IH; [|done|rewrite length_insert; lia].
      rewrite Nat.add_succ_r. f_equal.
      rewrite take_S_insert by lia. rewrite drop_insert_lt by lia.
      by rewrite <-app_assoc.
    + rewrite bool_decide_eq_false_2 by done. simpl.
      replace (bound - i) with 0 in * by lia. simpl in *. rewrite Nat.add_0_r in *.
      by rewrite insert_take_drop by lia.
Qed.

(** X1.  With a size of at least 1 that the destination can hold,
    [safe_strncpy] copies the first [dest_size - 1] bytes of the source,
    or all of it when it is shorter, ends them with a terminator, returns
    their number and leaves the bytes after the terminator as they were;
    [safe_strcpy] leaves the same array. *)
Theorem safe_strncpy_bounded (dest : list ascii) (src : cstring) (dest_size : Z) :
  cstr src → (1 ≤ dest_size < 2 ^ 64)%Z → (dest_size ≤ Z.of_nat (length dest))%Z →
  let n := length src `min` (Z.to_nat dest_size - 1) in
  safe_strncpy dest src dest_size = (take n src ++ NUL :: drop (S n) dest, n) ∧
  safe_strcpy dest src dest_size = take n src ++ NUL :: drop (S n) dest ∧
  string_at (safe_strncpy dest src dest_size).1 0 = take n src ∧
  (∀ i, Z.to_nat dest_size ≤ i → (safe_strncpy dest src dest_size).1 !! i = dest !! i).
Proof.
  unused.
  intros Hs Hsize Hdest n.
  assert (size_pred dest_size = Z.to_nat dest_size - 1) as Hpred.
  { unfold size_pred. rewrite Z.mod_small by lia. lia. }
  assert (length (take (Z.to_nat dest_size - 1) src) = n) as Hn.
  { rewrite length_take. lia. }
  assert (take (Z.to_nat dest_size - 1) src = take n src) as Htake.
  { unfold n. destruct (decide (length src ≤ Z.to_nat dest_size - 1)).
    - rewrite Nat.min_l by done. by rewrite !take_ge by lia.
    - by rewrite Nat.min_r by lia. }
  assert (safe_strncpy dest src dest_size = (take n src ++ NUL :: drop (S n) dest, n)) as E.
  { unfold safe_strncpy. rewrite Hpred.
    rewrite copy_loop_fits; [|done|rewrite Nat.sub_0_r, Hn; lia].
    rewrite Nat.sub_0_r, Hn, Htake. done. }
  assert (cstr (take n src)) as Hc.
  { rewrite <-(take_drop n src) in Hs. by apply cstr_app in Hs as [? _]. }
  repeat split.
  - done.
  - unfold safe_strcpy. unfold safe_strncpy in E. by rewrite E.
  - rewrite E. simpl. apply string_at_spec. split; [done|]. by eexists [], _.
  - intros i Hi. rewrite E. simpl.
    assert (length (take n src) = n) as Hl by (rewrite length_take; lia).
    rewrite lookup_app_r by lia. rewrite Hl.
    destruct (i - n) as [|k] eqn:Ek; [lia|]. simpl.
    rewrite lookup_drop. f_equal. lia.
Qed.

(** X2.  With a size of 0 the bound [dest_size - 1] wraps around to the
    largest [size_t]: the copy is as long as the source, whatever the
    destination was meant to hold. *)
Theorem safe_strncpy_size_zero (dest : list ascii) (src : cstring) :
  cstr src → (Z.of_nat (length src) < 2 ^ 64)%Z → length src < length dest →
  safe_strncpy dest src 0 = (src ++ NUL :: drop (S (length src)) dest, length src) ∧
  safe_strcpy dest src 0 = src ++ NUL :: drop (S (length src)) dest.
Proof.
  unused.
  intros Hs Hlen Hdest.
  assert (length src ≤ size_pred 0) as Hb.
  { unfold size_pred. change ((0 - 1) `mod` 2 ^ 64)%Z with (2 ^ 64 - 1)%Z. lia. }
  assert (take (size_pred 0 - 0) src = src) as Ht by (rewrite take_ge; [done|lia]).
  assert (copy_loop dest src 0 (size_pred 0)
          = (src ++ NUL :: drop (S (length src)) dest, length src)) as E.
  { rewrite copy_loop_fits; [|done|rewrite Ht; simpl; lia]. by rewrite Ht. }
  unfold safe_strncpy, safe_strcpy. by rewrite E.
Qed.

Lemma strspn_take s d : Forall (λ c, c ∈ d) (take (strspn s d) s).
Proof.
  unused.
  induction s as [|c s IH]; simpl; [constructor|].
  case_bool_decide; simpl; [by constructor | constructor].
Qed.

Lemma strcspn_take s d : Forall (λ c, c ∉ d) (take (strcspn s d) s).
Proof.
  unused.
  induction s as [|c s IH]; simpl; [constructor|].
  case_bool_decide; simpl; [constructor | by constructor].
Qed.

Lemma next_token_split delim text :
  match next_token delim text with
  | None => Forall (λ c, c ∈ delim) text
  | Some (tok, rest) =>
      token_split delim text (take (strspn text delim) text) tok rest
  end.
Proof.
  unused.
  unfold next_token.
  pose proof (strspn_take text delim) as Hlead.
  destruct (drop (strspn text delim) text) as [|c r] eqn:E.
  - rewrite <-(take_drop (strspn text delim) text), E, app_nil_r. done.
  - pose proof (strspn_head _ _ _ _ E) as Hc.
    pose proof (strcspn_pos (c :: r) delim c r eq_refl Hc) as Hpos.
    pose proof (strcspn_take (c :: r) delim) as Htok.
    pose proof (strcspn_le (c :: r) delim) as Hle.
    split; [done|]. split.
    { intros Hnil. apply (f_equal length) in Hnil. rewrite length_take in Hnil.
      simpl in *. lia. }
    split; [done|].
    destruct (drop (strcspn (c :: r) delim) (c :: r)) as [|d r'] eqn:E'.
    + left. split; [|done].
      rewrite <-(take_drop (strspn text delim) text) at 1. rewrite E. f_equal.
      rewrite <-(take_drop (strcspn (c :: r) delim) (c :: r)) at 1.
      by rewrite E', app_nil_r.
    + right. exists d. split; [by eapply strcspn_drop|].
      rewrite <-(take_drop (strspn text delim) text) at 1. rewrite E. f_equal.
      rewrite <-(take_drop (strcspn (c :: r) delim) (c :: r)) at 1.
      by rewrite E'.
Qed.

(** X3.  A call of [safe_strtok] that starts at a text, given as [str] or
    resumed from [saveptr], returns null exactly when the text holds
    delimiters only, and then changes nothing; otherwise it skips the
    delimiters in front, returns the longest run of other bytes that
    follows, which is not empty, now terminated in place, and leaves for
    the next call what comes after the one delimiter that ended the
    token. *)
Theorem safe_strtok_token (buf : list ascii) (str saveptr : option nat) (sp : nat)
    (delim text : cstring) :
  match str with None => saveptr | Some _ => str end = Some sp →
  at_string buf sp text →
  (Forall (λ c, c ∈ delim) text ∧
   safe_strtok buf str delim saveptr = (None, buf, saveptr)) ∨
  (∃ lead tok rest buf' sp',
     token_split delim text lead tok rest ∧
     safe_strtok buf str delim saveptr = (Some (sp + length lead), buf', Some sp') ∧
     string_at buf' (sp + length lead) = tok ∧
     string_at buf' sp' = rest ∧
     length buf' = length buf).
Proof.
  unused.
  intros Hstart Hat.
  pose proof (safe_strtok_spec buf str delim saveptr sp text Hstart Hat) as Hspec.
  pose proof (next_token_split delim text) as Hsplit.
  destruct (next_token delim text) as [[tok rest]|].
  - right. destruct Hspec as (buf' & sp' & E & Htok & Hrest & _ & _ & _ & Hlen).
    exists (take (strspn text delim) text), tok, rest, buf', sp'.
    assert (length (take (strspn text delim) text) = strspn text delim) as Hl.
    { rewrite length_take. pose proof (strspn_le text delim). lia. }
    rewrite Hl. split; [exact Hsplit|]. split; [exact E|].
    split; [by apply string_at_spec|]. split; [by apply string_at_spec|done].
  - left. done.
Qed.

(** ** The response body gathered by [WriteMemoryCallback] *)

Lemma memcpy_spec dest at_ src :
  at_ + length src ≤ length dest →
  memcpy dest at_ src (length src) = take at_ dest ++ src ++ drop (at_ + length src) dest.
Proof.
  unused.
  revert dest at_. induction src as [|c src IH]; intros dest at_ Hfit; simpl in *.
  - rewrite Nat.add_0_r. by rewrite take_drop.
  - rewrite IH by (rewrite length_insert; lia).
    rewrite take_S_insert by lia. rewrite drop_insert_lt by lia.
    rewrite <-app_assoc. simpl. by rewrite Nat.add_succ_r.
Qed.

Lemma realloc_length block n : length (realloc block n) = Z.to_nat n.
Proof.
  unfold realloc. rewrite length_take, !length_app, length_replicate. lia.
Qed.

Lemma realloc_keeps block old n k :
  block = Some old → k ≤ length old → k ≤ Z.to_nat n → take k (realloc block n) = take k old.
Proof.
  intros -> Hk Hn. unfold realloc. simpl.
  rewrite take_take, Nat.min_l by done. by rewrite take_app_le.
Qed.

Lemma WriteMemoryCallback_fills mem body contents :
  holds mem body →
  (Z.of_nat (length body + length contents) + 1 < 2 ^ 64)%Z →
  let ptr := realloc (data mem) (Z.of_nat (length body + length contents) + 1) in
  <[length body + length contents := NUL]>
    (memcpy ptr (length body) contents (length contents))
  = (body ++ contents) ++ [NUL].
Proof.
  intros [Hsize Hdata] Hbound ptr.
  assert (length ptr = S (length body + length contents)) as Hlen.
  { unfold ptr. rewrite realloc_length. lia. }
  assert (take (length body) ptr = body) as Hpre.
  { destruct Hdata as [Hd|[Hd ->]]; [|done].
    unfold ptr. erewrite realloc_keeps; [|exact Hd| |lia].
    - by rewrite take_app_length.
    - rewrite length_app. simpl. lia. }
  rewrite memcpy_spec by lia. rewrite Hpre.
  assert (∃ x, drop (length body + length contents) ptr = [x]) as [x Hx].
  { destruct (drop (length body + length contents) ptr) as [|x [|y r]] eqn:E.
    - apply (f_equal length) in E. rewrite length_drop in E. simpl in E. lia.
    - by exists x.
    - apply (f_equal length) in E. rewrite length_drop in E. simpl in E. lia. }
  rewrite Hx, (assoc_L (++)).
  rewrite insert_app_r_alt by (rewrite length_app; lia).
  rewrite length_app, Nat.sub_diag. done.
Qed.

Lemma WriteMemoryCallback_succeeds mem body contents size nmemb p :
  heap (heap_calls p) = true →
  holds mem body →
  (size * nmemb = Z.of_nat (length contents))%Z →
  (Z.of_nat (length body + length contents) + 1 < 2 ^ 64)%Z →
  WriteMemoryCallback contents size nmemb mem p =
    Ret (Z.of_nat (length contents),
         mkMemoryChunk (Some ((body ++ contents) ++ [NUL]))
           (Z.of_nat (length (body ++ contents))))
      (mkProc (S (heap_calls p)) (events p)).
Proof.
  intros Hok Hholds Hreal Hbound.
  pose proof (WriteMemoryCallback_fills mem body contents Hholds Hbound) as Hfill.
  destruct Hholds as [Hsize Hdata]. destruct mem as [mem_data mem_size]. simpl in *.
  subst mem_size.
  unfold WriteMemoryCallback, bind, heap_request. rewrite Hok. simpl.
  unfold ret. f_equal. rewrite Hreal. unfold size_t.
  rewrite !Z.mod_small by lia. f_equal. f_equal.
  - f_equal. rewrite <-Nat2Z.inj_add, !Nat2Z.id.
    rewrite <-Hfill. by rewrite Nat2Z.inj_add.
  - rewrite length_app. lia.
Qed.

(** X4.  One call of the callback on a chunk that holds [body]: when the
    request to the heap succeeds the chunk holds [body] followed by the
    new bytes, terminated, and the call returns their number; when it
    fails the call returns 0 after a line on the error stream, and the
    chunk is as it was. *)
Theorem WriteMemoryCallback_appends (mem : MemoryChunk) (body contents : list ascii)
    (size nmemb : Z) (p : proc) :
  holds mem body →
  (size * nmemb = Z.of_nat (length contents))%Z →
  (Z.of_nat (length body + length contents) + 1 < 2 ^ 64)%Z →
  WriteMemoryCallback contents size nmemb mem p =
    if heap (heap_calls p)
    then Ret (Z.of_nat (length contents),
              mkMemoryChunk (Some ((body ++ contents) ++ [NUL]))
                (Z.of_nat (length (body ++ contents))))
           (mkProc (S (heap_calls p)) (events p))
    else Ret (0%Z, mem)
           (mkProc (S (heap_calls p))
              (events p ++ [Stderr (line (lit "realloc() failed"))])).
Proof.
  intros Hholds Hreal Hbound.
  destruct (heap (heap_calls p)) eqn:Hok.
  - by apply WriteMemoryCallback_succeeds.
  - destruct mem as [mem_data mem_size].
    unfold WriteMemoryCallback, bind, heap_request. by rewrite Hok.
Qed.

Lemma deliver_holds pieces mem body p :
  no_oom → holds mem body →
  (Z.of_nat (length (body ++ concat pieces)) + 1 < 2 ^ 64)%Z →
  ∃ mem',
    returns (deliver mem pieces) p ((λ piece, Z.of_nat (length piece)) <$> pieces, mem') [] ∧
    size mem' = Z.of_nat (length (body ++ concat pieces)) ∧
    data mem' = if pieces is [] then data mem else Some ((body ++ concat pieces) ++ [NUL]).
Proof.
  intros Hheap. revert mem body p.
  induction pieces as [|piece pieces IH]; intros mem body p Hholds Hbound; simpl in *.
  - exists mem. rewrite app_nil_r. split; [|by destruct Hholds].
    exists 0. by rewrite proc_eta.
  - pose proof (WriteMemoryCallback_succeeds mem body piece 1 (Z.of_nat (length piece)) p
                  (Hheap _) Hholds) as E.
    set (mem1 := mkMemoryChunk (Some ((body ++ piece) ++ [NUL]))
                   (Z.of_nat (length (body ++ piece)))) in *.
    destruct (IH mem1 (body ++ piece) (mkProc (S (heap_calls p)) (events p)))
      as (mem' & (k & Ek) & Hsize' & Hdata').
    { split; simpl; [done|by left]. }
    { by rewrite <-app_assoc. }
    exists mem'. rewrite app_assoc. split; [|split; [done|]].
    + exists (S k). unfold bind. rewrite E; [|lia|rewrite !length_app in Hbound; lia].
      simpl in *. rewrite Ek. simpl. unfold ret. do 2 f_equal. lia.
    + rewrite Hdata'. destruct pieces; [|done]. simpl. by rewrite !app_nil_r.
Qed.

(** X5.  A body delivered in pieces to an empty chunk, every request to
    the heap succeeding: each call returns the length of its piece, and
    at the end the chunk holds the pieces one after the other,
    terminated, its size their total length. *)
Theorem deliver_concat (pieces : list (list ascii)) (p : proc) :
  no_oom → pieces ≠ [] →
  (Z.of_nat (length (concat pieces)) + 1 < 2 ^ 64)%Z →
  returns (deliver (mkMemoryChunk None 0) pieces) p
    ((λ piece, Z.of_nat (length piece)) <$> pieces,
     mkMemoryChunk (Some (concat pieces ++ [NUL])) (Z.of_nat (length (concat pieces))))
    [].
Proof.
  intros Hheap Hne Hbound.
  destruct (deliver_holds pieces (mkMemoryChunk None 0) [] p Hheap)
    as (mem' & Hret & Hsize & Hdata).
  - split; simpl; [done|by right].
  - done.
  - destruct mem' as [d s]. simpl in *. subst. by destruct pieces.
Qed.

(** ** The events of a run, by kind *)

Lemma emits_ret {A} P (a : A) : emits P (ret a).
Proof. intros p. exists []. by rewrite app_nil_r. Qed.

Lemma emits_bind {A B} P (m : M A) (f : A → M B) :
  emits P m → (∀ a, emits P (f a)) → emits P (x <- m ; f x).
Proof.
  intros Hm Hf p. specialize (Hm p). unfold wp, bind in *.
  destruct (m p) as [a p1| | |]; try done.
  destruct Hm as (e1 & E1 & H1).
  specialize (Hf a p1). unfold wp in Hf.
  destruct (f a p1); try done; destruct Hf as (e2 & E2 & H2);
    exists (e1 ++ e2); rewrite E2, E1, <-app_assoc; (split; [done|]);
    by apply Forall_app.
Qed.

Lemma emits_emit (P : event → Prop) e : P e → emits P (emit e).
Proof. intros He p. exists [e]. split; [done|]. by constructor. Qed.

Lemma emits_exit {A} P status : emits P (@exit A status).
Proof. intros p. exists []. by rewrite app_nil_r. Qed.

Lemma emits_undefined {A} P : emits P (@undefined A).
Proof. by intros p. Qed.

Lemma emits_out_of_fuel {A} P : emits P (@out_of_fuel A).
Proof. by intros p. Qed.

Lemma emits_checked_alloc (P : event → Prop) what :
  P (Perror what) → emits P (checked_alloc what).
Proof.
  intros HP p. unfold wp, checked_alloc, bind, heap_request.
  destruct (heap (heap_calls p)); simpl.
  - exists []. by rewrite app_nil_r.
  - exists [Perror what]. split; [done|]. by constructor.
Qed.

Lemma emits_int_result P z : emits P (int_result z).
Proof. unfold int_result. case_decide; [apply emits_ret | apply emits_undefined]. Qed.

Lemma emits_mono {A} (P P' : event → Prop) (m : M A) :
  (∀ e, P e → P' e) → emits P m → emits P' m.
Proof.
  intros HP Hm p. eapply wp_mono; [apply Hm| |]; simpl.
  - intros _ p' (evs & E & H). exists evs. split; [done|]. by eapply Forall_impl.
  - intros p' (evs & E & H). exists evs. split; [done|]. by eapply Forall_impl.
Qed.

Ltac emits_step :=
  first
    [ apply emits_ret | apply emits_exit | apply emits_undefined
    | apply emits_out_of_fuel | apply emits_checked_alloc; done | apply emits_int_result
    | apply emits_emit; done
    | apply emits_bind; [|intros ?]
    | case_decide
    | case_match ].

Lemma emits_add_url set url : emits console (add_url set url).
Proof. unfold add_url. repeat emits_step. Qed.

Lemma emits_params_loop fuel query saveptr token params param_count :
  emits console (params_loop fuel query saveptr token params param_count).
Proof.
  revert query saveptr token params param_count.
  induction fuel as [|fuel IH]; intros query saveptr token params param_count;
    destruct token as [tok|]; simpl; try apply emits_ret; try apply emits_out_of_fuel.
  apply emits_bind; [repeat emits_step|]. intros r.
  destruct (safe_strtok _ _ _ _) as [[token' query'] saveptr']. apply IH.
Qed.

Lemma emits_extract_params query original : emits console (extract_params query original).
Proof.
  unfold extract_params. destruct (strchr original "?"); [|apply emits_ret].
  destruct (safe_strtok _ _ _ _) as [[token' query'] saveptr'].
  apply emits_params_loop.
Qed.

Lemma emits_observe_url st original mimetype :
  emits console (observe_url st original mimetype).
Proof.
  unfold observe_url. apply emits_bind; [apply emits_add_url|]. intros r.
  case_decide; [|apply emits_ret].
  apply emits_bind; [apply emits_extract_params|]. intros ps.
  repeat emits_step.
Qed.

Lemma emits_row_loop st rows : emits console (row_loop st rows).
Proof.
  revert st. induction rows as [|row rows IH]; intros st; simpl; [apply emits_ret|].
  apply emits_bind; [|apply IH].
  rewrite process_row_spec. destruct (row_fields row) as [[original mimetype]|];
    [apply emits_observe_url | apply emits_ret].
Qed.

Lemma emits_next_resume_key root : emits console (next_resume_key root).
Proof. unfold next_resume_key. repeat emits_step. Qed.

Lemma console_no_write e : console e → ¬ is_write e.
Proof. unused. destruct e; simpl; tauto. Qed.

Lemma emits_fetch_loop fuel domain full_domain limit verbose page resume_key st :
  emits (λ e, ¬ is_write e)
    (fetch_loop fuel domain full_domain limit verbose page resume_key st).
Proof.
  revert page resume_key st. induction fuel as [|fuel IH]; intros page resume_key st.
  { apply emits_out_of_fuel. }
  rewrite fetch_loop_S. cbv zeta.
  apply emits_bind.
  { case_decide; [apply emits_emit; by intros []|apply emits_ret]. }
  intros _. apply emits_bind; [apply emits_emit; by intros []|]. intros _.
  destruct (cdx page _) as [msg| |msg|root].
  - apply emits_bind; [apply emits_emit; by intros []|]. intros _. apply emits_ret.
  - apply emits_ret.
  - apply emits_bind; [apply emits_emit; by intros []|]. intros _. apply emits_ret.
  - case_match; [apply emits_ret|].
    apply emits_bind.
    { eapply emits_mono; [apply console_no_write|apply emits_row_loop]. }
    intros st'. apply emits_bind.
    { eapply emits_mono; [apply console_no_write|apply emits_next_resume_key]. }
    intros [key|]; [apply IH|apply emits_ret].
Qed.

Lemma writes_none evs : Forall (λ e, ¬ is_write e) evs → writes evs = [].
Proof.
  unused.
  induction 1 as [|e evs He _ IH]; [done|]. unfold writes in *. simpl.
  destruct e; simpl in *; tauto.
Qed.

Lemma writes_app e1 e2 : writes (e1 ++ e2) = writes e1 ++ writes e2.
Proof. unused. unfold writes. by rewrite omap_app. Qed.

Lemma queries_app e1 e2 : queries (e1 ++ e2) = queries e1 ++ queries e2.
Proof. unused. unfold queries. by rewrite omap_app. Qed.

(** ** Runs that return *)

Lemma returns_ret {A} (a : A) p : returns (ret a) p a [].
Proof. exists 0. unfold ret. by rewrite proc_eta. Qed.

Lemma returns_bind {A B} (m : M A) (f : A → M B) p a b e1 e2 :
  returns m p a e1 → (∀ p', returns (f a) p' b e2) → returns (x <- m ; f x) p b (e1 ++ e2).
Proof.
  intros [k1 H1] H2.
  destruct (H2 (mkProc (heap_calls p + k1) (events p ++ e1))) as [k2 H2'].
  exists (k1 + k2). unfold bind. rewrite H1, H2'. simpl.
  by rewrite Nat.add_assoc, <-app_assoc.
Qed.

Lemma returns_emit e p : returns (emit e) p tt [e].
Proof. exists 0. unfold emit. by rewrite Nat.add_0_r. Qed.

Lemma returns_when (c : Prop) `{Decision c} e p :
  returns (if decide c then emit e else ret tt) p tt (if decide c then [e] else []).
Proof. destruct (decide c); [apply returns_emit | apply returns_ret]. Qed.


Lemma process_domain_accepted fuel d output_file limit timeout verbose sort_desc :
  char_at d 0 ≠ NUL → (Z.of_nat (length d) ≤ MAX_DOMAIN_LEN)%Z → curl_init_ok = true →
  process_domain fuel (Some d) output_file limit timeout verbose sort_desc =
    (report <- collect_report fuel d limit verbose sort_desc ;
     if negb fopen_ok then _ <- emit (Perror (lit "fopen")) ; exit 1
     else
       _ <- emit (Written output_file (report_text report.1 report.2)) ;
       _ <- (if decide (verbose = 0%Z)
             then emit (Stdout ([LF] ++ lit "Recon complete for " ++ d ++
                                lit ". JSON output saved to " ++ line output_file))
             else ret tt) ;
       ret 0%Z).
Proof.
  intros Hd Hlen Hcurl. unfold process_domain.
  rewrite bool_decide_eq_false_2 by done.
  rewrite bool_decide_eq_false_2 by lia. simpl. by rewrite Hcurl.
Qed.



(** ** A first response that carries nothing *)

Lemma fetch_loop_barren_returns fuel domain full_domain limit verbose page resume_key st :
  barren (cdx page (query_url full_domain limit resume_key)) →
  ∃ evs,
    (∀ p, returns (fetch_loop (S fuel) domain full_domain limit verbose page resume_key st)
            p st evs) ∧
    queries evs = [query_url full_domain limit resume_key] ∧
    writes evs = [].
Proof.
  intros Hbarren.
  destruct (cdx page (query_url full_domain limit resume_key)) as [msg| |msg|root] eqn:Hdoc;
    (eexists; split;
     [ intros p; rewrite fetch_loop_S; cbv zeta;
       (eapply returns_bind; [apply returns_when|]); intros p1;
       (eapply returns_bind; [apply returns_emit|]); intros p2;
       rewrite Hdoc; cbv beta iota
     | ]).
  - eapply returns_bind; [apply returns_emit|]. intros p3. apply returns_ret.
  - rewrite !queries_app, !writes_app. simpl. by destruct (decide (verbose ≠ 0%Z)).
  - apply returns_ret.
  - rewrite !queries_app, !writes_app. simpl. by destruct (decide (verbose ≠ 0%Z)).
  - eapply returns_bind; [apply returns_emit|]. intros p3. apply returns_ret.
  - rewrite !queries_app, !writes_app. simpl. by destruct (decide (verbose ≠ 0%Z)).
  - unfold barren in Hbarren. rewrite Hbarren. apply returns_ret.
  - rewrite !queries_app, !writes_app. simpl. by destruct (decide (verbose ≠ 0%Z)).
Qed.

(** X7.  When the first request fails, or its answer is empty, cannot be
    parsed, or is not an array of at least two rows, [process_domain]
    still returns 0: it has sent that one request and has written the
    output file, which holds an empty array. *)
Theorem first_response_barren (fuel : nat) (d output_file : cstring)
    (limit timeout verbose sort_desc : Z) (p : proc) :
  char_at d 0 ≠ NUL → (Z.of_nat (length d) ≤ MAX_DOMAIN_LEN)%Z →
  curl_init_ok = true → fopen_ok = true →
  barren (cdx 0 (query_url (full_domain_of d) limit None)) →
  ∃ evs,
    returns (process_domain (S fuel) (Some d) output_file limit timeout verbose sort_desc)
      p 0%Z evs ∧
    queries evs = [query_url (full_domain_of d) limit None] ∧
    writes evs = [(output_file, ["["%char; LF; LF; "]"%char; LF])].
Proof.
  intros Hd Hlen Hcurl Hfopen Hbarren.
  destruct (fetch_loop_barren_returns fuel d (full_domain_of d) limit verbose 0 None
              (mkLocals (mkURLSet [] 0 0) [] 0 0) Hbarren) as (evs & Hfetch & Hq & Hw).
  rewrite process_domain_accepted by done. rewrite Hfopen. simpl negb. cbv iota.
  eexists. split; [|split].
  - eapply returns_bind.
    { unfold collect_report. eapply returns_bind; [apply Hfetch|]. intros p1.
      apply returns_ret. }
    intros p1. eapply returns_bind; [apply returns_emit|]. intros p2.
    eapply returns_bind; [apply returns_when|]. intros p3. apply returns_ret.
  - rewrite !queries_app, Hq. simpl. by destruct (decide (verbose = 0%Z)).
  - rewrite !writes_app, Hw. simpl. by destruct (decide (verbose = 0%Z)).
Qed.

(** ** The counters and the capacities *)

Lemma add_url_within set url p :
  (0 ≤ count set ≤ capacity set)%Z →
  wp (add_url set url) p (λ r _, (0 ≤ count r.2 ≤ capacity r.2)%Z) (λ _, True).
Proof.
  intros Hc. unfold add_url. destruct url as [u|]; [|done].
  case_decide; [done|]. case_match; [done|].
  unfold wp, bind, checked_alloc, bind, heap_request, int_result, ret, emit, exit,
    undefined.
  repeat (case_decide || case_match || simplify_eq/=); try done.
  all: rewrite ?max_spec; unfold INITIAL_CAPACITY, INT_MAX in *; lia.
Qed.

Lemma observe_url_within st original mimetype p :
  within_capacity st →
  wp (observe_url st original mimetype) p (λ st' _, within_capacity st') (λ _, True).
Proof.
  intros [Hs He]. unfold observe_url. apply wp_bind.
  eapply wp_mono; [by apply add_url_within| |done]. simpl.
  intros r p1 Hr. case_decide; [|by apply wp_ret].
  apply wp_bind.
  assert (∀ {A} (m : M A) q, wp m q (λ _ _, True) (λ _, True)) as Htriv.
  { intros A m q. unfold wp. by destruct (m q). }
  eapply wp_mono; [apply Htriv| |done]. simpl. intros ps p2 _.
  apply wp_bind, wp_emit. apply wp_bind.
  case_decide.
  - apply wp_bind, wp_int_result. apply wp_bind, wp_checked_alloc; [|done]. apply wp_ret.
    apply wp_bind, wp_checked_alloc; [|done].
    apply wp_bind, wp_checked_alloc; [|done].
    apply wp_bind, wp_int_result. apply wp_ret. split; simpl; [done|].
    rewrite max_spec. unfold INITIAL_CAPACITY. lia.
  - apply wp_ret.
    apply wp_bind, wp_checked_alloc; [|done].
    apply wp_bind, wp_checked_alloc; [|done].
    apply wp_bind, wp_int_result. apply wp_ret. split; simpl; [done|]. lia.
Qed.

Lemma row_loop_within st rows p :
  within_capacity st →
  wp (row_loop st rows) p (λ st' _, within_capacity st') (λ _, True).
Proof.
  revert st p. induction rows as [|row rows IH]; intros st p Hst; simpl; [done|].
  apply wp_bind. rewrite process_row_spec.
  destruct (row_fields row) as [[original mimetype]|].
  - eapply wp_mono; [by apply observe_url_within| |done]. simpl. intros st' p' Hst'.
    by apply IH.
  - apply wp_ret. by apply IH.
Qed.

(** X8.  Through the whole page loop the number of strings in the set
    stays within the capacity of its array, and the number of endpoints
    within the capacity of theirs: every new entry is stored inside the
    block that [realloc] returned. *)
Theorem counters_within_capacity (fuel : nat) (domain full_domain : cstring)
    (limit verbose : Z) (page : nat) (resume_key : option cstring) (st : locals)
    (p : proc) :
  within_capacity st →
  wp (fetch_loop fuel domain full_domain limit verbose page resume_key st) p
    (λ st' _, within_capacity st') (λ _, True).
Proof.
  revert page resume_key st p.
  induction fuel as [|fuel IH]; intros page resume_key st p Hst; [done|].
  rewrite fetch_loop_S. cbv zeta.
  apply wp_bind. case_decide; [apply wp_emit|apply wp_ret].
  all: apply wp_bind, wp_emit.
  all: destruct (cdx page _) as [msg| |msg|root];
    [ by apply wp_bind, wp_emit, wp_ret | by apply wp_ret
    | by apply wp_bind, wp_emit, wp_ret | ].
  all: case_match; [by apply wp_ret|].
  all: apply wp_bind; (eapply wp_mono; [by apply row_loop_within| |done]); simpl.
  all: intros st' p' Hst'; apply wp_bind; unfold next_resume_key.
  all: repeat case_match; try (apply wp_ret; by apply wp_ret).
  all: apply wp_bind, wp_checked_alloc; [|done]; apply wp_ret; by apply IH.
Qed.

(** ** The report of a whole run *)

Lemma json_cstr_array items : json_cstr (JArray items) ↔ Forall json_cstr items.
Proof.
  unused.
  induction items as [|x items IH]; simpl in *.
  - split; [constructor|done].
  - rewrite Forall_cons. by rewrite <-IH.
Qed.

Lemma row_fields_cstr row original mimetype :
  json_cstr row → row_fields row = Some (original, mimetype) → cstr original.
Proof.
  unused.
  destruct row as [| | | | | |cells|]; try done.
  destruct cells as [|[] [|c1 [|c2 [|c3 cells]]]]; try done.
  intros [H _] [= <- _]. done.
Qed.

Lemma rows_cstr rows :
  Forall json_cstr rows → Forall (λ r, cstr r.1) (omap row_fields rows).
Proof.
  unused.
  induction 1 as [|row rows Hrow _ IH]; simpl; [constructor|].
  destruct (row_fields row) as [[original mimetype]|] eqn:E; [|done].
  constructor; [|done]. simpl. by eapply row_fields_cstr.
Qed.

Lemma trailing_cell_cstr root cell :
  json_cstr root → trailing_cell root = Some cell → json_cstr cell.
Proof.
  unused.
  destruct root as [| | | | | |rows|]; try done. simpl.
  intros Hrows%json_cstr_array.
  destruct (last rows) as [row|] eqn:Hlast; [|done].
  apply last_Some_elem_of in Hlast.
  destruct row as [| | | | | |cells|]; try done.
  intros Hcell%last_Some_elem_of.
  rewrite Forall_forall in Hrows. apply Hrows in Hlast.
  apply json_cstr_array in Hlast. rewrite Forall_forall in Hlast. by apply Hlast.
Qed.

Lemma token_of_Some root key :
  json_cstr root → token_of root = Some key → continuation root key ∧ cstr key.
Proof.
  unused.
  intros Hroot. unfold token_of, continuation.
  destruct (trailing_cell root) as [cell|] eqn:E; [|done].
  pose proof (trailing_cell_cstr root cell Hroot E) as Hcell.
  destruct cell; try done. case_decide as Hk; [|done]. intros [= <-].
  destruct Hk. done.
Qed.

Lemma token_of_None root : token_of root = None → no_continuation root.
Proof.
  unused.
  unfold token_of, no_continuation.
  destruct (trailing_cell root) as [[]|]; try done.
  case_decide as Hk; [done|]. intros _.
  destruct (decide (s = [])); [by left|]. destruct (decide (s = lit "null")); [by right|].
  destruct Hk. done.
Qed.

Lemma observe_url_empty st mimetype p : observe_url st [] mimetype p = Ret st p.
Proof.
  unfold observe_url, bind. rewrite add_url_empty. simpl. by rewrite locals_eta.
Qed.

Lemma fresh_rows_app seen rows1 rows2 :
  fresh_rows seen (rows1 ++ rows2) =
    fresh_rows seen rows1 ++ fresh_rows (seen ++ (fresh_rows seen rows1).*1) rows2.
Proof.
  unused.
  revert seen. induction rows1 as [|[original mimetype] rows1 IH]; intros seen; simpl.
  - by rewrite app_nil_r.
  - case_decide; [apply IH|]. simpl. rewrite IH. by rewrite <-app_assoc.
Qed.

Lemma fresh_rows_length seen rows : length (fresh_rows seen rows) ≤ length rows.
Proof.
  unused.
  revert seen. induction rows as [|[original mimetype] rows IH]; intros seen; simpl; [done|].
  case_decide; simpl.
  - specialize (IH seen). lia.
  - specialize (IH (seen ++ [original])). lia.
Qed.

(** The locals after the rows [rows] have each brought a new endpoint. *)
Lemma recorded_all st rows :
  let st' := foldl (λ s r, recorded s r.1 r.2) st rows in
  urls (seen st') = urls (seen st) ++ rows.*1 ∧
  endpoints st' = endpoints st ++ (uncurry endpoint_of <$> rows) ∧
  endpoint_count st' = (endpoint_count st + Z.of_nat (length rows))%Z.
Proof.
  unused.
  revert st. induction rows as [|[original mimetype] rows IH]; intros st; simpl.
  - rewrite !app_nil_r. split; [done|]. split; [done|lia].
  - destruct (IH (recorded st original mimetype)) as (H1 & H2 & H3). simpl in *.
    rewrite H1, H2, H3, <-!app_assoc. split; [done|]. split; [done|lia].
Qed.

Lemma observe_rows_fresh rows st :
  locals_inv st → Forall cstr (urls (seen st)) → Forall (λ r, cstr r.1) rows →
  (2 * (endpoint_count st + Z.of_nat (length rows)) ≤ INT_MAX)%Z →
  let new := fresh_rows (urls (seen st)) rows in
  (∀ p, runs (observe_rows st rows) p (foldl (λ s r, recorded s r.1 r.2) st new)
          ((λ r, progress_of r.1 r.2) <$> new)) ∧
  locals_inv (foldl (λ s r, recorded s r.1 r.2) st new) ∧
  Forall cstr (urls (seen (foldl (λ s r, recorded s r.1 r.2) st new))).
Proof.
  clear indeterminate.
  revert st. induction rows as [|[original mimetype] rows IH];
    intros st Hinv Hcs Hrows Hbound; simpl.
  { split; [|done]. intros p. apply runs_ret. }
  apply Forall_cons in Hrows as [Hc Hrows]. simpl in Hc. cbn [length] in Hbound.
  assert (0 ≤ endpoint_count st)%Z as Hpos by (destruct Hinv as (_ & -> & _); lia).
  case_decide as Hold.
  - destruct (IH st Hinv Hcs Hrows) as (Hruns & Hinv' & Hcs'); [lia|].
    split; [|done]. intros p.
    eapply (runs_bind _ _ _ _ _ []); [|intros p'; apply Hruns].
    left. exists 0. rewrite proc_eta.
    destruct Hold as [->|Hin]; [apply observe_url_empty|by apply observe_url_seen].
  - assert (original ≠ [] ∧ original ∉ urls (seen st)) as [Hne Hfresh] by tauto.
    destruct (IH (recorded st original mimetype)) as (Hruns & Hinv' & Hcs').
    + by apply recorded_inv.
    + simpl. apply Forall_app. split; [done|]. by constructor.
    + done.
    + simpl. lia.
    + simpl in *. split; [|done]. intros p.
      eapply (runs_bind _ _ _ _ _ [_]); [|intros p'; apply Hruns].
      apply observe_url_fresh; try done. lia.
Qed.

Lemma progress_quiet (rows : list (cstring * option cstring)) :
  queries ((λ r, progress_of r.1 r.2) <$> rows) = [].
Proof. unused. by induction rows. Qed.

Lemma fetch_loop_collects fuel domain full_domain limit verbose page resume_key st :
  documents_cstr →
  walk_ends fuel full_domain limit page resume_key = true →
  locals_inv st → Forall cstr (urls (seen st)) →
  (2 * (endpoint_count st +
        Z.of_nat (length (visited_rows fuel full_domain limit page resume_key)))
   ≤ INT_MAX)%Z →
  ∃ evs,
    (∀ p, runs (fetch_loop fuel domain full_domain limit verbose page resume_key st) p
            (foldl (λ s r, recorded s r.1 r.2) st
               (fresh_rows (urls (seen st))
                  (visited_rows fuel full_domain limit page resume_key)))
            evs) ∧
    queries evs = visited_requests fuel full_domain limit page resume_key.
Proof.
  intros Hdocs. revert page resume_key st.
  induction fuel as [|fuel IH]; intros page resume_key st Hends Hinv Hcs Hbound; [done|].
  cbn [visited_rows walk_ends visited_requests] in Hends, Hbound |- *.
  destruct (cdx page (query_url full_domain limit resume_key)) as [msg| |msg|root] eqn:Hdoc.
  1-3: destruct (fetch_loop_barren fuel domain full_domain limit verbose page resume_key st)
         as (evs & Hruns & Hq); [by rewrite Hdoc|by exists evs].
  assert (json_cstr root) as Hroot by (by eapply Hdocs).
  destruct root as [| | | | | |[|header [|row rows]]|].
  1-8, 10: destruct (fetch_loop_barren fuel domain full_domain limit verbose page
                       resume_key st) as (evs & Hruns & Hq); [by rewrite Hdoc|by exists evs].
  set (root := JArray (header :: row :: rows)) in *.
  set (page_rows := omap row_fields (row :: rows)) in *.
  assert (Forall (λ r, cstr r.1) page_rows) as Hrows.
  { apply rows_cstr. apply json_cstr_array in Hroot. by apply Forall_cons in Hroot as [_ ?]. }
  rewrite fresh_rows_app, foldl_app.
  rewrite length_app in Hbound.
  destruct (observe_rows_fresh page_rows st Hinv Hcs Hrows) as (Hobs & Hinv' & Hcs'); [lia|].
  set (new := fresh_rows (urls (seen st)) page_rows) in *.
  set (st' := foldl (λ s r, recorded s r.1 r.2) st new) in *.
  assert (∀ q, runs (row_loop st (match root with JArray items => drop 1 items | _ => [] end))
                 q st' ((λ r, progress_of r.1 r.2) <$> new)) as Hpage.
  { intros q. eapply runs_ext; [intros q'; apply row_loop_observe|]. apply Hobs. }
  destruct (recorded_all st new) as (Hurls & _ & Hcount). fold st' in Hurls, Hcount.
  pose proof (fresh_rows_length (urls (seen st)) page_rows) as Hnew. fold new in Hnew.
  destruct (token_of root) as [key|] eqn:Htoken.
  - destruct (token_of_Some root key Hroot Htoken) as [Hcont Hkey].
    destruct (IH (S page) (Some key) st') as (evs' & Hnext & Hq'); [done|done|done| |].
    { rewrite Hcount. lia. }
    rewrite <-Hurls.
    destruct (fetch_loop_more fuel domain full_domain limit verbose page resume_key st root
                st' _ key _ evs' Hdoc eq_refl Hpage (progress_quiet new) Hcont Hkey Hnext)
      as (evs & Hruns & Hq).
    exists evs. split; [done|]. by rewrite Hq, Hq'.
  - cbn [fresh_rows foldl].
    destruct (fetch_loop_last fuel domain full_domain limit verbose page resume_key st root
                st' _ Hdoc eq_refl Hpage (progress_quiet new) (token_of_None root Htoken))
      as (evs & Hruns & Hq).
    by exists evs.
Qed.

Lemma visited_rows_cstr fuel full_domain limit page resume_key :
  documents_cstr →
  Forall (λ r, cstr r.1) (visited_rows fuel full_domain limit page resume_key).
Proof.
  intros Hdocs. revert page resume_key.
  induction fuel as [|fuel IH]; intros page resume_key; cbn [visited_rows]; [constructor|].
  destruct (cdx page _) as [| | |root] eqn:Hdoc; try constructor.
  assert (json_cstr root) as Hroot by (by eapply Hdocs).
  destruct root as [| | | | | |[|header [|row rows]]|]; try constructor.
  apply Forall_app. split.
  - apply rows_cstr. apply json_cstr_array in Hroot. by apply Forall_cons in Hroot as [_ ?].
  - destruct (token_of _); [apply IH|constructor].
Qed.

Lemma fresh_rows_Forall (P : cstring * option cstring → Prop) seen rows :
  Forall P rows → Forall P (fresh_rows seen rows).
Proof.
  unused.
  intros H. revert seen. induction H as [|[original mimetype] rows Hr _ IH]; intros seen;
    simpl; [constructor|].
  case_decide; [apply IH|]. constructor; [done|apply IH].
Qed.

Lemma returns_writes_none {A} (m : M A) p a evs :
  emits (λ e, ¬ is_write e) m → returns m p a evs → writes evs = [].
Proof.
  intros Hm [k E]. specialize (Hm p). unfold wp in Hm. rewrite E in Hm.
  destruct Hm as (evs' & E' & H). simpl in E'. apply app_inv_head in E' as ->.
  by apply writes_none.
Qed.

(** X9.  A run over any number of pages, with enough fuel for the walk
    and room in the counters: [process_domain] returns 0 and writes one
    file, the report of exactly one record for each distinct non-empty
    URL among the rows of the pages visited, with the method and the
    parameters of its first occurrence, sorted by URL in the configured
    direction.  The requests sent are those of the walk: the first asks
    for a token, each later one carries the token of the page before.
    The report is what the collecting part of [process_domain] hands to
    the writer.  Between the brackets the file holds the texts that
    [json_dumps] gives for the records, in the order of the report:
    joined by a comma and a newline when the first record is formatted,
    each after a comma and a newline when it is not.  Every record is
    formatted from the object of its URL (left out when it is not UTF-8),
    its method, and those of its parameter names that are UTF-8: a name
    cut inside a character is in the record but not in the file. *)
Theorem report_of_all_pages (fuel : nat) (d output_file : cstring)
    (limit timeout verbose sort_desc : Z) (p : proc) :
  no_oom → sorts qsort → curl_init_ok = true → fopen_ok = true → documents_cstr →
  char_at d 0 ≠ NUL → (Z.of_nat (length d) ≤ MAX_DOMAIN_LEN)%Z →
  walk_ends fuel (full_domain_of d) limit 0 None = true →
  (2 * Z.of_nat (length (visited_rows fuel (full_domain_of d) limit 0 None)) ≤ INT_MAX)%Z →
  let new := fresh_rows [] (visited_rows fuel (full_domain_of d) limit 0 None) in
  ∃ report evs,
    returns (process_domain fuel (Some d) output_file limit timeout verbose sort_desc)
      p 0%Z evs ∧
    writes evs = [(output_file, report_text report (Z.of_nat (length new)))] ∧
    queries evs = visited_requests fuel (full_domain_of d) limit 0 None ∧
    report ≡ₚ uncurry endpoint_of <$> new ∧
    (sort_desc = 0%Z → Sorted (λ a b, lex_le (url a) (url b)) report) ∧
    (sort_desc ≠ 0%Z → Sorted (λ a b, lex_le (url b) (url a)) report) ∧
    (∃ evs0, returns (collect_report fuel d limit verbose sort_desc) p
               (report, Z.of_nat (length new)) evs0) ∧
    writes evs = [(output_file,
                   line (lit "[") ++ records_text report ++ [LF] ++ line (lit "]"))] ∧
    Forall (λ e, endpoint_json e = record_object e) report.
Proof.
  intros Hheap Hsorts Hcurl Hfopen Hdocs Hd Hlen Hends Hbound new.
  set (st0 := mkLocals (mkURLSet [] 0 0) [] 0 0).
  assert (locals_inv st0) as Hinv0.
  { repeat split; simpl; try done. constructor. }
  destruct (fetch_loop_collects fuel d (full_domain_of d) limit verbose 0 None st0 Hdocs
              Hends Hinv0) as (evs0 & Hfetch & Hrequests); [constructor|simpl; lia|].
  simpl in Hfetch. fold new in Hfetch.
  set (st' := foldl (λ s r, recorded s r.1 r.2) st0 new) in *.
  destruct (recorded_all st0 new) as (_ & Hendpoints & Hcount).
  fold st' in Hendpoints, Hcount. simpl in Hendpoints, Hcount.
  set (eps := uncurry endpoint_of <$> new) in *.
  assert (endpoint_count st' = Z.of_nat (length eps)) as Hcount'.
  { unfold eps. rewrite length_fmap. lia. }
  assert (Forall (λ e, cstr (url e)) eps) as Hcs.
  { unfold eps. apply Forall_fmap.
    eapply Forall_impl; [apply fresh_rows_Forall, visited_rows_cstr, Hdocs|].
    by intros [original mimetype]. }
  destruct (sort_endpoints_lex eps sort_desc Hsorts Hcs) as (Hperm & Hasc & Hdesc).
  exists (sort_endpoints sort_desc eps (Z.of_nat (length eps))).
  assert (returns (collect_report fuel d limit verbose sort_desc) p
            (sort_endpoints sort_desc eps (Z.of_nat (length eps)), Z.of_nat (length eps))
            (evs0 ++ [])) as Hcollect.
  { unfold collect_report. eapply returns_bind.
    - apply runs_returns; [done|apply Hfetch].
    - intros p1. rewrite Hendpoints, Hcount'. apply returns_ret. }
  assert (writes evs0 = []) as Hw0.
  { eapply returns_writes_none; [apply emits_fetch_loop|].
    apply runs_returns; [done|apply (Hfetch p)]. }
  assert (length eps = length new) as Hnew by (unfold eps; by rewrite length_fmap).
  rewrite process_domain_accepted by done. rewrite Hfopen. simpl negb. cbv iota.
  eexists. split; [|split; [|split; [|split; [done|split; [|split; [|split; [|split]]]]]]].
  - eapply returns_bind; [exact Hcollect|]. intros p1.
    eapply returns_bind; [apply returns_emit|]. intros p2.
    eapply returns_bind; [apply returns_when|]. intros p3. apply returns_ret.
  - rewrite !writes_app, Hw0. cbn [fst snd]. simpl. rewrite Hnew.
    by destruct (decide (verbose = 0%Z)).
  - rewrite !queries_app, Hrequests. simpl.
    destruct (decide (verbose = 0%Z)); simpl; by rewrite !app_nil_r.
  - intros E. by apply Hasc.
  - intros E. by apply Hdesc.
  - eexists. rewrite <-Hnew. exact Hcollect.
  - rewrite !writes_app, Hw0. cbn [fst snd].
    rewrite report_text_records by (by rewrite Hperm).
    by destruct (decide (verbose = 0%Z)).
  - rewrite Hperm. unfold eps. apply Forall_fmap, Forall_forall.
    intros [original mimetype] _. apply endpoint_of_object.
Qed.
(** ** Two pages: the report *)

(** C6.  When the first page yields the URLs [A] and [B] and a token, and
    the page fetched with that token yields [B] again and [C] and no
    token, the run requests those two pages and writes the report of the
    three records of [A], [B] and [C], each once, sorted by URL in the
    configured direction.  The second page carries no token when its last
    cell is absent, not a string, empty or ["null"]; the report is the
    same when that page ends with a cell that is read as a token and the
    archive answers the request made with it by a response without
    rows.  The report is what the collecting part of [process_domain]
    hands to the writer, with the count 3, and it is the only file
    written: between the brackets it holds the texts that [json_dumps]
    gives for the three records, in the order of the report, each record
    as the object of its URL, its method and its parameter names. *)
Theorem two_pages_end_to_end (fuel : nat) (domain output_file : cstring)
    (limit timeout verbose sort_desc : Z) (page1 page2 : json_t)
    (A B C key : cstring) (mA mB mB' mC : option cstring) (p : proc) :
  no_oom → sorts qsort → curl_init_ok = true → fopen_ok = true →
  cstr domain → domain ≠ [] → (Z.of_nat (length domain) ≤ MAX_DOMAIN_LEN)%Z →
  cstr A → cstr B → cstr C → cstr key →
  A ≠ [] → B ≠ [] → C ≠ [] → A ≠ B → A ≠ C → B ≠ C →
  cdx 0 (query_url (full_domain_of domain) limit None) = Document page1 →
  page_rows page1 = [(A, mA); (B, mB)] → continuation page1 key →
  cdx 1 (query_url (full_domain_of domain) limit (Some key)) = Document page2 →
  page_rows page2 = [(B, mB'); (C, mC)] →
  no_continuation page2 ∨
    (∃ key2, continuation page2 key2 ∧ cstr key2 ∧
             barren (cdx 2 (query_url (full_domain_of domain) limit (Some key2)))) →
  ∃ report evs,
    returns (process_domain (S (S (S fuel))) (Some domain) output_file limit timeout
               verbose sort_desc) p 0%Z evs ∧
    Written output_file (report_text report 3) ∈ evs ∧
    take 2 (queries evs) = [query_url (full_domain_of domain) limit None;
                            query_url (full_domain_of domain) limit (Some key)] ∧
    report ≡ₚ [endpoint_of A mA; endpoint_of B mB; endpoint_of C mC] ∧
    (sort_desc = 0%Z → Sorted (λ a b, lex_le (url a) (url b)) report) ∧
    (sort_desc ≠ 0%Z → Sorted (λ a b, lex_le (url b) (url a)) report) ∧
    (∃ evs0, returns (collect_report (S (S (S fuel))) domain limit verbose sort_desc)
               p (report, 3%Z) evs0) ∧
    writes evs = [(output_file,
                   line (lit "[") ++ records_text report ++ [LF] ++ line (lit "]"))] ∧
    Forall (λ e, endpoint_json e = record_object e) report.
Proof.
  intros Hh Hq Hcurl Hfopen Hdom Hdne Hdlen HA HB HC Hkey HAne HBne HCne HAB HAC HBC
    Hcdx1 Hrows1 Hcont1 Hcdx2 Hrows2 Hno2.
  set (st0 := mkLocals (mkURLSet [] 0 0) [] 0 0).
  set (st3 := recorded (recorded (recorded st0 A mA) B mB) C mC).
  set (eps := [endpoint_of A mA; endpoint_of B mB; endpoint_of C mC]).
  assert (endpoints st3 = eps) as Heps by done.
  assert (endpoint_count st3 = Z.of_nat (length eps)) as Hcount by done.
  exists (sort_endpoints sort_desc eps (Z.of_nat (length eps))).
  destruct (two_pages_collected fuel domain limit verbose page1 page2 A B C key
              mA mB mB' mC) as (evs & Hfetch & Hqueries); try done.
  assert (Forall (λ e, cstr (url e)) eps) as Hcs.
  { unfold eps. by repeat (apply Forall_cons; split; [done|]). }
  destruct (sort_endpoints_lex eps sort_desc Hq Hcs) as (Hperm & Hasc & Hdesc).
  assert (returns (collect_report (S (S (S fuel))) domain limit verbose sort_desc) p
            (sort_endpoints sort_desc eps (Z.of_nat (length eps)), 3%Z) (evs ++ []))
    as Hcollect.
  { unfold collect_report. eapply returns_bind.
    - apply runs_returns; [done|apply Hfetch].
    - intros p1. exact (returns_ret _ p1). }
  assert (writes evs = []) as Hw0.
  { eapply returns_writes_none; [apply emits_fetch_loop|].
    apply runs_returns; [done|apply (Hfetch p)]. }
  assert (length (sort_endpoints sort_desc eps (Z.of_nat (length eps))) = 3) as Hlen3.
  { by rewrite Hperm. }
  rewrite process_domain_accepted; [|by apply char_at_cstr|done|done].
  rewrite Hfopen. simpl negb. cbv iota.
  eexists. split; [|split; [|split; [|split; [done|split; [|split; [|split; [|split]]]]]]].
  - eapply returns_bind; [exact Hcollect|]. intros p1.
    eapply returns_bind; [apply returns_emit|]. intros p2.
    eapply returns_bind; [apply returns_when|]. intros p3. apply returns_ret.
  - rewrite !elem_of_app. right. left. by apply list_elem_of_singleton.
  - unfold queries in *. rewrite !omap_app, <-!app_assoc.
    by apply take_app_known.
  - intros E. by apply Hasc.
  - intros E. by apply Hdesc.
  - eexists. exact Hcollect.
  - rewrite !writes_app, Hw0. cbn [fst snd].
    rewrite report_text_records by (by rewrite Hlen3).
    by destruct (decide (verbose = 0%Z)).
  - rewrite Hperm. unfold eps.
    repeat (apply Forall_cons; split; [apply endpoint_of_object|]). constructor.
Qed.

(** ** The last cell of the last row *)

Lemma wp_any {A} (m : M A) p (Q : A → proc → Prop) :
  (∀ a p', Q a p') → wp m p Q (λ _, True).
Proof. intros HQ. unfold wp. by destruct (m p). Qed.

Lemma wp_grows {A} (m : M A) p e :
  emits (λ _, True) m → e ∈ events p →
  wp m p (λ _ p', e ∈ events p') (λ _, True).
Proof.
  intros Hm He. eapply wp_mono; [apply (Hm p)| |done]. simpl.
  intros _ p' (evs & -> & _). apply elem_of_app. by left.
Qed.

Lemma fetch_loop_first_query fuel domain full_domain limit verbose page resume_key st p :
  wp (fetch_loop (S fuel) domain full_domain limit verbose page resume_key st) p
    (λ _ p', Query (query_url full_domain limit resume_key) ∈ events p') (λ _, True).
Proof.
  rewrite fetch_loop_S. cbv zeta.
  apply wp_bind. case_decide; [apply wp_emit|apply wp_ret].
  all: apply wp_bind, wp_emit.
  all: apply wp_grows; [|simpl; rewrite !elem_of_app, !list_elem_of_singleton; auto].
  all: destruct (cdx page _) as [msg| |msg|root].
  all: try apply emits_ret.
  all: try (apply emits_bind; [by apply emits_emit|]; intros _; apply emits_ret).
  all: case_match; [apply emits_ret|].
  all: apply emits_bind;
    [eapply emits_mono; [|apply emits_row_loop]; done|].
  all: intros st'; apply emits_bind;
    [eapply emits_mono; [|apply emits_next_resume_key]; done|].
  all: intros [key|]; [|apply emits_ret].
  all: eapply emits_mono; [|apply emits_fetch_loop]; done.
Qed.

(** X10.  The token is read from the last cell of the last row whatever
    that row is.  A page that ends with an ordinary data row whose last
    cell is a string, not empty and not ["null"], its mimetype say, makes
    the loop go on: whenever the run returns, it has sent a further
    request with that string as [resumeKey]. *)
Theorem last_cell_taken_for_token (fuel : nat) (domain full_domain : cstring)
    (limit verbose : Z) (page : nat) (resume_key : option cstring) (st : locals)
    (header : json_t) (rows : list json_t) (original m : cstring) (c1 c2 : json_t)
    (p : proc) :
  cdx page (query_url full_domain limit resume_key)
    = Document (JArray (header :: rows ++ [JArray [JString original; c1; c2; JString m]])) →
  cstr m → m ≠ [] → m ≠ lit "null" →
  wp (fetch_loop (S (S fuel)) domain full_domain limit verbose page resume_key st) p
    (λ _ p', Query (query_url full_domain limit (Some m)) ∈ events p') (λ _, True).
Proof.
  intros Hdoc Hm Hne Hnull.
  set (root := JArray (header :: rows ++ [JArray [JString original; c1; c2; JString m]])) in *.
  assert (continuation root m) as Hcont.
  { split; [|done]. unfold root, trailing_cell.
    change (header :: rows ++ [JArray [JString original; c1; c2; JString m]])
      with ((header :: rows) ++ [JArray [JString original; c1; c2; JString m]]).
    by rewrite last_snoc. }
  assert (negb (json_is_array (Some root)) || bool_decide (json_array_size (Some root) < 2)
          = false) as Hok.
  { simpl. rewrite bool_decide_eq_false_2; [done|]. rewrite length_app. simpl. lia. }
  rewrite fetch_loop_S. cbv zeta.
  apply wp_bind. destruct (decide (verbose ≠ 0%Z)); [apply wp_emit|apply wp_ret].
  all: apply wp_bind, wp_emit.
  all: rewrite Hdoc; cbv beta iota; rewrite Hok.
  all: apply wp_bind, wp_any; intros st' p1.
  all: apply wp_bind.
  all: destruct (next_resume_key_some root m p1 Hcont Hm) as [[k E]|(failed & p' & _ & E)];
    unfold wp at 1; rewrite E; [|done].
  all: apply fetch_loop_first_query.
Qed.

(** ** The text of the report *)

(** X11.  When [json_dumps] formats the first record, the file holds an
    opening bracket, the texts of the records that could be formatted,
    in order, with a comma and a newline between one and the next, and the
    closing bracket: a record that cannot be formatted leaves no trace.
    The same holds when no record at all can be formatted. *)
Theorem report_text_joined (endpoints : list Endpoint) :
  (∀ e, head endpoints = Some e →
        is_Some (json_dumps (endpoint_json e) (Z.lor (JSON_INDENT 2) JSON_ENSURE_ASCII)) ∨
        dumped endpoints = []) →
  report_text endpoints (Z.of_nat (length endpoints))
  = line (lit "[") ++ joined (dumped endpoints) ++ [LF] ++ line (lit "]").
Proof.
  intros Hfirst. unfold report_text. rewrite Nat2Z.id, firstn_all. do 2 f_equal.
  destruct endpoints as [|e endpoints]; [done|].
  destruct (Hfirst e eq_refl) as [[json_str E]|Hnone].
  - rewrite (write_records_first _ _ json_str) by done.
    assert (dumped (e :: endpoints) = json_str :: dumped endpoints) as ->.
    { unfold dumped. cbn [omap list_omap]. by rewrite E. }
    rewrite joined_cons. f_equal. by apply write_records_rest.
  - rewrite Hnone.
    destruct (json_dumps (endpoint_json e) (Z.lor (JSON_INDENT 2) JSON_ENSURE_ASCII))
      as [json_str|] eqn:E.
    { unfold dumped in Hnone. cbn [omap list_omap] in Hnone. by rewrite E in Hnone. }
    assert (dumped endpoints = []) as Hrest.
    { unfold dumped in *. cbn [omap list_omap] in Hnone. by rewrite E in Hnone. }
    rewrite write_records_skip by done. rewrite write_records_rest by done.
    by rewrite Hrest.
Qed.

(** ** The method and the mimetype *)

(** X12.  For a given URL the mimetype can only choose between GET and
    the one other method that the URL determines: a URL that is not GET
    without a mimetype has the same method with any mimetype, and two
    mimetypes that both lead away from GET lead to the same method. *)
Theorem mimetype_only_leaves_GET (url : cstring) (m1 m2 : option cstring) :
  (infer_method (Some url) None ≠ lit "GET" →
   infer_method (Some url) m1 = infer_method (Some url) None) ∧
  (infer_method (Some url) m1 ≠ lit "GET" → infer_method (Some url) m2 ≠ lit "GET" →
   infer_method (Some url) m1 = infer_method (Some url) m2).
Proof.
  unused.
  unfold infer_method.
  set (U := non_null (strstr url (lit "login")) || non_null (strstr url (lit "submit")) ||
            non_null (strstr url (lit "upload")) || non_null (strstr url (lit "create")) ||
            non_null (strstr url (lit "update")) || non_null (strstr url (lit "delete")) ||
            non_null (strstr url (lit "api")) || non_null (strstr url (lit "json")) ||
            non_null (strstr url (lit "graphql"))).
  set (V := if non_null (strstr url (lit "update")) || non_null (strstr url (lit "patch"))
            then lit "PUT"
            else if non_null (strstr url (lit "delete")) ||
                    non_null (strstr url (lit "remove"))
                 then lit "DELETE" else lit "POST").
  cbv zeta.
  change (non_null (strstr (lit "") (lit "json"))) with false.
  change (non_null (strstr (lit "") (lit "xml"))) with false.
  change (non_null (strstr (lit "") (lit "form"))) with false.
  rewrite !orb_false_r.
  destruct U; simpl; [done|].
  split; [done|].
  destruct m1 as [m1|], m2 as [m2|]; simpl;
    repeat match goal with |- context [non_null ?x] => destruct (non_null x) end;
    simpl; done.
Qed.

(** ** The domain that is queried *)

(** X13.  For a domain that [process_domain] accepts, the text put in the
    request is the domain itself when it holds [://], and the domain
    after [http://] otherwise; the array of 261 bytes never cuts it. *)
Theorem full_domain_of_accepted (d : cstring) :
  cstr d → (Z.of_nat (length d) ≤ MAX_DOMAIN_LEN)%Z →
  (contains d (lit "://") → full_domain_of d = d) ∧
  (¬ contains d (lit "://") → full_domain_of d = lit "http://" ++ d) ∧
  (Z.of_nat (length (full_domain_of d)) ≤ MAX_DOMAIN_LEN + 7)%Z.
Proof.
  unused.
  intros Hd Hlen. unfold MAX_DOMAIN_LEN in *.
  assert (contains d (lit "://") → full_domain_of d = d) as Hwith.
  { intros Hc. apply strstr_contains in Hc. unfold full_domain_of. rewrite Hc.
    unfold safe_strcpy.
    assert (size_pred (MAX_DOMAIN_LEN + 8) = 260) as -> by done.
    rewrite copy_loop_spec;
      [|done|lia|rewrite length_replicate; unfold MAX_DOMAIN_LEN; lia].
    simpl fst. rewrite (take_ge d) by lia.
    apply string_at_spec. split; [done|]. by eexists [], _. }
  assert (¬ contains d (lit "://") → full_domain_of d = lit "http://" ++ d) as Hwithout.
  { intros Hc. unfold full_domain_of.
    destruct (non_null (strstr d (lit "://"))) eqn:E.
    - by apply strstr_contains in E.
    - rewrite take_ge; [done|]. rewrite length_app. simpl. lia. }
  split; [done|]. split; [done|].
  destruct (non_null (strstr d (lit "://"))) eqn:E.
  - rewrite Hwith by (by apply strstr_contains). lia.
  - rewrite Hwithout.
    + rewrite length_app. simpl. lia.
    + intros Hc%strstr_contains. congruence.
Qed.

(** ** The options of [main] *)

Lemma atol_returns s p v p' : atol s p = Ret v p' → p' = p ∧ (- LONG_MAX - 1 ≤ v ≤ LONG_MAX)%Z.
Proof.
  unused.
  unfold atol. cbv zeta. case_decide as Hv; [|done]. unfold ret. by intros [= <- <-].
Qed.

Lemma parse_args_validated_upto n prog_name args o p o' p' :
  length args ≤ n → validated o →
  parse_args prog_name args o p = Ret (inl o') p' →
  validated o' ∧ p' = p.
Proof.
  unused.
  revert args o. induction n as [|n IH]; intros args o Hn Hval.
  { destruct args; [|simpl in Hn; lia]. simpl. unfold ret. by intros [= <- <-]. }
  destruct args as [|arg rest]; [simpl; unfold ret; by intros [= <- <-]|].
  simpl in Hn. destruct Hval as (Hl & Ht & Hv & Hs & Hd).
  cbn [parse_args].
  repeat case_match; simplify_eq/=;
    unfold bind, print_help, emit, ret; simpl;
    try done;
    try (intros E; eapply IH in E;
         [exact E|simpl in *; lia|unfold validated; simpl; intuition lia]).
  - destruct (atol _ p) as [v p1| | |] eqn:Ea; try done.
    apply atol_returns in Ea as [-> Hrange].
    case_match eqn:Ev; [done|].
    apply orb_false_iff in Ev as [E1%bool_decide_eq_false E2%bool_decide_eq_false].
    intros E; eapply IH in E; [exact E|simpl in *; lia|].
    unfold validated; simpl; intuition lia.
  - destruct (atol _ p) as [v p1| | |] eqn:Ea; try done.
    apply atol_returns in Ea as [-> Hrange].
    case_match eqn:Ev; [done|]. apply bool_decide_eq_false in Ev.
    intros E; eapply IH in E; [exact E|simpl in *; lia|].
    unfold validated; simpl; intuition lia.
  - intros E; eapply IH in E; [exact E|simpl in *; lia|].
    unfold validated; simpl. repeat split; auto; try lia. by intros d [= <-].
Qed.

(** X14.  When the option loop runs to its end it has printed nothing,
    and the settings it leaves are within bounds: a limit from 1 to
    150000, a timeout of at least one second, [verbose] and [sort_desc] 0
    or 1, and a domain, if any, that does not begin with a dash. *)
Theorem parse_args_validated (prog_name : cstring) (args : list cstring) (o : options)
    (p p' : proc) :
  parse_args prog_name args initial_options p = Ret (inl o) p' →
  validated o ∧ p' = p.
Proof.
  unused.
  apply (parse_args_validated_upto (length args)); [done|].
  unfold validated, initial_options, LONG_MAX. simpl. repeat split; auto; lia.
Qed.

Lemma strcmp_dash arg :
  strcmp arg (lit "-") = 0%Z →
  arg = lit "-" ∨ ∃ junk, arg = "-"%char :: NUL :: junk.
Proof.
  unused.
  destruct arg as [|c tl]; simpl; [done|].
  case_decide as Hc.
  - subst c. simpl. destruct tl as [|x tl]; simpl; [by left|].
    intros Hx. right. exists tl. do 2 f_equal. apply uchar_NUL. lia.
  - intros Hx. destruct Hc. apply uchar_inj. lia.
Qed.

Lemma parse_args_dash prog_name arg rest o p :
  strcmp arg (lit "-") = 0%Z →
  ∃ p', parse_args prog_name (arg :: rest) o p = Ret (inr 1%Z) p'.
Proof.
  unused.
  intros [->|[junk ->]]%strcmp_dash; cbn [parse_args].
  - change (is_option (lit "-") "-h" "--help") with false.
    change (is_option (lit "-") "-o" "--output") with false.
    change (is_option (lit "-") "-l" "--limit") with false.
    change (is_option (lit "-") "-t" "--timeout") with false.
    change (is_option (lit "-") "-v" "--verbose") with false.
    change (is_option (lit "-") "-s" "--sort") with false.
    cbv iota. rewrite decide_True by done. by eexists.
  - assert (is_option ("-"%char :: NUL :: junk) "-h" "--help" = false) as -> by done.
    assert (is_option ("-"%char :: NUL :: junk) "-o" "--output" = false) as -> by done.
    assert (is_option ("-"%char :: NUL :: junk) "-l" "--limit" = false) as -> by done.
    assert (is_option ("-"%char :: NUL :: junk) "-t" "--timeout" = false) as -> by done.
    assert (is_option ("-"%char :: NUL :: junk) "-v" "--verbose" = false) as -> by done.
    assert (is_option ("-"%char :: NUL :: junk) "-s" "--sort" = false) as -> by done.
    cbv iota. rewrite decide_True by done. by eexists.
Qed.

(** X15.  Standard input is read only when there is no argument at all.
    With any argument the run does not depend on the input: an argument
    [-] in first place is refused as an unknown option, so the test for
    it after the loop never succeeds. *)
Theorem stdin_read_without_arguments_only (fuel : nat) (prog_name : cstring)
    (args : list cstring) (stdin stdin' : list ascii) (p : proc) :
  args ≠ [] →
  main fuel prog_name args stdin p = main fuel prog_name args stdin' p ∧
  (∀ arg1 rest, args = arg1 :: rest → strcmp arg1 (lit "-") = 0%Z →
     ∃ p', main fuel prog_name args stdin p = Ret 1%Z p').
Proof.
  intros Hargs. destruct args as [|arg1 rest]; [done|]. clear Hargs.
  unfold main, bind. split.
  - destruct (parse_args prog_name (arg1 :: rest) initial_options p)
      as [[o|status] p1| | |] eqn:E; try done.
    case_bool_decide as Hdash; [|done].
    destruct (parse_args_dash prog_name arg1 rest initial_options p Hdash) as [p' E'].
    congruence.
  - intros ? ? [= <- <-] Hdash.
    destruct (parse_args_dash prog_name arg1 rest initial_options p Hdash) as [p' ->].
    by exists p'.
Qed.

(** ** Pipe mode *)

Lemma emits_fetch_loop_any (P : event → Prop) fuel domain full_domain limit verbose page
    resume_key st :
  (∀ e, console e → P e) → (∀ key, P (Query (query_url full_domain limit key))) →
  emits P (fetch_loop fuel domain full_domain limit verbose page resume_key st).
Proof.
  intros Hconsole Hquery.
  revert page resume_key st. induction fuel as [|fuel IH]; intros page resume_key st.
  { apply emits_out_of_fuel. }
  rewrite fetch_loop_S. cbv zeta.
  apply emits_bind.
  { case_decide; [apply emits_emit; by apply Hconsole|apply emits_ret]. }
  intros _. apply emits_bind; [apply emits_emit, Hquery|]. intros _.
  destruct (cdx page _) as [msg| |msg|root].
  - apply emits_bind; [apply emits_emit; by apply Hconsole|]. intros _. apply emits_ret.
  - apply emits_ret.
  - apply emits_bind; [apply emits_emit; by apply Hconsole|]. intros _. apply emits_ret.
  - case_match; [apply emits_ret|].
    apply emits_bind.
    { eapply emits_mono; [apply Hconsole|apply emits_row_loop]. }
    intros st'. apply emits_bind.
    { eapply emits_mono; [apply Hconsole|apply emits_next_resume_key]. }
    intros [key|]; [apply IH|apply emits_ret].
Qed.

Lemma emits_process_domain (P : event → Prop) fuel domain output_file limit timeout
    verbose sort_desc :
  (∀ e, console e → P e) →
  (∀ d key, P (Query (query_url (full_domain_of d) limit key))) →
  (∀ text, P (Written output_file text)) →
  emits P (process_domain fuel domain output_file limit timeout verbose sort_desc).
Proof.
  intros Hconsole Hquery Hwrite. unfold process_domain.
  destruct domain as [d|];
    [|apply emits_bind; [by apply emits_emit, Hconsole|intros _; apply emits_ret]].
  case_match;
    [apply emits_bind; [by apply emits_emit, Hconsole|intros _; apply emits_ret]|].
  case_match;
    [apply emits_bind; [by apply emits_emit, Hconsole|intros _; apply emits_ret]|].
  apply emits_bind.
  { unfold collect_report. apply emits_bind; [by apply emits_fetch_loop_any|].
    intros st. apply emits_ret. }
  intros report. case_match.
  { apply emits_bind; [by apply emits_emit, Hconsole|intros _; apply emits_exit]. }
  apply emits_bind; [apply emits_emit, Hwrite|]. intros _.
  apply emits_bind; [|intros _; apply emits_ret].
  destruct (decide (verbose = 0%Z)); [by apply emits_emit, Hconsole|apply emits_ret].
Qed.

Lemma wp_after {A} (m : M A) p p1 (P : event → Prop) (Q : A → Prop) evs1 :
  events p1 = events p ++ evs1 → Forall P evs1 →
  wp m p1 (λ a p', Q a ∧ ∃ evs, events p' = events p1 ++ evs ∧ Forall P evs) (λ _, True) →
  wp m p1 (λ a p', Q a ∧ ∃ evs, events p' = events p ++ evs ∧ Forall P evs) (λ _, True).
Proof.
  intros E1 H1 Hm. unfold wp in *. destruct (m p1) as [a p'| | |]; try done.
  destruct Hm as (HQ & evs & E & H). split; [done|].
  exists (evs1 ++ evs). rewrite E, E1, <-app_assoc. split; [done|]. by apply Forall_app.
Qed.

Lemma read_domains_turn (k : M Z) fuel d p :
  (∀ q, wp k q (λ status p', status = 0%Z ∧
                             ∃ evs, events p' = events q ++ evs ∧ Forall pipe_event evs)
          (λ _, True)) →
  wp (_ <- emit (Stdout ([LF] ++ lit "=== Processing: " ++ d ++ line (lit " ==="))) ;
      status <- process_domain fuel (Some d) (output_file initial_options)
                  (limit initial_options) (timeout initial_options)
                  (verbose initial_options) (sort_desc initial_options) ;
      _ <- (if decide (status ≠ 0%Z)
            then emit (Stderr (line (lit "Failed to process " ++ d)))
            else ret tt) ;
      k) p
    (λ status p', status = 0%Z ∧
                  ∃ evs, events p' = events p ++ evs ∧ Forall pipe_event evs)
    (λ _, True).
Proof.
  intros Hk.
  assert (∀ e, console e → pipe_event e) as Hconsole by (by intros []).
  assert (∀ d key, pipe_event (Query (query_url (full_domain_of d)
                                        (limit initial_options) key))) as Hquery.
  { intros d' key. by exists d', key. }
  pose proof (emits_process_domain pipe_event fuel (Some d) (output_file initial_options)
                (limit initial_options) (timeout initial_options)
                (verbose initial_options) (sort_desc initial_options)
                Hconsole Hquery ltac:(done)) as Hdomain.
  apply wp_bind, wp_emit. apply wp_bind.
  eapply wp_mono; [apply Hdomain| |done].
  cbv beta. intros status p2 (evs2 & E2 & H2). cbn [events] in E2.
  apply wp_bind.
  destruct (decide (status ≠ 0%Z)); [apply wp_emit|apply wp_ret].
  - eapply (wp_after _ p _ pipe_event (λ status, status = 0%Z)); [| |apply Hk].
    + cbn [events]. rewrite E2. by rewrite <-!app_assoc.
    + apply Forall_app. split; [by repeat constructor|].
      apply Forall_app. split; [done|by repeat constructor].
  - eapply (wp_after _ p _ pipe_event (λ status, status = 0%Z)); [| |apply Hk].
    + rewrite E2. by rewrite <-!app_assoc.
    + apply Forall_app. split; [by repeat constructor|done].
Qed.

(** X16.  In pipe mode, that is without arguments, [main] returns 0
    whenever it returns, whatever became of the single domains; every
    request it made used the default limit of 100000, and every report
    was written to the one default file [endpoints.json], a later domain
    over an earlier one. *)
Theorem pipe_mode_run (fuel : nat) (prog_name : cstring) (stdin : list ascii) (p : proc) :
  wp (main fuel prog_name [] stdin) p
    (λ status p', status = 0%Z ∧
                  ∃ evs, events p' = events p ++ evs ∧ Forall pipe_event evs)
    (λ _, True).
Proof.
  unfold main. apply wp_bind. cbn [parse_args]. apply wp_ret.
  generalize (length stdin) as turns. intros turns. revert stdin p.
  induction turns as [|turns IH]; intros stdin p.
  { cbn [read_domains]. destruct (fgets MAX_LINE_LEN stdin) as [[bytes stdin']|]; [done|].
    split; [done|]. exists []. by rewrite app_nil_r. }
  cbn [read_domains]. destruct (fgets MAX_LINE_LEN stdin) as [[bytes stdin']|].
  2: { split; [done|]. exists []. by rewrite app_nil_r. }
  cbv zeta.
  destruct (decide (strcspn (read_string bytes) [CR; LF] = 0)); [apply IH|].
  match goal with |- wp (if ?c then _ else _) _ _ _ => destruct c end.
  - apply wp_bind, wp_emit.
    eapply (wp_after _ p _ pipe_event (λ status, status = 0%Z) [_]);
      [done|by repeat constructor|apply IH].
  - apply read_domains_turn. intros q. apply IH.
Qed.

(** ** The lines of the input *)

Lemma fgets_bytes_line n pre rest :
  LF ∉ pre → length pre < n → fgets_bytes n (pre ++ LF :: rest) = (pre ++ [LF], rest).
Proof.
  unused.
  revert n. induction pre as [|c pre IH]; intros n Hpre Hn; simpl in *.
  - destruct n; [lia|]. done.
  - destruct n; [lia|]. apply not_elem_of_cons in Hpre as [Hc Hpre]. simpl.
    rewrite decide_False by done. rewrite IH by (done || lia). done.
Qed.

Lemma fgets_bytes_full n pre rest :
  LF ∉ pre → length pre = n → fgets_bytes n (pre ++ rest) = (pre, rest).
Proof.
  unused.
  revert n. induction pre as [|c pre IH]; intros n Hpre Hn; simpl in *.
  - subst n. by destruct rest.
  - destruct n; [lia|]. apply not_elem_of_cons in Hpre as [Hc Hpre]. simpl.
    rewrite decide_False by done. rewrite IH by (done || lia). done.
Qed.

Lemma fgets_line size pre rest :
  LF ∉ pre → length pre < Z.to_nat size - 1 →
  fgets size (pre ++ LF :: rest) = Some (pre ++ [LF], rest).
Proof.
  unused.
  intros Hpre Hn. unfold fgets.
  destruct (pre ++ LF :: rest) as [|c input] eqn:E; [by destruct pre|].
  rewrite <-E. by rewrite fgets_bytes_line.
Qed.

Lemma fgets_full size pre rest :
  LF ∉ pre → pre ≠ [] → length pre = Z.to_nat size - 1 →
  fgets size (pre ++ rest) = Some (pre, rest).
Proof.
  unused.
  intros Hpre Hne Hn. unfold fgets.
  destruct (pre ++ rest) as [|c input] eqn:E; [by destruct pre|].
  rewrite <-E. by rewrite fgets_bytes_full.
Qed.

Lemma fgets_rest size pre :
  LF ∉ pre → pre ≠ [] → length pre ≤ Z.to_nat size - 1 →
  fgets size pre = Some (pre, []).
Proof.
  unused.
  intros Hpre Hne Hn. unfold fgets. destruct pre as [|c pre'] eqn:E; [done|].
  rewrite <-E in *. clear E Hne. f_equal.
  generalize (Z.to_nat size - 1) as n, Hn. clear Hn.
  induction pre as [|x pre IH]; intros n Hn; [by destruct n|].
  destruct n; [simpl in Hn; lia|]. apply not_elem_of_cons in Hpre as [Hx Hpre]. simpl.
  rewrite decide_False by done. rewrite IH; [done|done|simpl in Hn; lia].
Qed.

Lemma read_string_cstr s : cstr s → read_string s = s.
Proof.
  unused.
  induction s as [|c s IH]; [done|]. intros [Hc Hs]%cstr_cons. simpl.
  rewrite decide_False by done. by rewrite IH.
Qed.

Lemma strcspn_stop pre c rest reject :
  Forall (λ x, x ∉ reject) pre → c ∈ reject → strcspn (pre ++ c :: rest) reject = length pre.
Proof.
  unused.
  intros Hpre Hc. induction Hpre as [|x pre Hx _ IH]; simpl.
  - by rewrite bool_decide_eq_true_2.
  - rewrite bool_decide_eq_false_2 by done. by rewrite IH.
Qed.

Lemma strcspn_all s reject : Forall (λ x, x ∉ reject) s → strcspn s reject = length s.
Proof.
  unused.
  induction 1 as [|x s Hx _ IH]; simpl; [done|].
  rewrite bool_decide_eq_false_2 by done. by rewrite IH.
Qed.

Lemma domain_buf_copy junk text n :
  cstr text → 0 < n → n ≤ length text → n < Z.to_nat MAX_LINE_LEN →
  string_at
    (safe_strncpy
       (take (Z.to_nat MAX_LINE_LEN) (junk ++ replicate (Z.to_nat MAX_LINE_LEN) NUL))
       text (Z.of_nat n + 1)).1 0
  = take n text.
Proof.
  unused.
  intros Htext Hpos Hn Hmax. unfold safe_strncpy.
  assert (size_pred (Z.of_nat n + 1) = n) as ->.
  { unfold size_pred. rewrite Z.mod_small; [lia|]. unfold MAX_LINE_LEN in Hmax. lia. }
  rewrite copy_loop_spec; [|done|lia|].
  2: { rewrite length_take, length_app, length_replicate. lia. }
  cbn [fst]. rewrite Nat.sub_0_r. apply string_at_spec. split.
  - rewrite <-(take_drop n text) in Htext. by apply cstr_app in Htext as [? _].
  - by eexists [], _.
Qed.

(** X17.  In pipe mode a line that holds a domain of 1 to 253 bytes,
    ended by a newline, by a carriage return and a newline, or by the end
    of the input, is processed as that domain, the line end removed: the
    banner, the run of [process_domain] on it with the settings in force,
    a line on the error stream if that run did not return 0, and then the
    rest of the input. *)
Theorem read_domains_line (turns fuel : nat) (o : options) (d eol rest : list ascii)
    (p : proc) :
  Forall (λ c, c ∉ [NUL; CR; LF]) d → 1 ≤ length d ≤ 253 →
  eol = [LF] ∨ eol = [CR; LF] ∨ (eol = [] ∧ rest = []) →
  read_domains (S turns) fuel o (d ++ eol ++ rest) p =
    (_ <- emit (Stdout ([LF] ++ lit "=== Processing: " ++ d ++ line (lit " ==="))) ;
     status <- process_domain fuel (Some d) (output_file o) (limit o) (timeout o)
                 (verbose o) (sort_desc o) ;
     _ <- (if decide (status ≠ 0%Z)
           then emit (Stderr (line (lit "Failed to process " ++ d)))
           else ret tt) ;
     read_domains turns fuel o rest) p.
Proof.
  intros Hd Hlen Heol.
  assert (cstr d) as Hcstr.
  { unfold cstr. intros Hin. rewrite Forall_forall in Hd. apply Hd in Hin.
    apply Hin. by left. }
  assert (Forall (λ c, c ∉ [CR; LF]) d) as Hline.
  { eapply Forall_impl; [exact Hd|]. intros c Hc Hin. apply Hc. by right. }
  assert (LF ∉ d) as Hlf.
  { intros Hin. rewrite Forall_forall in Hd. apply Hd in Hin. apply Hin.
    right. right. by left. }
  set (bytes := d ++ eol).
  assert (fgets MAX_LINE_LEN (d ++ eol ++ rest) = Some (bytes, rest)) as Hread.
  { unfold bytes. destruct Heol as [-> | [-> | [-> ->]]].
    - apply fgets_line; [done|]. unfold MAX_LINE_LEN. lia.
    - change ([CR; LF] ++ rest) with ([CR] ++ LF :: rest).
      rewrite (assoc_L (++) d [CR] (LF :: rest)), fgets_line.
      + by rewrite <-app_assoc.
      + intros [?|Hin]%elem_of_app; [done|].
        apply list_elem_of_singleton in Hin. done.
      + rewrite length_app. unfold MAX_LINE_LEN. simpl. lia.
    - rewrite !app_nil_r. apply fgets_rest; [done| |unfold MAX_LINE_LEN; lia].
      intros ->. simpl in Hlen. lia. }
  assert (cstr bytes) as Hbytes.
  { unfold bytes. apply cstr_app. split; [done|].
    destruct Heol as [-> | [-> | [-> ->]]]; unfold cstr;
      rewrite ?elem_of_cons, elem_of_nil; intros H; repeat destruct H as [H|H]; done. }
  assert (strcspn bytes [CR; LF] = length d) as Hcspn.
  { unfold bytes. destruct Heol as [-> | [-> | [-> ->]]].
    - apply strcspn_stop; [done|]. right. by left.
    - apply strcspn_stop; [done|]. by left.
    - rewrite app_nil_r. by apply strcspn_all. }
  assert (take (length d) bytes = d) as Htake.
  { unfold bytes. by rewrite take_app_length. }
  cbn [read_domains]. rewrite Hread. cbv zeta.
  rewrite (read_string_cstr bytes Hbytes), Hcspn.
  rewrite decide_False by lia.
  rewrite domain_buf_copy; [|done|lia| |unfold MAX_LINE_LEN; lia].
  2: { unfold bytes. rewrite length_app. lia. }
  rewrite Htake.
  rewrite bool_decide_eq_false_2 by lia.
  rewrite bool_decide_eq_false_2 by (unfold MAX_DOMAIN_LEN; lia).
  done.
Qed.

(** X18.  A line is read in pieces of at most 4095 bytes.  When the
    input begins with 4095 bytes that hold no line end and no NUL, that
    piece is refused as a domain that is too long, and what follows it on
    the same line is then read as a line of its own. *)
Theorem read_domains_long_line (turns fuel : nat) (o : options) (piece rest : list ascii)
    (p : proc) :
  Forall (λ c, c ∉ [NUL; CR; LF]) piece → length piece = 4095 →
  read_domains (S turns) fuel o (piece ++ rest) p =
    (_ <- emit (Stderr (line (lit "Invalid domain: empty or too long"))) ;
     read_domains turns fuel o rest) p.
Proof.
  intros Hpiece Hlen.
  assert (cstr piece) as Hcstr.
  { unfold cstr. intros Hin. rewrite Forall_forall in Hpiece. apply Hpiece in Hin.
    apply Hin. by left. }
  assert (Forall (λ c, c ∉ [CR; LF]) piece) as Hline.
  { eapply Forall_impl; [exact Hpiece|]. intros c Hc Hin. apply Hc. by right. }
  assert (LF ∉ piece) as Hlf.
  { intros Hin. rewrite Forall_forall in Hpiece. apply Hpiece in Hin. apply Hin.
    right. right. by left. }
  assert (fgets MAX_LINE_LEN (piece ++ rest) = Some (piece, rest)) as Hread.
  { apply fgets_full; [done| |unfold MAX_LINE_LEN; lia].
    intros ->. simpl in Hlen. lia. }
  cbn [read_domains]. rewrite Hread. cbv zeta.
  rewrite (read_string_cstr piece Hcstr), (strcspn_all piece) by done.
  rewrite decide_False by lia.
  rewrite domain_buf_copy; [|done|lia|lia|unfold MAX_LINE_LEN; lia].
  rewrite firstn_all.
  rewrite bool_decide_eq_false_2 by lia.
  rewrite bool_decide_eq_true_2 by (unfold MAX_DOMAIN_LEN; lia).
  done.
Qed.

(** ** The names of the parameters *)

Lemma split_on_sizes sep s :
  sum_list (length <$> split_on sep s) + length (split_on sep s) = S (length s).
Proof.
  unused.
  induction s as [|c s IH]; [done|]. cbn [split_on length].
  destruct (split_on sep s) as [|tok toks]; case_decide;
    cbn [fmap list_fmap sum_list sum_list_with length] in *; unfold id in *; lia.
Qed.

Lemma split_on_no_sep sep s tok :
  tok ∈ split_on sep s → (sep ∉ tok) ∧ ∀ x, x ∈ tok → x ∈ s.
Proof.
  unused.
  revert tok. induction s as [|c s IH]; intros tok; simpl.
  - intros ->%list_elem_of_singleton. split; [apply not_elem_of_nil|done].
  - case_decide as Hc.
    + intros [->|Hin]%elem_of_cons.
      * split; [apply not_elem_of_nil|]. by intros x ?%elem_of_nil.
      * destruct (IH tok Hin) as [H1 H2]. split; [done|]. intros x Hx. right. by apply H2.
    + destruct (split_on sep s) as [|tok' toks] eqn:E.
      * intros ->%list_elem_of_singleton. split.
        -- by intros ->%list_elem_of_singleton.
        -- intros x ->%list_elem_of_singleton. by left.
      * intros [->|Hin]%elem_of_cons.
        -- destruct (IH tok') as [H1 H2]; [by left|]. split.
           ++ intros [?|?]%elem_of_cons; [by subst|done].
           ++ intros x [->|Hx]%elem_of_cons; [by left|right; by apply H2].
        -- destruct (IH tok) as [H1 H2]; [by right|]. split; [done|].
           intros x Hx. right. by apply H2.
Qed.

Lemma before_first_part c s : (c ∉ before_first c s) ∧ ∀ x, x ∈ before_first c s → x ∈ s.
Proof.
  unused.
  induction s as [|y s [IH1 IH2]]; simpl.
  - split; [apply not_elem_of_nil|done].
  - case_decide as Hy.
    + split; [apply not_elem_of_nil|]. by intros x ?%elem_of_nil.
    + split.
      * intros [?|?]%elem_of_cons; [by subst|done].
      * intros x [->|Hx]%elem_of_cons; [by left|right; by apply IH2].
Qed.

Lemma split_on_length sep s tok : tok ∈ split_on sep s → length tok ≤ length s.
Proof.
  unused.
  intros Hin. pose proof (split_on_sizes sep s) as Hsizes.
  apply list_elem_of_split in Hin as (l1 & l2 & E). rewrite E in Hsizes.
  rewrite fmap_app, sum_list_with_app, length_app in Hsizes.
  cbn [fmap list_fmap sum_list sum_list_with length] in Hsizes. unfold id in *. lia.
Qed.

Lemma before_first_length c s : length (before_first c s) ≤ length s.
Proof.
  unused.
  induction s as [|y s IH]; simpl; [done|]. case_decide; simpl; lia.
Qed.

Lemma nonempty_count (l : list cstring) :
  2 * length (filter (λ t, nonempty t = true) l) ≤ sum_list (length <$> l) + length l.
Proof.
  unused.
  induction l as [|t l IH]; [done|]. rewrite filter_cons, fmap_cons.
  unfold sum_list in *. cbn [sum_list_with]. unfold id at 1.
  destruct t as [|c t]; case_decide; try done; cbn [length] in *; lia.
Qed.

Lemma names_of_query_facts q :
  2 * length (names_of_query q) ≤ S (length q) ∧
  Forall (λ name, name ≠ [] ∧ ("&"%char ∉ name) ∧ ("="%char ∉ name) ∧
                  (∀ x, x ∈ name → x ∈ q) ∧ length name ≤ length q) (names_of_query q).
Proof.
  unused.
  unfold names_of_query. split.
  - pose proof (nonempty_count (split_on "&"%char q)) as Hcount.
    rewrite split_on_sizes in Hcount.
    pose proof (length_filter (λ n : cstring, nonempty n = true)
                  (before_first "="%char <$>
                   filter (λ t, nonempty t = true) (split_on "&"%char q))) as Hnames.
    rewrite length_fmap in Hnames. lia.
  - apply Forall_forall. intros name [Hne Hin]%list_elem_of_filter.
    apply list_elem_of_fmap in Hin as (tok & -> & [_ Htok]%list_elem_of_filter).
    destruct (split_on_no_sep _ _ _ Htok) as [Hsep Hsub].
    destruct (before_first_part "="%char tok) as [Heq Hpart].
    split; [by destruct (before_first _ tok)|]. split; [|split; [done|split]].
    + intros Hin. by apply Hsep, Hpart.
    + intros x Hx. by apply Hsub, Hpart.
    + pose proof (before_first_length "="%char tok).
      pose proof (split_on_length _ _ _ Htok). lia.
Qed.

(** X20.  Whatever the URL, at most 256 parameter names are extracted
    from it; none of them is empty, none holds [&], [=] or a NUL, and
    each is at most 511 bytes long. *)
Theorem extracted_names_bounded (query : list ascii) (original : cstring) (p : proc) :
  no_oom → cstr original → length query = Z.to_nat MAX_PARAM_LEN →
  ∃ names,
    returns (extract_params query original) p (names, Z.of_nat (length names)) [] ∧
    length names ≤ 256 ∧
    Forall (λ name, name ≠ [] ∧ ("&"%char ∉ name) ∧ ("="%char ∉ name) ∧ cstr name ∧
                    length name ≤ 511) names.
Proof.
  clear indeterminate.
  intros Hheap Hc Hq. exists (parameters_spec original).
  split; [apply runs_returns; [done|by apply extract_params_spec]|].
  unfold parameters_spec. destruct (after_first "?"%char original) as [q|] eqn:Hafter.
  2: { split; [simpl; lia|constructor]. }
  assert (∀ x, x ∈ q → x ∈ original) as Hsub.
  { clear -Hafter. revert q Hafter. induction original as [|y s IH]; intros q; [done|].
    simpl. case_decide.
    - intros [= <-] x Hx. by right.
    - intros Hq x Hx. right. by eapply IH. }
  set (cut := take (Z.to_nat MAX_PARAM_LEN - 1) q).
  assert (length cut ≤ 511) as Hcut.
  { unfold cut. rewrite length_take. change (Z.to_nat MAX_PARAM_LEN - 1) with 511. lia. }
  destruct (names_of_query_facts cut) as [Hcount Hnames]. split; [lia|].
  eapply Forall_impl; [exact Hnames|]. cbv beta.
  intros name (Hne & Hamp & Heq & Hpart & Hlen). repeat split; try done; [|lia].
  intros Hnul. apply Hc, Hsub. apply Hpart in Hnul. unfold cut in Hnul.
  by apply elem_of_take in Hnul as (? & ?%list_elem_of_lookup_2 & _).
Qed.

(** ** The text of a request *)

Lemma decimal_within_spec k z width i :
  decimal_within k z width = true → (z ≤ i < z + Z.of_nat k)%Z →
  length (decimal i) ≤ width.
Proof.
  unused.
  revert z. induction k as [|k IH]; intros z Hk Hi; [lia|].
  cbn [decimal_within] in Hk. apply andb_true_iff in Hk as [Hz Hk].
  apply bool_decide_eq_true in Hz.
  destruct (decide (i = z)) as [->|Hne]; [done|].
  apply (IH (z + 1)%Z); [done|lia].
Qed.

Lemma decimal_limit z : (1 ≤ z ≤ 150000)%Z → length (decimal z) ≤ 6.
Proof.
  unused.
  intros Hz. apply (decimal_within_spec (Z.to_nat 150000) 1); [|lia].
  vm_compute. reflexivity.
Qed.

(** X21.  For a queried domain of at most 260 bytes, as [process_domain]
    builds it, and a limit that [main] lets through, the request for the
    first page is never cut by the array of 2048 bytes, and the request
    for a later page is not cut when the token has at most 1600 bytes. *)
Theorem query_url_not_cut (full_domain : cstring) (limit : Z)
    (resume_key : option cstring) :
  length full_domain ≤ 260 → (1 ≤ limit ≤ 150000)%Z →
  (∀ key, resume_key = Some key → length key ≤ 1600) →
  query_url full_domain limit resume_key =
    lit "http://web.archive.org/cdx/search/cdx?url=" ++ full_domain ++
    lit "&matchType=domain&fl=original,timestamp,statuscode,mimetype&collapse=urlkey&output=json&limit=" ++
    decimal limit ++
    match resume_key with
    | Some key => lit "&resumeKey=" ++ key
    | None => lit "&showResumeKey=true"
    end.
Proof.
  unused.
  intros Hdomain Hlimit Hkey. unfold query_url. apply take_ge.
  pose proof (decimal_limit limit Hlimit) as Hdec.
  rewrite !length_app.
  set (a := length (lit "http://web.archive.org/cdx/search/cdx?url=")).
  set (b := length (lit "&matchType=domain&fl=original,timestamp,statuscode,mimetype&collapse=urlkey&output=json&limit=")).
  assert (length (match resume_key with
                  | Some key => lit "&resumeKey=" ++ key
                  | None => lit "&showResumeKey=true"
                  end) ≤ 1611) as Hlast.
  { destruct resume_key as [key|]; [|vm_compute; lia].
    rewrite length_app. specialize (Hkey key eq_refl).
    change (length (lit "&resumeKey=")) with 11. lia. }
  vm_compute in a, b. subst a b.
  change (Z.to_nat MAX_URL_LEN - 1) with 2047. lia.
Qed.

End WaybackRecon.

(** ** Insertion sort meets the contract of [qsort] *)

Lemma insert_sorted_perm {A} (cmp : A → A → Z) x l : insert_sorted cmp x l ≡ₚ x :: l.
Proof.
  induction l as [|y l IH]; simpl; [done|]. case_decide; [done|].
  by rewrite IH, Permutation_swap.
Qed.

Lemma insertion_sort_perm {A} (cmp : A → A → Z) l : insertion_sort cmp l ≡ₚ l.
Proof.
  induction l as [|x l IH]; simpl; [done|]. by rewrite insert_sorted_perm, IH.
Qed.

Lemma insert_sorted_hd {A} (cmp : A → A → Z) x y l :
  (cmp y x ≤ 0)%Z → HdRel (λ a b, (cmp a b ≤ 0)%Z) y l →
  HdRel (λ a b, (cmp a b ≤ 0)%Z) y (insert_sorted cmp x l).
Proof.
  intros Hyx Hhd. destruct l as [|z l]; simpl; [by constructor|].
  case_decide; constructor; [done|]. by inversion Hhd.
Qed.

Lemma insert_sorted_sorted {A} (cmp : A → A → Z) x l :
  consistent cmp → Sorted (λ a b, (cmp a b ≤ 0)%Z) l →
  Sorted (λ a b, (cmp a b ≤ 0)%Z) (insert_sorted cmp x l).
Proof.
  intros (Hlt & Heq & Htrans) Hs. induction Hs as [|y l Hs IH Hhd]; simpl.
  - by repeat constructor.
  - case_decide as Hxy.
    + constructor; [by constructor|]. by constructor.
    + constructor; [done|]. apply insert_sorted_hd; [|done].
      assert (0 < cmp x y)%Z as Hpos by lia. apply Hlt in Hpos. lia.
Qed.

Lemma insertion_sort_sorts {A} : sorts (@insertion_sort A).
Proof.
  intros cmp l Hc. split; [apply insertion_sort_perm|].
  induction l as [|x l IH]; simpl; [constructor|]. by apply insert_sorted_sorted.
Qed.

(** ** The defect of the writer *)

(** C7.  A record whose formatting fails is skipped whole and the writer
    goes on; but the separator is written by index, so when the first
    record is the one that fails, the next record is preceded by a comma
    and the file is not a JSON array. *)
Theorem first_record_unformatted :
  report_text (fails_on (lit "https://x.com/a"))
    [endpoint_of (lit "https://x.com/a") None; endpoint_of (lit "https://x.com/c") None] 2
  = line (lit "[") ++ line (lit ",") ++ lit "{}" ++ [LF] ++ line (lit "]") ∧
  opens_with_comma
    (report_text (fails_on (lit "https://x.com/a"))
       [endpoint_of (lit "https://x.com/a") None; endpoint_of (lit "https://x.com/c") None] 2)
  = true.
Proof. split; vm_compute; reflexivity. Qed.

(** A page that ends with a data row: the mimetype of that row is taken
    for a token, and one more request follows. *)
Lemma last_data_row_read_as_token :
  next_resume_key all_succeed
    (JArray [header_row; data_row "https://x.com/c" "text/html"]) (mkProc 0 [])
  = Ret (Some (lit "text/html")) (mkProc 1 []).
Proof. vm_compute. reflexivity. Qed.

(** ** The theorems at concrete inputs *)

Lemma no_oom_all_succeed : no_oom all_succeed.
Proof. intros n. reflexivity. Qed.

Lemma infer_method_spec_witness :
  infer_method (Some (lit "https://x.com/update/1")) None = lit "PUT".
Proof.
  destruct (infer_method_spec (lit "https://x.com/update/1") None) as (_ & H & _).
  apply H.
  - left. exists "update"%string. split; [by_evaluation|].
    exists (lit "https://x.com/"), (lit "/1"). reflexivity.
  - left. exists (lit "https://x.com/"), (lit "/1"). reflexivity.
Defined.

Lemma urls_observed_once_witness :
  ∃ answers set',
    returns (observe_all all_succeed (mkURLSet [] 0 0)
               [Some (lit "a"); Some (lit "b"); Some (lit "a"); None; Some []])
      (mkProc 0 []) (answers, set') [] ∧
    length answers = 5.
Proof.
  destruct (urls_observed_once all_succeed zeroed archive (@insertion_sort Endpoint)
              [Some (lit "a"); Some (lit "b"); Some (lit "a"); None; Some []]
              (mkProc 0 []))
    as (answers & set' & H1 & H2 & _).
  - exact no_oom_all_succeed.
  - apply insertion_sort_sorts.
  - vm_compute. discriminate.
  - repeat (apply Forall_cons; split; [intros s [= <-]; by_evaluation || done |]).
    apply Forall_nil. exact I.
  - exists answers, set'. split; [exact H1 | exact H2].
Defined.


Lemma extract_params_correct_witness :
  returns (extract_params all_succeed (replicate 512 "x"%char)
             (lit "https://x.com/login?user=a&pass=b&user=c"))
    (mkProc 0 []) ([lit "user"; lit "pass"; lit "user"], 3%Z) [].
Proof.
  destruct (extract_params_correct all_succeed (replicate 512 "x"%char)
              (lit "https://x.com/login?user=a&pass=b&user=c") (mkProc 0 []))
    as (H & _).
  - exact no_oom_all_succeed.
  - by_evaluation.
  - vm_compute. reflexivity.
  - exact H.
Defined.

Lemma pagination_stops_witness :
  next_resume_key all_succeed last_page (mkProc 0 []) = Ret None (mkProc 0 []).
Proof.
  destruct (pagination_stops all_succeed zeroed archive last_page 5 (lit "x.com")
              (lit "http://x.com") 100000 0 1 (Some (lit "key1"))
              (mkLocals (mkURLSet [] 0 0) [] 0 0) (mkProc 0 [])) as (H & _).
  - vm_compute. exact I.
  - reflexivity.
  - exact H.
Defined.

Lemma two_pages_end_to_end_witness :
  ∃ report evs,
    returns (process_domain all_succeed zeroed archive braces (@insertion_sort Endpoint)
               true true 3 (Some (lit "x.com")) (lit "endpoints.json") 100000 60 0 0)
      (mkProc 0 []) 0%Z evs ∧
    report ≡ₚ [endpoint_of (lit "https://x.com/a") (Some (lit "text/html"));
               endpoint_of (lit "https://x.com/api/b?id=1") (Some (lit "application/json"));
               endpoint_of (lit "https://x.com/c") (Some (lit "text/html"))] ∧
    (∃ evs0, returns (collect_report all_succeed zeroed archive (@insertion_sort Endpoint)
                        3 (lit "x.com") 100000 0 0) (mkProc 0 []) (report, 3%Z) evs0) ∧
    writes evs = [(lit "endpoints.json",
                   line (lit "[") ++ records_text braces report ++ [LF] ++ line (lit "]"))] ∧
    Forall (λ e, endpoint_json e = record_object e) report.
Proof.
  destruct (two_pages_end_to_end all_succeed zeroed archive braces
              (@insertion_sort Endpoint) true true 0 (lit "x.com") (lit "endpoints.json")
              100000 60 0 0 first_page last_page
              (lit "https://x.com/a") (lit "https://x.com/api/b?id=1")
              (lit "https://x.com/c") (lit "key1")
              (Some (lit "text/html")) (Some (lit "application/json"))
              (Some (lit "application/json")) (Some (lit "text/html"))
              (mkProc 0 []))
    as (report & evs & H1 & _ & _ & H2 & _ & _ & H3 & H4 & H5).
  - exact no_oom_all_succeed.
  - apply insertion_sort_sorts.
  - reflexivity.
  - reflexivity.
  - by_evaluation.
  - by_evaluation.
  - vm_compute. discriminate.
  - by_evaluation.
  - by_evaluation.
  - by_evaluation.
  - by_evaluation.
  - by_evaluation.
  - by_evaluation.
  - by_evaluation.
  - by_evaluation.
  - by_evaluation.
  - by_evaluation.
  - reflexivity.
  - reflexivity.
  - split; [reflexivity|]. split; by_evaluation.
  - reflexivity.
  - reflexivity.
  - left. vm_compute. exact I.
  - exists report, evs. repeat (split; [assumption|]). assumption.
Defined.

Lemma malformed_row_skipped_witness :
  malformed_row (JArray [JString (lit "key1")]) ∧
  ∃ st' p',
    row_loop all_succeed zeroed (mkLocals (mkURLSet [] 0 0) [] 0 0)
      ([data_row "https://x.com/a" "text/html"] ++
       JArray [JString (lit "key1")] :: [data_row "https://x.com/c?q=1" "text/html"])
      (mkProc 0 [])
    = Ret st' p' ∧
    urls (seen st') = [lit "https://x.com/a"; lit "https://x.com/c?q=1"] ∧
    url <$> endpoints st' = [lit "https://x.com/a"; lit "https://x.com/c?q=1"] ∧
    endpoint_count st' = 2%Z ∧
    length (events p') = 2.
Proof.
  assert (malformed_row (JArray [JString (lit "key1")])) as Hbad.
  { left. vm_compute. lia. }
  split; [exact Hbad|].
  destruct (malformed_row_skipped all_succeed zeroed (mkLocals (mkURLSet [] 0 0) [] 0 0)
              [data_row "https://x.com/a" "text/html"]
              [data_row "https://x.com/c?q=1" "text/html"]
              (JArray [JString (lit "key1")]) (mkProc 0 []) Hbad) as (_ & _ & H & _).
  do 2 eexists. split; [rewrite H; vm_compute; reflexivity|].
  repeat split; reflexivity.
Defined.

Lemma query_cut_at_511_witness :
  MAX_PARAM_LEN = 512%Z ∧
  returns (extract_params all_succeed (replicate 512 NUL)
             (lit "http://h/" ++ "?"%char :: (replicate 509 "a"%char ++ lit "&b") ++ lit "cdef=1"))
    (mkProc 0 [])
    (names_of_query (replicate 509 "a"%char ++ lit "&b"),
     Z.of_nat (length (names_of_query (replicate 509 "a"%char ++ lit "&b")))) [].
Proof.
  destruct (query_cut_at_511 all_succeed (replicate 512 NUL) (lit "http://h/")
              (replicate 509 "a"%char ++ lit "&b") (lit "cdef=1") (mkProc 0 []))
    as (H1 & H2 & _).
  - exact no_oom_all_succeed.
  - by_evaluation.
  - by_evaluation.
  - by_evaluation.
  - by_evaluation.
  - vm_compute. reflexivity.
  - vm_compute. reflexivity.
  - split; [exact H1 | exact H2].
Defined.

(** ** The header row *)

Lemma bind_ext {A B} (m : M A) (f g : A → M B) p :
  (∀ a q, f a q = g a q) → (x <- m ; f x) p = (x <- m ; g x) p.
Proof. intros H. unfold bind. destruct (m p); [apply H|done..]. Qed.

Lemma fetch_loop_header heap query_uninit cdx cdx' fuel domain full_domain limit verbose
    page resume_key st p :
  (∀ page request, same_but_header (cdx page request) (cdx' page request)) →
  fetch_loop heap query_uninit cdx fuel domain full_domain limit verbose page resume_key st p
  = fetch_loop heap query_uninit cdx' fuel domain full_domain limit verbose page resume_key
      st p.
Proof.
  intros Hsame. revert page resume_key st p.
  induction fuel as [|fuel IH]; intros page resume_key st p; [done|].
  rewrite !fetch_loop_S. cbv zeta.
  apply bind_ext. intros _ p1. apply bind_ext. intros _ p2.
  specialize (Hsame page (query_url full_domain limit resume_key)).
  unfold same_but_header in Hsame.
  destruct (cdx page _) as [msg| |msg|root], (cdx' page _) as [msg'| |msg'|root'];
    simplify_eq; try done.
  all: try (destruct root as [| | | | | |[|header rows]|]; simplify_eq; done).
  destruct root as [| | | | | |[|header rows]|]; simplify_eq; try done.
  destruct root' as [| | | | | |[|header' rows']|]; simplify_eq; try done.
  destruct rows' as [|row rows']; [done|].
  cbn [json_is_array json_array_size negb orb length].
  rewrite !bool_decide_eq_false_2 by lia. cbn [drop].
  apply bind_ext. intros st' p3.
  assert (∀ q, next_resume_key heap (JArray (header :: row :: rows')) q
               = next_resume_key heap (JArray (header' :: row :: rows')) q) as Hkey.
  { intros q. unfold next_resume_key. simpl. done. }
  unfold bind. rewrite Hkey.
  destruct (next_resume_key heap _ p3) as [[key|] p4| | |]; try done.
Qed.

(** X19.  The first row of a page is never looked at: two archives whose
    answers differ only in the first row of the arrays they send give the
    same run of [process_domain], event for event. *)
Theorem header_row_ignored (heap : nat → bool) (query_uninit : cstring → list ascii)
    (cdx cdx' : nat → cstring → response) (json_dumps : json_t → Z → option cstring)
    (qsort : (Endpoint → Endpoint → Z) → list Endpoint → list Endpoint)
    (curl_init_ok fopen_ok : bool) (fuel : nat) (domain : option cstring)
    (output_file : cstring) (limit timeout verbose sort_desc : Z) (p : proc) :
  (∀ page request, same_but_header (cdx page request) (cdx' page request)) →
  process_domain heap query_uninit cdx json_dumps qsort curl_init_ok fopen_ok fuel domain
    output_file limit timeout verbose sort_desc p
  = process_domain heap query_uninit cdx' json_dumps qsort curl_init_ok fopen_ok fuel domain
      output_file limit timeout verbose sort_desc p.
Proof.
  intros Hsame. unfold process_domain.
  destruct domain as [d|]; [|done].
  destruct (_ || _); [done|]. destruct (negb curl_init_ok); [done|].
  unfold collect_report, bind.
  by rewrite (fetch_loop_header heap query_uninit cdx cdx').
Qed.

(** ** The further theorems at concrete inputs *)

Lemma safe_strncpy_bounded_witness :
  safe_strncpy (replicate 8 "x"%char) (lit "hello world") 4
  = (lit "hel" ++ NUL :: replicate 4 "x"%char, 3).
Proof.
  destruct (safe_strncpy_bounded (replicate 8 "x"%char) (lit "hello world") 4) as (H & _).
  - by_evaluation.
  - lia.
  - simpl. lia.
  - exact H.
Defined.

Lemma safe_strncpy_size_zero_witness :
  safe_strcpy (replicate 16 "x"%char) (lit "hello world") 0
  = lit "hello world" ++ NUL :: replicate 4 "x"%char.
Proof.
  destruct (safe_strncpy_size_zero (replicate 16 "x"%char) (lit "hello world")) as (_ & H).
  - by_evaluation.
  - simpl. lia.
  - simpl. lia.
  - exact H.
Defined.

Lemma safe_strtok_token_witness :
  ∃ lead tok rest buf' sp',
    token_split (lit "&") (lit "&&a=1&b") lead tok rest ∧
    safe_strtok (lit "&&a=1&b" ++ [NUL]) (Some 0) (lit "&") None
    = (Some (0 + length lead), buf', Some sp').
Proof.
  destruct (safe_strtok_token (lit "&&a=1&b" ++ [NUL]) (Some 0) None 0 (lit "&")
              (lit "&&a=1&b")) as [[H _] | (lead & tok & rest & buf' & sp' & H1 & H2 & _)].
  - reflexivity.
  - split; [by_evaluation|]. exists [], []. split; reflexivity.
  - apply Forall_cons in H as [_ H]. apply Forall_cons in H as [_ H].
    apply Forall_cons in H as [H _]. apply list_elem_of_singleton in H. discriminate H.
  - exists lead, tok, rest, buf', sp'. split; [exact H1 | exact H2].
Defined.

Lemma WriteMemoryCallback_appends_witness :
  WriteMemoryCallback all_succeed zeroed (lit "[]") 1 2 (mkMemoryChunk None 0) (mkProc 0 [])
  = Ret (2%Z, mkMemoryChunk (Some (lit "[]" ++ [NUL])) 2) (mkProc 1 []).
Proof.
  apply (WriteMemoryCallback_appends all_succeed zeroed (mkMemoryChunk None 0) []
           (lit "[]") 1 2 (mkProc 0 [])).
  - split; [reflexivity|]. right. split; reflexivity.
  - reflexivity.
  - simpl. lia.
Defined.

Lemma deliver_concat_witness :
  returns (deliver all_succeed zeroed (mkMemoryChunk None 0) [lit "[[1,"; lit "2]]"])
    (mkProc 0 []) ([4%Z; 3%Z], mkMemoryChunk (Some (lit "[[1,2]]" ++ [NUL])) 7) [].
Proof.
  apply (deliver_concat all_succeed zeroed [lit "[[1,"; lit "2]]"] (mkProc 0 [])).
  - exact no_oom_all_succeed.
  - discriminate.
  - simpl. lia.
Defined.

Lemma first_response_barren_witness :
  ∃ evs,
    returns (process_domain all_succeed zeroed (λ _ _, EmptyBody) braces
               (@insertion_sort Endpoint) true true 1 (Some (lit "x.com"))
               (lit "endpoints.json") 100000 60 0 0)
      (mkProc 0 []) 0%Z evs ∧
    writes evs = [(lit "endpoints.json", ["["%char; LF; LF; "]"%char; LF])].
Proof.
  destruct (first_response_barren all_succeed zeroed (λ _ _, EmptyBody) braces
              (@insertion_sort Endpoint) true true 0 (lit "x.com")
              (lit "endpoints.json") 100000 60 0 0 (mkProc 0 []))
    as (evs & H1 & _ & H2).
  - vm_compute. discriminate.
  - vm_compute. discriminate.
  - reflexivity.
  - reflexivity.
  - exact I.
  - exists evs. split; [exact H1 | exact H2].
Defined.

Lemma counters_within_capacity_witness :
  wp (fetch_loop all_succeed zeroed archive 3 (lit "x.com") (lit "http://x.com") 100000 0
        0 None (mkLocals (mkURLSet [] 0 0) [] 0 0))
    (mkProc 0 []) (λ st' _, within_capacity st') (λ _, True).
Proof.
  apply (counters_within_capacity all_succeed zeroed archive 3 (lit "x.com")
           (lit "http://x.com") 100000 0 0 None (mkLocals (mkURLSet [] 0 0) [] 0 0)
           (mkProc 0 [])).
  split; simpl; lia.
Defined.

Lemma report_of_all_pages_witness :
  ∃ evs,
    returns (process_domain all_succeed zeroed cut_archive plain (@insertion_sort Endpoint)
               true true 3 (Some (lit "x.com")) (lit "endpoints.json") 100000 60 0 0)
      (mkProc 0 []) 0%Z evs ∧
    (∃ evs0, returns (collect_report all_succeed zeroed cut_archive
                        (@insertion_sort Endpoint) 3 (lit "x.com") 100000 0 0)
               (mkProc 0 [])
               ([mkEndpoint cut_url (lit "GET")
                   [replicate 510 "a"%char ++ ["195"%char]] 1], 1%Z) evs0) ∧
    writes evs = [(lit "endpoints.json",
                   line (lit "[") ++
                   (lit "url=" ++ cut_url ++ lit ";method=GET;parameters=;") ++
                   [LF] ++ line (lit "]"))].
Proof.
  destruct (report_of_all_pages all_succeed zeroed cut_archive plain
              (@insertion_sort Endpoint) true true 3 (lit "x.com") (lit "endpoints.json")
              100000 60 0 0 (mkProc 0 []))
    as (report & evs & H1 & _ & _ & H2 & _ & _ & H3 & H4 & _).
  - exact no_oom_all_succeed.
  - apply insertion_sort_sorts.
  - reflexivity.
  - reflexivity.
  - intros [|page] request root; simpl; intros [= <-]; simpl;
      repeat split; by_evaluation.
  - vm_compute. discriminate.
  - vm_compute. discriminate.
  - vm_compute. reflexivity.
  - vm_compute. discriminate.
  - assert (report = [mkEndpoint cut_url (lit "GET")
                        [replicate 510 "a"%char ++ ["195"%char]] 1]) as ->.
    { apply Permutation_singleton_r.
      etransitivity; [exact H2|]. vm_compute. reflexivity. }
    exists evs. split; [exact H1|]. split; [exact H3|].
    rewrite H4. vm_compute. reflexivity.
Defined.

Lemma last_cell_taken_for_token_witness :
  wp (fetch_loop all_succeed zeroed
        (λ page _,
           match page with
           | 0 => Document (JArray [header_row; data_row "https://x.com/c" "text/html"])
           | _ => EmptyBody
           end)
        2 (lit "x.com") (lit "http://x.com") 100000 0 0 None
        (mkLocals (mkURLSet [] 0 0) [] 0 0))
    (mkProc 0 [])
    (λ _ p', Query (query_url (lit "http://x.com") 100000 (Some (lit "text/html")))
             ∈ events p')
    (λ _, True).
Proof.
  apply (last_cell_taken_for_token all_succeed zeroed
           (λ page _,
              match page with
              | 0 => Document (JArray [header_row; data_row "https://x.com/c" "text/html"])
              | _ => EmptyBody
              end)
           0 (lit "x.com") (lit "http://x.com") 100000 0 0 None
           (mkLocals (mkURLSet [] 0 0) [] 0 0) header_row [] (lit "https://x.com/c")
           (lit "text/html") (JString (lit "20200101000000")) (JString (lit "200"))
           (mkProc 0 [])).
  - reflexivity.
  - by_evaluation.
  - discriminate.
  - by_evaluation.
Defined.

Lemma report_text_joined_witness :
  report_text braces
    [endpoint_of (lit "https://x.com/a") None; endpoint_of (lit "https://x.com/c") None] 2
  = line (lit "[") ++ (lit "{}" ++ line (lit ",") ++ lit "{}") ++ [LF] ++ line (lit "]").
Proof.
  apply (report_text_joined braces
           [endpoint_of (lit "https://x.com/a") None;
            endpoint_of (lit "https://x.com/c") None]).
  intros e _. left. exists (lit "{}"). reflexivity.
Defined.

Lemma full_domain_of_accepted_witness :
  full_domain_of (lit "https://x.com") = lit "https://x.com".
Proof.
  destruct (full_domain_of_accepted (lit "https://x.com")) as (H & _).
  - by_evaluation.
  - vm_compute. discriminate.
  - apply H. exists (lit "https"), (lit "x.com"). reflexivity.
Defined.

Lemma parse_args_validated_witness :
  validated (mkOptions (lit "endpoints.json") 500 60 0 1 (Some (lit "x.com"))).
Proof.
  destruct (parse_args_validated (lit "waybackrecon")
              [lit "-l"; lit "500"; lit "-s"; lit "desc"; lit "x.com"]
              (mkOptions (lit "endpoints.json") 500 60 0 1 (Some (lit "x.com")))
              (mkProc 0 []) (mkProc 0 [])) as [H _].
  - vm_compute. reflexivity.
  - exact H.
Defined.

Lemma stdin_read_without_arguments_only_witness :
  ∃ p', main all_succeed zeroed archive braces (@insertion_sort Endpoint) true true zeroed
          3 (lit "waybackrecon") [lit "-"] (lit "x.com" ++ [LF]) (mkProc 0 [])
        = Ret 1%Z p'.
Proof.
  destruct (stdin_read_without_arguments_only all_succeed zeroed archive braces
              (@insertion_sort Endpoint) true true zeroed 3 (lit "waybackrecon")
              [lit "-"] (lit "x.com" ++ [LF]) [] (mkProc 0 [])) as [_ H].
  - discriminate.
  - apply (H (lit "-") []); reflexivity.
Defined.

Lemma read_domains_line_witness :
  read_domains all_succeed zeroed archive braces (@insertion_sort Endpoint) true true
    zeroed 1 3 initial_options (lit "x.com" ++ [CR; LF] ++ []) (mkProc 0 [])
  = (_ <- emit (Stdout ([LF] ++ lit "=== Processing: " ++ lit "x.com" ++ line (lit " ==="))) ;
     status <- process_domain all_succeed zeroed archive braces (@insertion_sort Endpoint)
                 true true 3 (Some (lit "x.com")) (lit "endpoints.json") 100000 60 0 0 ;
     _ <- (if decide (status ≠ 0%Z)
           then emit (Stderr (line (lit "Failed to process " ++ lit "x.com")))
           else ret tt) ;
     read_domains all_succeed zeroed archive braces (@insertion_sort Endpoint) true true
       zeroed 0 3 initial_options []) (mkProc 0 []).
Proof.
  apply (read_domains_line all_succeed zeroed archive braces (@insertion_sort Endpoint)
           true true zeroed 0 3 initial_options (lit "x.com") [CR; LF] [] (mkProc 0 [])).
  - repeat (apply Forall_cons; split; [by_evaluation|]). apply Forall_nil. exact I.
  - simpl. lia.
  - right. left. reflexivity.
Defined.

Lemma read_domains_long_line_witness :
  read_domains all_succeed zeroed archive braces (@insertion_sort Endpoint) true true
    zeroed 1 3 initial_options (replicate 4095 "a"%char ++ lit "x.com") (mkProc 0 [])
  = (_ <- emit (Stderr (line (lit "Invalid domain: empty or too long"))) ;
     read_domains all_succeed zeroed archive braces (@insertion_sort Endpoint) true true
       zeroed 0 3 initial_options (lit "x.com")) (mkProc 0 []).
Proof.
  apply (read_domains_long_line all_succeed zeroed archive braces
           (@insertion_sort Endpoint) true true zeroed 0 3 initial_options
           (replicate 4095 "a"%char) (lit "x.com") (mkProc 0 [])).
  - apply Forall_replicate. by_evaluation.
  - apply length_replicate.
Defined.

Lemma header_row_ignored_witness :
  process_domain all_succeed zeroed archive braces (@insertion_sort Endpoint) true true 3
    (Some (lit "x.com")) (lit "endpoints.json") 100000 60 0 0 (mkProc 0 [])
  = process_domain all_succeed zeroed
      (λ page _,
         match page with
         | 0 => Document
                  (JArray [JNull;
                           data_row "https://x.com/a" "text/html";
                           data_row "https://x.com/api/b?id=1" "application/json";
                           JArray [];
                           JArray [JString (lit "key1")]])
         | 1 => Document last_page
         | _ => EmptyBody
         end)
      braces (@insertion_sort Endpoint) true true 3
      (Some (lit "x.com")) (lit "endpoints.json") 100000 60 0 0 (mkProc 0 []).
Proof.
  apply header_row_ignored.
  intros [|[|page]] request; reflexivity.
Defined.

Lemma extracted_names_bounded_witness :
  ∃ names,
    returns (extract_params all_succeed (replicate 512 "x"%char) (lit "https://x.com/?a=1&b"))
      (mkProc 0 []) (names, Z.of_nat (length names)) [] ∧
    length names ≤ 256.
Proof.
  destruct (extracted_names_bounded all_succeed (replicate 512 "x"%char)
              (lit "https://x.com/?a=1&b") (mkProc 0 [])) as (names & H1 & H2 & _).
  - exact no_oom_all_succeed.
  - by_evaluation.
  - vm_compute. reflexivity.
  - exists names. split; [exact H1 | exact H2].
Defined.

Lemma query_url_not_cut_witness :
  query_url (lit "http://x.com") 100000 None =
    lit "http://web.archive.org/cdx/search/cdx?url=" ++ lit "http://x.com" ++
    lit "&matchType=domain&fl=original,timestamp,statuscode,mimetype&collapse=urlkey&output=json&limit=" ++
    decimal 100000 ++ lit "&showResumeKey=true".
Proof.
  apply (query_url_not_cut (lit "http://x.com") 100000 None).
  - simpl. lia.
  - lia.
  - intros key H. discriminate H.
Defined.
